(** * spotify-dl: a shallow embedding of the download pipeline

    The development follows the JavaScript sources function by function.
    The first part holds the embedding, one module per source file:
    - [JsString]          the string methods the sources call;
    - [Merger]            the merge of skip intervals in [sponsorComplexFilter]
                          (lib/downloader.js);
    - [Downloader]        the filter graph and the candidate loop of
                          [downloader] (lib/downloader.js);
    - [SpotifyApi]        [callSpotifyApi], the retry loop around the calls
                          of the Spotify client;
    - [FormatGenerators]  [generateTemplateString]
                          (util/format-generators.js);
    - [GetLink]           [findLinks] and [getLinks] (util/get-link.js);
    - [Node]              the file system and the log;
    - [Cache]             [writeId] and [findId] (lib/cache.js);
    - [Metadata]          [mergeMetadata] (lib/metadata.js);
    - [Runner]            [downloadList] and [generateReport]
                          (util/runner.js);
    - [Planner]           what the filter graph keeps of the audio
                          (lib/downloader.js);
    - [Catalog]           [chunkArray], the paging loop, [extractTracks],
                          [extractEpisodes] and [extractAlbum] of the
                          Spotify client;
    - [Filters]           [cleanOutputPath], [removeQuery] and [splitDates]
                          (util/filters.js);
    - [SongData]          [getID], [getTrack], [getAlbum] and
                          [getArtistAlbums] (util/get-songdata.js);
    - [UrlParser]         the parser of the input URLs;
    - [Subtitles]         [downloadSubtitles] (lib/subtitle-downloader.js);
    - [Template]          formats given by their texts and placeholders;
    - [RunnerTrace]       the calls a run may make;
    - [OutputPath]        [itemOutputPath] (util/runner.js);
    - [Session]           [processInput] and [run] (util/runner.js);
    - [Cookies]           [getYoutubeDLConfig] (lib/downloader.js).
    The second part holds the proofs, in a module [XProofs] for each module
    [X]; [DownloaderEdgeProofs], [GateProofs], [GetLinkBoundsProofs],
    [LedgerProofs] and [CoverProofs] add to the proofs about [Downloader],
    [SpotifyApi], [GetLink], [Cache] and [Metadata].

    Conventions.  JavaScript numbers that only go through comparisons,
    [Math.max] and the sign of a difference are rationals ([Q]): on finite
    numbers these operations are exact.  A name that may be missing is the
    empty string, which is falsy like [undefined].  Calls into the outside
    world (network, transcoder, file system) are oracles of a world record,
    and every effectful function returns the trace of the calls it made.  A
    function that may throw returns a [result].  Constants of
    util/constants.js, which is not among the sources, are parameters. *)

From Stdlib Require Import QArith Qminmax Lqa ZArith Lia Bool.
From Stdlib Require Import String Ascii List DecimalString.
From stdpp Require Import gmap strings list.
Import ListNotations.

Local Open Scope string_scope.
Local Open Scope list_scope.

(** ** Results of calls that may throw *)

Record Error := mkError { message : string }.

Inductive result (A : Type) : Type :=
| Returned (a : A)
| Threw (e : Error).
Arguments Returned {A} a.
Arguments Threw {A} e.

Definition is_returned {A} (r : result A) : bool :=
  match r with Returned _ => true | Threw _ => false end.

(** ** JavaScript strings

    A string is the sequence of its code units; the eight-bit characters of
    [string] stand for the code units below 256. *)

Module JsString.

Local Open Scope char_scope.

(** A string used as a condition: only [''] is falsy. *)
Definition truthy (s : string) : bool :=
  match s with EmptyString => false | _ => true end.

(** [s.slice(n)] for [0 <= n]. *)
Fixpoint drop (n : nat) (s : string) : string :=
  match n, s with
  | 0, _ => s
  | S n', String _ s' => drop n' s'
  | S _, EmptyString => EmptyString
  end.

(** [s.startsWith(p)]. *)
Definition startsWith (s p : string) : bool := String.prefix p s.

(** [s.includes(sub)]. *)
Fixpoint includes (s sub : string) : bool :=
  startsWith s sub ||
  match s with
  | EmptyString => false
  | String _ s' => includes s' sub
  end.

(** [list.includes(x)] on an array of strings. *)
Definition array_includes (l : list string) (x : string) : bool :=
  existsb (String.eqb x) l.

(** [list.join(sep)]. *)
Fixpoint join (sep : string) (l : list string) : string :=
  match l with
  | [] => EmptyString
  | [x] => x
  | x :: l' => (x ++ sep ++ join sep l')%string
  end.

(** The text before and after the first occurrence of [pat] in [s]. *)
Fixpoint cut_at_first (pat s : string) : option (string * string) :=
  if startsWith s pat then Some (EmptyString, drop (String.length pat) s)
  else match s with
       | EmptyString => None
       | String c s' =>
           match cut_at_first pat s' with
           | Some (before, after) => Some (String c before, after)
           | None => None
           end
       end.

(** GetSubstitution of ECMA-262 for a string pattern (no capture groups):
    in the replacement text [$$] stands for [$], [$&] for the match,
    [$`] for the text before it and [$'] for the text after it; any other
    [$] is kept. *)
Fixpoint get_substitution (matched before after template : string) : string :=
  match template with
  | EmptyString => EmptyString
  | String c t =>
      if Ascii.eqb c "$" then
        match t with
        | String d t' =>
            if Ascii.eqb d "$" then String "$" (get_substitution matched before after t')
            else if Ascii.eqb d "&" then
                   (matched ++ get_substitution matched before after t')%string
            else if Ascii.eqb d "`" then
                   (before ++ get_substitution matched before after t')%string
            else if Ascii.eqb d "'" then
                   (after ++ get_substitution matched before after t')%string
            else String c (get_substitution matched before after t)
        | EmptyString => String c EmptyString
        end
      else String c (get_substitution matched before after t)
  end.

(** [s.replace(pat, replacement)] with a string pattern: the first
    occurrence only. *)
Definition replace (s pat replacement : string) : string :=
  match cut_at_first pat s with
  | None => s
  | Some (before, after) =>
      (before ++ get_substitution pat before after replacement ++ after)%string
  end.

(** [s.split(sep)] for a one-character separator. *)
Fixpoint split (sep : ascii) (s : string) : list string :=
  match s with
  | EmptyString => [EmptyString]
  | String c s' =>
      if Ascii.eqb c sep then EmptyString :: split sep s'
      else match split sep s' with
           | piece :: pieces => String c piece :: pieces
           | [] => [String c EmptyString]
           end
  end.

(** White space and line terminators, as [trim] sees them. *)
Definition is_space (c : ascii) : bool :=
  match nat_of_ascii c with
  | 9 | 10 | 11 | 12 | 13 | 32 | 160 => true
  | _ => false
  end.

Fixpoint trimStart (s : string) : string :=
  match s with
  | EmptyString => EmptyString
  | String c s' => if is_space c then trimStart s' else s
  end.

Fixpoint trimEnd (s : string) : string :=
  match s with
  | EmptyString => EmptyString
  | String c s' =>
      match trimEnd s' with
      | EmptyString => if is_space c then EmptyString else String c EmptyString
      | rest => String c rest
      end
  end.

(** [s.trim()]. *)
Definition trim (s : string) : string := trimEnd (trimStart s).

(** The line feed, as a character and as the string ['\n']. *)
Definition LF : ascii := "010".
Definition nl : string := String LF EmptyString.

(** The character [c] occurs in [s]. *)
Fixpoint has_char (c : ascii) (s : string) : bool :=
  match s with
  | EmptyString => false
  | String d s' => Ascii.eqb d c || has_char c s'
  end.

(** [sub] occurs in [s]. *)
Definition occurs_in (sub s : string) : Prop :=
  exists before after, s = (before ++ sub ++ after)%string.

(** [s.toLowerCase()] on code units below 256: [A-Z] and the accented
    capitals of Latin-1 (all of 192-222 but the multiplication sign). *)
Definition lower_char (c : ascii) : ascii :=
  let n := nat_of_ascii c in
  if (Nat.leb 65 n && Nat.leb n 90)
     || (Nat.leb 192 n && Nat.leb n 222 && negb (Nat.eqb n 215))
  then ascii_of_nat (n + 32) else c.

Fixpoint toLowerCase (s : string) : string :=
  match s with
  | EmptyString => EmptyString
  | String c s' => String (lower_char c) (toLowerCase s')
  end.

End JsString.

(** ** lib/downloader.js, [sponsorComplexFilter]: the interval merger *)

Module Merger.

Local Open Scope Q_scope.

(** A SponsorBlock segment, [{ startTime, endTime }] in seconds. *)
Record Segment := mkSegment { startTime : Q; endTime : Q }.

(** [a > b] on numbers. *)
Definition Qgtb (a b : Q) : bool :=
  match a ?= b with Gt => true | _ => false end.

(** [Math.max(a, b)]. *)
Definition js_max (a b : Q) : Q := if Qle_bool a b then b else a.

(** [Array.prototype.sort(cmp)]: the sort is stable, so its result is the
    one of a stable insertion sort.  [x] is placed before the first [y]
    that does not compare below it. *)
Fixpoint sort_insert {A} (cmp : A -> A -> Q) (x : A) (l : list A) : list A :=
  match l with
  | [] => [x]
  | y :: l' => if Qle_bool (cmp x y) 0 then x :: l else y :: sort_insert cmp x l'
  end.

Definition js_sort {A} (cmp : A -> A -> Q) (l : list A) : list A :=
  fold_right (sort_insert cmp) [] l.

(** The comparator [(a, b) => a.startTime - b.startTime]. *)
Definition by_start (a b : Segment) : Q := startTime a - startTime b.

(** [acc[acc.length - 1].endTime = v]. *)
Definition set_last_end (acc : list Segment) (v : Q) : list Segment :=
  match last acc with
  | Some prev => removelast acc ++ [mkSegment (startTime prev) v]
  | None => acc
  end.

(** The reducer of lines 60-68. *)
Definition merge_step (acc : list Segment) (cur : Segment) : list Segment :=
  match last acc with
  | Some previousSegment =>
      if Qgtb (endTime previousSegment) (startTime cur)
      then set_last_end acc (js_max (endTime cur) (endTime previousSegment))
      else acc ++ [mkSegment (startTime cur) (endTime cur)]
  | None => acc ++ [mkSegment (startTime cur) (endTime cur)]
  end.

(** [.sort(...).reduce(..., [])] *)
Definition merge_segments (segments : list Segment) : list Segment :=
  fold_left merge_step (js_sort by_start segments) [].

(** *** Vocabulary of the statements *)

Definition well_formed (s : Segment) : Prop := startTime s < endTime s.

(** [x] lies in the (closed) interval [s]. *)
Definition inside (x : Q) (s : Segment) : Prop :=
  startTime s <= x /\ x <= endTime s.

Definition covered (l : list Segment) (x : Q) : Prop :=
  exists s, In s l /\ inside x s.

(** Every interval ends no later than each interval after it starts. *)
Inductive separated : list Segment -> Prop :=
| separated_nil : separated []
| separated_cons s l :
    Forall (fun t => endTime s <= startTime t) l ->
    separated l -> separated (s :: l).

(** Same with a gap: no interval touches a later one. *)
Inductive apart : list Segment -> Prop :=
| apart_nil : apart []
| apart_cons s l :
    Forall (fun t => endTime s < startTime t) l ->
    apart l -> apart (s :: l).

Inductive ascending : list Segment -> Prop :=
| ascending_nil : ascending []
| ascending_cons s l :
    Forall (fun t => startTime s < startTime t) l ->
    ascending l -> ascending (s :: l).

(** The same reducer on the accumulator kept last-first. *)
Definition merge_step_rev (racc : list Segment) (cur : Segment) : list Segment :=
  match racc with
  | prev :: older =>
      if Qgtb (endTime prev) (startTime cur)
      then mkSegment (startTime prev) (js_max (endTime cur) (endTime prev)) :: older
      else mkSegment (startTime cur) (endTime cur) :: racc
  | [] => [mkSegment (startTime cur) (endTime cur)]
  end.

(** What the sort establishes. *)
Inductive start_sorted : list Segment -> Prop :=
| start_sorted_nil : start_sorted []
| start_sorted_cons s l :
    Forall (fun t => startTime s <= startTime t) l ->
    start_sorted l -> start_sorted (s :: l).

(** [separated], read from the last interval back. *)
Inductive rsep : list Segment -> Prop :=
| rsep_nil : rsep []
| rsep_cons p older :
    Forall (fun o => endTime o <= startTime p) older ->
    rsep older -> rsep (p :: older).

End Merger.

(** ** lib/downloader.js: the filter graph and the candidate loop *)

Module Downloader.
Import Merger.

(** One line of the ffmpeg filter graph that [sponsorComplexFilter] joins
    with newlines.  Only the numbers that vary are kept; the constant
    [ASET] suffix and the rendering to text are left out. *)
Inductive FilterLine :=
| Trim (label : nat) (from to : Q)   (* [0:a]atrim=start=..:end=..,ASET[ia]; *)
| TrimFrom (label : nat) (from : Q)  (* [0:a]atrim=start=..,ASET[na]; *)
| Concat (n : nat).                  (* [0a]..[n-1 a]concat=n=..:v=0:a=1[outa] *)

Definition Filter := list FilterLine.

(** [new URL(link)] either throws or gives the value of the [v] query
    parameter, which may be missing. *)
Inductive UrlParse :=
| InvalidUrl
| ValidUrl (v : option string).

(** The collaborators of one [downloader] call.  The number is the value of
    [attemptCount] when the call is made, so that a link listed twice may
    behave differently the second time. *)
Record World := {
  parseUrl : string -> UrlParse;
  getSegments : nat -> string -> result (list Segment);
  transcode : nat -> string -> option Filter -> result unit;
}.

Inductive Event :=
| EvSegments (attempt : nat) (videoID : string)
| EvTranscode (attempt : nat) (link : string) (complexFilter : option Filter).

(** [segments.forEach((segment, i) => ...)], lines 79-83. *)
Fixpoint trims (i : nat) (previousEnd : Q) (segments : list Segment) : Filter :=
  match segments with
  | [] => []
  | segment :: rest =>
      Trim i previousEnd (startTime segment) :: trims (S i) (endTime segment) rest
  end.

Definition build_filter (segments : list Segment) : option Filter :=
  match last segments with
  | None => None                       (* segments.length === 0 *)
  | Some lastSegment =>
      Some (trims 0 0%Q segments
            ++ [TrimFrom (length segments) (endTime lastSegment);
                Concat (length segments + 1)])
  end.

(** [sponsorComplexFilter], lines 48-92.  [new URL] is outside the [try];
    the provider call and the merge are inside it. *)
Definition sponsorComplexFilter (w : World) (attempt : nat) (link : string)
  : list Event * result (option Filter) :=
  match parseUrl w link with
  | InvalidUrl => ([], Threw (mkError "Invalid URL"))
  | ValidUrl None => ([], Returned None)
  | ValidUrl (Some videoID) =>
      if JsString.truthy videoID then
        match getSegments w attempt videoID with
        | Threw _ => ([EvSegments attempt videoID], Returned None)
        | Returned segments =>
            ([EvSegments attempt videoID], Returned (build_filter (merge_segments segments)))
        end
      else ([], Returned None)
  end.

(** The [while] loop of lines 161-202, on the links not yet tried. *)
Fixpoint download_loop (w : World) (attemptCount : nat) (remaining : list string)
  : list Event * result bool :=
  match remaining with
  | [] => ([], Returned false)
  | link :: rest =>
      match sponsorComplexFilter w attemptCount link with
      | (t, Threw e) => (t, Threw e)
      | (t, Returned complexFilter) =>
          let t' := t ++ [EvTranscode attemptCount link complexFilter] in
          match transcode w attemptCount link complexFilter with
          | Returned _ => (t', Returned true)
          | Threw _ =>
              let (t'', r) := download_loop w (S attemptCount) rest in
              (t' ++ t'', r)
          end
      end
  end.

(** [downloader(youtubeLinks, output)]; a missing or empty array returns
    [false] before the loop, which is what the loop does on [[]]. *)
Definition downloader (w : World) (youtubeLinks : list string)
  : list Event * result bool :=
  match youtubeLinks with
  | [] => ([], Returned false)
  | _ => download_loop w 0 youtubeLinks
  end.

(** *** Vocabulary of the statements *)

(** The filter the loop computes for a candidate. *)
Definition plan (w : World) (attempt : nat) (link : string) : option Filter :=
  match snd (sponsorComplexFilter w attempt link) with
  | Returned f => f
  | Threw _ => None
  end.

(** Candidate [link], tried as number [attempt], fails to transcode. *)
Definition fails (w : World) (attempt : nat) (link : string) : Prop :=
  is_returned (transcode w attempt link (plan w attempt link)) = false.


Definition parses (w : World) (link : string) : Prop :=
  parseUrl w link <> InvalidUrl.


(** The transcoder calls of a trace. *)
Fixpoint transcode_events (t : list Event) : list Event :=
  match t with
  | [] => []
  | EvTranscode a link f :: t' => EvTranscode a link f :: transcode_events t'
  | _ :: t' => transcode_events t'
  end.

(** The calls made when [tried] are tried one after the other, the first
    of them as attempt number [n]. *)
Fixpoint calls_for (w : World) (n : nat) (tried : list string) : list Event :=
  match tried with
  | [] => []
  | link :: rest => EvTranscode n link (plan w n link) :: calls_for w (S n) rest
  end.
(** *** A sample run: three candidates, the first two fail to transcode *)

Definition sample_links : list string :=
  ["https://youtube.com/watch?v=a"; "https://youtube.com/watch?v=b";
   "https://youtube.com/watch?v=c"].

Definition sample_world : World := {|
  parseUrl link :=
    if String.eqb link "youtube" then InvalidUrl
    else ValidUrl (Some (String.substring 28 1 link));
  getSegments n videoID :=
    match n with
    | 0 => Threw (mkError "timeout")
    | 1 => Returned []
    | _ => Returned [mkSegment 10 20; mkSegment 15 25; mkSegment 40 50]
    end;
  transcode n link complexFilter :=
    if Nat.ltb n 2 then Threw (mkError "ffmpeg exited with code 1") else Returned tt;
|}.

End Downloader.

(** ** The Spotify client module: the gate around authenticated calls, [callSpotifyApi] *)

Module SpotifyApi.

(** [`${n}`] for a non-negative integer. *)
Definition show_nat (n : nat) : string :=
  DecimalString.NilEmpty.string_of_uint (Nat.to_uint n).

Inductive Event :=
| EvVerify (tries : nat)                      (* await verifyCredentials() *)
| EvCall (tries : nat)                        (* await apiCall() *)
| EvLog (tries : nat) (errorMessage : string) (* logInfo(`Spotify API error: ...`) *)
| EvWait (milliseconds : N).                (* setTimeout(resolve, ...) *)

Section Gate.
(** The type of what the wrapped call returns. *)
Context {A : Type}.
(** [Constants.AUTH.TIMEOUT_RETRY], in seconds; util/constants.js is not
    among the sources. *)
Variable TIMEOUT_RETRY : N.

(** What the two awaited calls do at each value of [tries]. *)
Record World := {
  verifyCredentials : nat -> result unit;
  apiCall : nat -> result A;
}.

Definition maxRetries : nat := 5.

(** The [while (tries <= maxRetries)] loop of lines 243-260.
    [remaining] counts the iterations left, [maxRetries + 1 - tries], so
    the loop test holds exactly when it is not [0]. *)
Fixpoint attempts (w : World) (remaining tries : nat) (lastError : option Error)
  : list Event * result A :=
  match remaining with
  | 0 =>
      ([], Threw (mkError
             ("Spotify API failed after " ++ show_nat maxRetries ++ " retries: "
              ++ match lastError with
                 | Some e => message e
                 | None => "undefined"
                 end)))
  | S remaining' =>
      match verifyCredentials w tries with
      | Threw e => ([EvVerify tries], Threw e)
      | Returned _ =>
          match apiCall w tries with
          | Returned v => ([EvVerify tries; EvCall tries], Returned v)
          | Threw error =>
              let wait :=
                if Nat.ltb tries maxRetries then [EvWait (TIMEOUT_RETRY * 1000)%N]
                else [] in
              let (t, r) := attempts w remaining' (S tries) (Some error) in
              ([EvVerify tries; EvCall tries; EvLog tries (message error)]
                 ++ wait ++ t, r)
          end
      end
  end.

Definition callSpotifyApi (w : World) : list Event * result A :=
  attempts w maxRetries 1 None.

(** *** Vocabulary of the statements *)

(** The values of [tries] at which the wrapped call was made. *)
Fixpoint calls (t : list Event) : list nat :=
  match t with
  | [] => []
  | EvCall n :: t' => n :: calls t'
  | _ :: t' => calls t'
  end.

(** The durations of the waits, in order. *)
Fixpoint waits (t : list Event) : list N :=
  match t with
  | [] => []
  | EvWait ms :: t' => ms :: waits t'
  | _ :: t' => waits t'
  end.

(** Every call of the wrapped function comes directly after a credential
    check made for the same attempt. *)
Fixpoint gated (t : list Event) : bool :=
  match t with
  | [] => true
  | EvCall _ :: _ => false
  | EvVerify n :: t' =>
      match t' with
      | EvCall m :: t'' => Nat.eqb n m && gated t''
      | _ => gated t'
      end
  | _ :: t' => gated t'
  end.

Definition call_fails (w : World) (n : nat) : Prop :=
  is_returned (apiCall w n) = false.

Definition credentials_ok (w : World) : Prop :=
  forall n, is_returned (verifyCredentials w n) = true.

(** The message of the error the wrapped call throws at attempt [n]. *)
Definition error_message_at (w : World) (n : nat) : string :=
  match apiCall w n with
  | Threw e => message e
  | Returned _ => EmptyString
  end.

End Gate.

Arguments World : clear implicits.

(** A rate-limited call that goes through on the fifth attempt. *)
Definition fifth_time_lucky : World string := {|
  verifyCredentials _ := Returned tt;
  apiCall n := if Nat.ltb n 5 then Threw (mkError "429 Too Many Requests")
               else Returned "tracks";
|}.

Definition always_limited : World string := {|
  verifyCredentials _ := Returned tt;
  apiCall n := Threw (mkError "429 Too Many Requests");
|}.

End SpotifyApi.

(** ** util/format-generators.js: [generateTemplateString] *)

Module FormatGenerators.
Import JsString.

Local Open Scope char_scope.

(** Modelled from the spec: [Constants.YOUTUBE_SEARCH.VALID_CONTEXTS] of
    util/constants.js, which is not among the sources; the spec gives the
    fixed set of placeholders. *)
Definition VALID_CONTEXTS : list string :=
  ["itemName"; "albumName"; "artistName"]%string.

(** [.] of a regular expression: anything but a line terminator. *)
Definition is_line_terminator (c : ascii) : bool :=
  match nat_of_ascii c with
  | 10 | 13 => true
  | _ => false
  end.

(** [.+?(?=\})] tried at the head of [s]: the shortest non-empty run of
    characters other than line terminators that is followed by [}]. *)
Fixpoint lazy_until_brace (s : string) : option string :=
  match s with
  | EmptyString => None
  | String c s' =>
      if is_line_terminator c then None
      else match s' with
           | String d _ =>
               if Ascii.eqb d "}" then Some (String c EmptyString)
               else match lazy_until_brace s' with
                    | Some name => Some (String c name)
                    | None => None
                    end
           | EmptyString => None
           end
  end.

(** The global match of [/(?<=\{).+?(?=\})/g] from the position of [s] on:
    [previous] is the character before that position and [skip] the number
    of characters still inside the last match. *)
Fixpoint match_from (skip : nat) (previous : ascii) (s : string) : list string :=
  match s with
  | EmptyString => []
  | String c s' =>
      match skip with
      | S skip' => match_from skip' c s'
      | 0 =>
          if Ascii.eqb previous "{" then
            match lazy_until_brace s with
            | Some name => name :: match_from (String.length name - 1) c s'
            | None => match_from 0 c s'
            end
          else match_from 0 c s'
      end
  end.

(** [format.match(/(?<=\{).+?(?=\})/g)], with [null] read as no match. *)
Definition match_contexts (format : string) : list string :=
  match format with
  | EmptyString => []
  | String c s' => match_from 0 c s'
  end.

(** [contextMap[context]] for a valid context. *)
Definition contextMap (itemName albumName artistName context : string) : string :=
  if String.eqb context "itemName" then itemName
  else if String.eqb context "albumName" then albumName
  else if String.eqb context "artistName" then artistName
  else "undefined"%string.

(** Lines 15-52.  A missing name is the empty string ([itemName || '']). *)
Definition generateTemplateString (itemName albumName artistName format : string)
  : result string :=
  if negb (truthy format) then Returned EmptyString
  else
    let contexts := match_contexts format in
    match contexts with
    | [] => Returned format
    | _ =>
        let invalidContexts :=
          List.filter (fun context => negb (array_includes VALID_CONTEXTS context))
                      contexts in
        match invalidContexts with
        | _ :: _ =>
            Threw (mkError ("Invalid template contexts: "
                            ++ join ", " invalidContexts
                            ++ ". Valid contexts are: "
                            ++ join ", " VALID_CONTEXTS)%string)
        | [] =>
            Returned
              (fold_left
                 (fun result context =>
                    replace result ("{" ++ context ++ "}")%string
                            (contextMap itemName albumName artistName context))
                 contexts format)
        end
    end.

(** *** Vocabulary of the statements *)

(** What the claim asks of a render: every [{name}] with a valid name is
    replaced, where it stands, by the value of that name.  [fuel] bounds
    the number of characters looked at. *)
Fixpoint substitute (fuel : nat) (itemName albumName artistName s : string) : string :=
  match fuel with
  | 0 => s
  | S fuel' =>
      if startsWith s "{itemName}" then
        (itemName ++ substitute fuel' itemName albumName artistName (drop 10 s))%string
      else if startsWith s "{albumName}" then
        (albumName ++ substitute fuel' itemName albumName artistName (drop 11 s))%string
      else if startsWith s "{artistName}" then
        (artistName ++ substitute fuel' itemName albumName artistName (drop 12 s))%string
      else match s with
           | EmptyString => EmptyString
           | String c s' => String c (substitute fuel' itemName albumName artistName s')
           end
  end.

Definition render_as_claimed (itemName albumName artistName format : string) : string :=
  substitute (String.length format) itemName albumName artistName format.

End FormatGenerators.

(** ** util/get-link.js: [findLinks] and [getLinks] *)

Module GetLink.
Import JsString FormatGenerators.

(** A search result of yt-search, with the fields the code reads.
    [seconds] is [None] when the field is missing. *)
Record Video := mkVideo {
  title : string;
  description : string;
  seconds : option Z;
  url : string;
}.

(** The tiers of [getLinks], named by their call of [findLinks]. *)
Inductive Tier := CustomFormat | AlbumPrefixed | ArtistPrefixed.

Inductive Event :=
| EvSearch (n : nat) (searchTerms : string)                 (* await search(...) *)
| EvFind (tier : Tier) (searchTerms : string) (links : list string)
                                  (* links = await findLinks(...) returned *)
| EvLog (errorMessage : string).  (* logInfo(`Custom search format failed: ...`) *)

(** The search provider: what the [n]-th search of a call answers; the
    answer may lack its [videos]. *)
Record World := {
  search : nat -> string -> result (option (list Video));
}.

(** [a < b] on numbers. *)
Definition Qltb (a b : Q) : bool := Merger.Qgtb b a.

Section Constants.
(** [Object.values(Constants.INPUT_TYPES.SONG)] and
    [Constants.YOUTUBE_SEARCH.MAX_MINUTES]; util/constants.js is not among
    the sources. *)
Variable SONG_TYPES : list string.
Variable MAX_MINUTES : Z.
(** [StringSimilarity.compareTwoStrings] of the string-similarity
    package. *)
Variable compareTwoStrings : string -> string -> Q.

(** The first [filter] callback, lines 40-53. *)
Definition not_excluded (exclusionFilters : list string) (video : Video) : bool :=
  match exclusionFilters with
  | [] => true
  | _ =>
      let titleMatch :=
        existsb (fun filter =>
                   includes (toLowerCase (title video)) (toLowerCase filter))
                exclusionFilters in
      let descMatch :=
        existsb (fun filter =>
                   includes (toLowerCase (description video)) (toLowerCase filter))
                exclusionFilters in
      negb titleMatch && negb descMatch
  end.

(** The second [filter] callback, lines 54-59. *)
Definition duration_ok (isSong : bool) (video : Video) : bool :=
  match seconds video with
  | None => false
  | Some s =>
      if (s =? 0)%Z || (s <=? 0)%Z then false
      else negb isSong || (s <? MAX_MINUTES * 60)%Z
  end.

(** The [map] callback, lines 61-66. *)
Definition video_link (video : Video) : string :=
  if startsWith (url video) "https://youtube.com" then url video
  else ("https://youtube.com" ++ url video)%string.

Definition kept (type : string) (exclusionFilters : list string)
           (videos : list Video) : list Video :=
  firstn 10
    (List.filter (duration_ok (array_includes SONG_TYPES type))
       (List.filter (not_excluded exclusionFilters) videos)).

(** [findLinks], lines 24-71; [n] searches were made before the call.
    The whole body after the first test is inside [try], and the
    [catch] returns [[]]. *)
Definition findLinks (w : World) (n : nat) (searchTerms type : string)
           (exclusionFilters : list string) : list Event * result (list string) :=
  if negb (truthy searchTerms) then ([], Returned [])
  else
    match search w n searchTerms with
    | Threw _ => ([EvSearch n searchTerms], Returned [])
    | Returned None => ([EvSearch n searchTerms], Returned [])
    | Returned (Some videos) =>
        ([EvSearch n searchTerms],
         Returned (map video_link (kept type exclusionFilters videos)))
    end.

(** The number of searches in a trace. *)
Fixpoint searches (t : list Event) : nat :=
  match t with
  | [] => 0
  | EvSearch _ _ :: t' => S (searches t')
  | _ :: t' => searches t'
  end.

(** [links = await findLinks(...)] at one of the three call sites; an
    exception of [findLinks] would leave the call site. *)
Definition find_at (w : World) (tier : Tier) (n : nat) (searchTerms type : string)
           (exclusionFilters : list string) : list Event * result (list string) :=
  match findLinks w n searchTerms type exclusionFilters with
  | (t, Returned links) => (t ++ [EvFind tier searchTerms links], Returned links)
  | (t, Threw e) => (t, Threw e)
  end.

(** The [try { ... } catch] of lines 101-111 around the custom tier. *)
Definition custom_tier (w : World)
           (itemName albumName artistName searchFormat type : string)
           (exclusionFilters : list string) : list Event * list string :=
  match generateTemplateString itemName albumName artistName searchFormat with
  | Threw e => ([EvLog (message e)], [])
  | Returned customSearch =>
      match find_at w CustomFormat 0 customSearch type exclusionFilters with
      | (t, Returned links) => (t, links)
      | (t, Threw e) => (t ++ [EvLog (message e)], [])
      end
  end.

(** [getLinks], lines 85-141.  A missing name is the empty string. *)
Definition getLinks (w : World)
           (itemName albumName artistName extraSearch searchFormat type : string)
           (exclusionFilters : list string) : list Event * result (list string) :=
  if negb (truthy itemName) then ([], Returned [])
  else
    let (t1, links1) :=
      if truthy searchFormat
      then custom_tier w itemName albumName artistName searchFormat type exclusionFilters
      else ([], []) in
    if Nat.ltb 0 (length links1) then (t1, Returned links1)
    else
      let extraSearchTerm :=
        if truthy extraSearch then (" " ++ extraSearch)%string else EmptyString in
      let similarity := compareTwoStrings itemName albumName in
      let (t2, r2) :=
        if Qltb similarity (1 # 2) && truthy albumName
        then find_at w AlbumPrefixed (searches t1)
                     (albumName ++ " - " ++ itemName ++ extraSearchTerm)%string
                     type exclusionFilters
        else ([], Returned links1) in
      match r2 with
      | Threw e => (t1 ++ t2, Threw e)
      | Returned links2 =>
          if Nat.eqb (length links2) 0 && truthy artistName
          then
            let (t3, r3) :=
              find_at w ArtistPrefixed (searches (t1 ++ t2))
                      (artistName ++ " - " ++ itemName ++ extraSearchTerm)%string
                      type exclusionFilters in
            (t1 ++ t2 ++ t3, r3)
          else (t1 ++ t2, Returned links2)
      end.

(** *** Vocabulary of the statements *)

(** The calls of [findLinks] a trace records, with what they returned. *)
Fixpoint finds (t : list Event) : list (Tier * string * list string) :=
  match t with
  | [] => []
  | EvFind tier terms links :: t' => (tier, terms, links) :: finds t'
  | _ :: t' => finds t'
  end.

Definition extra_term (extraSearch : string) : string :=
  if truthy extraSearch then (" " ++ extraSearch)%string else EmptyString.





End Constants.

(** *** Reading the trace of [getLinks] *)

Definition Find := (Tier * string * list string)%type.

Definition tier_of (f : Find) : Tier := fst (fst f).
Definition found_by (f : Find) : list string := snd f.

(** The tier ran, that is, its [findLinks] call was made. *)
Definition ran (tier : Tier) (fs : list Find) : Prop :=
  exists terms found, In (tier, terms, found) fs.

Definition ran_with (tier : Tier) (terms : string) (fs : list Find) : Prop :=
  exists found, In (tier, terms, found) fs.

(** The tier did not run or came back empty. *)
Definition found_nothing (tier : Tier) (fs : list Find) : Prop :=
  forall terms found, In (tier, terms, found) fs -> found = [].

(** *** The similarity of the string-similarity package *)

Definition remove_spaces (s : string) : string :=
  string_of_list_ascii (List.filter (fun c => negb (is_space c)) (list_ascii_of_string s)).

Fixpoint bigrams (s : string) : list (ascii * ascii) :=
  match s with
  | String a ((String b _) as s') => (a, b) :: bigrams s'
  | _ => []
  end.

Definition same_bigram (x y : ascii * ascii) : bool :=
  Ascii.eqb (fst x) (fst y) && Ascii.eqb (snd x) (snd y).

(** Take one copy of [b] out of [l], if there is one. *)
Fixpoint take_one (b : ascii * ascii) (l : list (ascii * ascii))
  : option (list (ascii * ascii)) :=
  match l with
  | [] => None
  | x :: l' =>
      if same_bigram b x then Some l'
      else match take_one b l' with
           | Some r => Some (x :: r)
           | None => None
           end
  end.

Fixpoint intersection_size (first second : list (ascii * ascii)) : nat :=
  match second with
  | [] => 0
  | b :: second' =>
      match take_one b first with
      | Some first' => S (intersection_size first' second')
      | None => intersection_size first second'
      end
  end.

(** Modelled from the spec: [compareTwoStrings] of the string-similarity
    package, a dependency that is not among the sources; the spec calls it
    a Dice-coefficient-style string similarity.  White space is dropped,
    equal strings score 1, a string of fewer than two characters scores 0,
    otherwise twice the number of shared bigrams over the number of
    bigrams of both. *)
Definition dice (first second : string) : Q :=
  let first := remove_spaces first in
  let second := remove_spaces second in
  if String.eqb first second then 1%Q
  else if Nat.ltb (String.length first) 2 || Nat.ltb (String.length second) 2 then 0%Q
  else (inject_Z (2 * Z.of_nat (intersection_size (bigrams first) (bigrams second)))
        / inject_Z (Z.of_nat (String.length first + String.length second - 2)))%Q.

(** *** A sample provider *)

Definition sample_videos : list Video :=
  [ mkVideo "Halo (Official Video)" "Beyonce" (Some 261%Z) "/watch?v=one";
    mkVideo "Halo LIVE at Glastonbury" "full concert" (Some 5400%Z)
            "https://youtube.com/watch?v=two";
    mkVideo "Halo - Karaoke" "sing along" (Some 250%Z) "/watch?v=three";
    mkVideo "Halo premiere" "starts soon" (Some 0%Z) "/watch?v=four";
    mkVideo "Halo stream" "radio" None "/watch?v=five" ].

(** Answers only to searches that start with the album or the artist. *)
Definition sample_world : World := {|
  search n searchTerms :=
    if startsWith searchTerms "Greatest Hits - Halo" then Returned (Some sample_videos)
    else if startsWith searchTerms "Beyonce - Halo" then Returned (Some sample_videos)
    else if startsWith searchTerms "crash" then Threw (mkError "network")
    else Returned (Some []);
|}.

Definition sample_song_types : list string :=
  ["song"; "playlist"; "album"; "artist"]%string.

End GetLink.

(** ** Node: the file system and the log

    The files are those the cache reads and writes; [dirs] are the
    directories that exist.  [Faults] says which calls the operating system
    refuses. *)

Module Node.

Record Env := mkEnv {
  files : gmap string string;
  dirs : gset string;
  logged : list string;
}.

Record Faults := mkFaults {
  mkdir_fails : string -> bool;
  append_fails : string -> bool;
  read_fails : string -> bool;
}.

(** A computation that reads and changes the environment and may throw. *)
Definition M (A : Type) : Type := Env -> Env * result A.

Definition ret {A} (a : A) : M A := fun env => (env, Returned a).

Definition bind {A B} (m : M A) (k : A -> M B) : M B :=
  fun env =>
    match m env with
    | (env', Returned a) => k a env'
    | (env', Threw e) => (env', Threw e)
    end.

Definition throw {A} (e : Error) : M A := fun env => (env, Threw e).

(** [try { m } catch (error) { handler error }] *)
Definition try_catch {A} (m : M A) (handler : Error -> M A) : M A :=
  fun env =>
    match m env with
    | (env', Threw e) => handler e env'
    | r => r
    end.

Notation "'let*' x := m 'in' k" := (bind m (fun x => k))
  (at level 10, x name, m at level 100, k at level 200).
Notation "'run' m 'then' k" := (bind m (fun _ => k))
  (at level 10, m at level 100, k at level 200).

(** [fs.existsSync(path)] *)
Definition existsSync (path : string) : M bool :=
  fun env =>
    (env, Returned (bool_decide (is_Some (files env !! path))
                    || bool_decide (path ∈ dirs env))).

(** [fs.mkdirSync(path, { recursive: true })] *)
Definition mkdirSync (f : Faults) (path : string) : M unit :=
  fun env =>
    if mkdir_fails f path then (env, Threw (mkError "EACCES: permission denied, mkdir"))
    else (mkEnv (files env) ({[path]} ∪ dirs env) (logged env), Returned tt).

(** [fs.appendFileSync(path, data, 'utf-8')] *)
Definition appendFileSync (f : Faults) (path data : string) : M unit :=
  fun env =>
    if append_fails f path then (env, Threw (mkError "EACCES: permission denied, open"))
    else
      let old := default EmptyString (files env !! path) in
      (mkEnv (<[path := (old ++ data)%string]> (files env)) (dirs env) (logged env),
       Returned tt).

(** [fs.readFileSync(path, 'utf-8')] *)
Definition readFileSync (f : Faults) (path : string) : M string :=
  fun env =>
    if read_fails f path then (env, Threw (mkError "EACCES: permission denied, open"))
    else match files env !! path with
         | Some content => (env, Returned content)
         | None => (env, Threw (mkError "ENOENT: no such file or directory, open"))
         end.

(** [logInfo(message)] and [logFailure(message)] *)
Definition logInfo (msg : string) : M unit :=
  fun env => (mkEnv (files env) (dirs env) (logged env ++ [msg]), Returned tt).

Definition no_faults : Faults := mkFaults (fun _ => false) (fun _ => false) (fun _ => false).

Definition empty_env : Env := mkEnv ∅ ∅ [].

End Node.

(** ** lib/cache.js: [writeId] and [findId] *)

Module Cache.
Import JsString Node.

Section Paths.
(** [path.join] and [path.dirname] of Node, and [cliInputs().cacheFile]. *)
Variable path_join : string -> string -> string.
Variable path_dirname : string -> string.
Variable cacheFile : string.
Variable f : Faults.

(** [getCacheFile], lines 12-17. *)
Definition getCacheFile (dir : string) : string :=
  let cacheFileIsRelative := startsWith cacheFile "." in
  if cacheFileIsRelative then path_join dir cacheFile else cacheFile.

(** [writeId], lines 24-41. *)
Definition writeId (dir id : string) : M unit :=
  if negb (truthy dir) || negb (truthy id) then ret tt
  else
    try_catch
      (let cacheFile := getCacheFile dir in
       let cacheDir := path_dirname cacheFile in
       let* present := existsSync cacheDir in
       run (if negb present then mkdirSync f cacheDir else ret tt) then
       appendFileSync f cacheFile ("spotify " ++ id ++ nl))
      (fun error => logInfo ("Failed to write to cache: " ++ message error)).

(** The ids of a cache file, lines 62-65. *)
Definition cached_ids (cacheContent : string) : list string :=
  List.filter truthy
    (map (fun line => trim (replace line "spotify " EmptyString))
         (split LF cacheContent)).

(** [findId], lines 49-72. *)
Definition findId (id dir : string) : M bool :=
  if negb (truthy id) || negb (truthy dir) then ret false
  else
    try_catch
      (let cacheFile := getCacheFile dir in
       let* present := existsSync cacheFile in
       if negb present then ret false
       else
         let* cacheContent := readFileSync f cacheFile in
         ret (array_includes (cached_ids cacheContent) id))
      (fun error =>
         run logInfo ("Failed to read cache: " ++ message error) then ret false).

End Paths.

(** *** Vocabulary of the statements *)

(** An id the cache can give back: not empty, on one line, and with no
    white space at either end. *)
Definition plain_id (id : string) : Prop :=
  truthy id = true /\ has_char LF id = false /\ trim id = id.

(** A cache file made of whole lines. *)
Definition whole_lines (content : string) : Prop :=
  content = EmptyString \/
  exists lines, content = (lines ++ nl)%string.

(** A simple [path.join] and [path.dirname] for the examples. *)
Definition join_slash (a b : string) : string := (a ++ "/" ++ b)%string.

Fixpoint dirname_slash (s : string) : string :=
  match s with
  | EmptyString => EmptyString
  | String c s' =>
      if has_char "/"%char s' then String c (dirname_slash s') else EmptyString
  end.

(** [has] after [record] on a fresh disk, with [.spdlcache] as cache file. *)
Definition record_then_has (dir id : string) : result bool :=
  let cache := ".spdlcache"%string in
  let (env, _) := writeId join_slash dirname_slash cache no_faults dir id empty_env in
  snd (findId join_slash cache no_faults id dir env).

(** The line [writeId] appends for an id. *)
Definition cache_line (id : string) : string :=
  ("spotify " ++ id ++ nl)%string.

Section Ledger.
Variable path_join : string -> string -> string.
Variable cacheFile : string.

(** The cache file of [dir] lists [id]. *)
Definition recorded (id dir : string) (env : Env) : Prop :=
  exists content,
    files env !! getCacheFile path_join cacheFile dir = Some content /\
    In id (cached_ids content).

(** Every file of the disk is made of whole lines. *)
Definition well_kept (env : Env) : Prop :=
  forall path content, files env !! path = Some content -> whole_lines content.

End Ledger.

End Cache.

(** ** lib/metadata.js: [mergeMetadata] *)

Module Metadata.
Import JsString.

(** The fields of [songData] that decide what [mergeMetadata] does; the
    other tags are computed from [songData] without any effect. *)
Record SongData := mkSongData {
  cover_url : string;   (* [''] when there is none *)
  name : string;
  lyrics : string;
}.

Inductive Event :=
| EvFetch (downloadAttempts : nat)  (* await downloadAndSaveCover(coverURL, coverFileName) *)
| EvCopy                            (* fs.copyFileSync(GENERIC_IMAGE, coverFileName) *)
| EvUpdate (APIC : option string)   (* NodeID3.update(metadata, output) *)
| EvUnlink (path : string)          (* fs.unlinkSync(path) *)
| EvLog (msg : string).

(** What the collaborators do.  A cover download, whether it succeeds or
    not, may leave a file at the cover path: [fetch_leaves n before] says
    whether the file is there after attempt [n], given whether it was there
    before. *)
Record World := {
  fetch : nat -> result unit;
  fetch_leaves : nat -> bool -> bool;
  copy : result unit;
  update : result unit;
  unlink : result unit;
}.

(** [output.slice(0, output.length - 3) + 'jpg']; a negative end counts
    from the end of the string. *)
Definition coverFileName (output : string) : string :=
  let len := String.length output in
  let stop := if Nat.leb 3 len then len - 3 else 2 * len - 3 in
  (String.substring 0 stop output ++ "jpg")%string.

(** The [while (downloadAttempts < maxAttempts)] loop of lines 76-88, with
    [remaining = maxAttempts - downloadAttempts]; [cover] says whether the
    cover file exists. *)
Fixpoint fetch_loop (w : World) (remaining downloadAttempts : nat) (cover : bool)
  : bool * list Event :=
  match remaining with
  | 0 => (cover, [])
  | S remaining' =>
      let cover' := fetch_leaves w downloadAttempts cover in
      match fetch w downloadAttempts with
      | Returned _ => (cover', [EvFetch downloadAttempts])
      | Threw _ =>
          let msg :=
            if Nat.eqb (S downloadAttempts) 1
            then "Album cover download failed, retrying..."%string
            else "Album cover download failed, using generic image"%string in
          let (cover'', t) := fetch_loop w remaining' (S downloadAttempts) cover' in
          (cover'', EvFetch downloadAttempts :: EvLog msg :: t)
      end
  end.

(** Lines 72-89. *)
Definition fetch_phase (w : World) (songData : SongData) (cover : bool)
  : bool * list Event :=
  if truthy (cover_url songData) then fetch_loop w 2 0 cover else (cover, []).

(** Lines 91-97. *)
Definition copy_phase (w : World) (cover : bool) : bool * list Event :=
  if negb cover then
    match copy w with
    | Returned _ => (true, [EvCopy])
    | Threw e => (false, [EvCopy; EvLog ("Failed to copy generic image: " ++ message e)])
    end
  else (cover, []).

(** Lines 121 and 128-133. *)
Definition tag_phase (w : World) (output : string) (cover : bool) : list Event :=
  let APIC := if cover then Some (coverFileName output) else None in
  match update w with
  | Returned _ => [EvUpdate APIC; EvLog "Metadata merged successfully"]
  | Threw e => [EvUpdate APIC; EvLog ("Failed to merge metadata: " ++ message e)]
  end.

(** Lines 135-141. *)
Definition cleanup_phase (w : World) (output : string) (cover : bool)
  : bool * list Event :=
  if cover then
    match unlink w with
    | Returned _ => (false, [EvUnlink (coverFileName output)])
    | Threw e =>
        (true, [EvUnlink (coverFileName output);
                EvLog ("Failed to delete temporary cover file: " ++ message e)])
    end
  else (cover, []).

(** [mergeMetadata(output, songData)], lines 50-129.  [cover] says whether
    a file exists at the cover path when the call starts; the result says
    whether one exists when it ends. *)
Definition mergeMetadata (w : World) (output : string) (songData : option SongData)
           (cover : bool) : bool * list Event * result unit :=
  match songData with
  | None =>
      (cover, [EvLog "Invalid output path or song data for metadata merge"], Returned tt)
  | Some songData =>
      if negb (truthy output)
      then (cover, [EvLog "Invalid output path or song data for metadata merge"],
            Returned tt)
      else
        let (cover1, t1) := fetch_phase w songData cover in
        let (cover2, t2) := copy_phase w cover1 in
        let t3 := tag_phase w output cover2 in
        let (cover3, t4) := cleanup_phase w output cover2 in
        (cover3, t1 ++ t2 ++ t3 ++ t4, Returned tt)
  end.

(** *** Vocabulary of the statements *)






(** A world in which the cover cannot be fetched, the generic image is
    copied, the tag write fails and the temporary file cannot be deleted. *)
Definition stubborn_world : World := {|
  fetch _ := Threw (mkError "timeout of 30000ms exceeded");
  fetch_leaves _ before := before;
  copy := Returned tt;
  update := Threw (mkError "EBUSY");
  unlink := Threw (mkError "EPERM: operation not permitted, unlink");
|}.





End Metadata.

(** ** util/runner.js: [downloadList] and [generateReport] *)

Module Runner.
Import JsString Node.

(** An item of a list, with the fields [downloadList] and [generateReport]
    read, and the two flags they set; [None] is a flag that was never
    set. *)
Record Item := mkItem {
  id : string;
  name : string;
  album_name : string;
  artists : list string;
  URL : string;              (* [''] unless the item is a direct link *)
  lyrics : option string;
  cached : option bool;
  failed : option bool;
}.

Definition set_cached (item : Item) : Item :=
  mkItem (id item) (name item) (album_name item) (artists item) (URL item)
         (lyrics item) (Some true) (failed item).

Definition set_failed (b : bool) (item : Item) : Item :=
  mkItem (id item) (name item) (album_name item) (artists item) (URL item)
         (lyrics item) (cached item) (Some b).

Definition set_lyrics (text : string) (item : Item) : Item :=
  mkItem (id item) (name item) (album_name item) (artists item) (URL item)
         (Some text) (cached item) (failed item).

Record SongList := mkList {
  list_name : string;
  list_type : string;
  items : list Item;
}.

(** The calls made for the item at position [index] of the list. *)
Inductive Event :=
| EvLyrics (index : nat)        (* await downloadSubtitles(itemName, artistName) *)
| EvResolve (index : nat)       (* await getLinks({...}) *)
| EvAcquire (index : nat) (ytLinks : list string) (outputFilePath : string)
                                (* await downloader(ytLinks, outputFilePath) *)
| EvTag (index : nat)           (* await mergeMetadata(outputFilePath, nextItem) *)
| EvRecord (index : nat).       (* writeId(itemDir, itemId) *)

(** The collaborators of a run, asked for the item at a position. *)
Record World := {
  downloadSubtitles : nat -> Item -> string;
  getLinks : nat -> Item -> list string;
  downloader : nat -> list string -> string -> result bool;
}.

Section Run.
(** [itemOutputPath] with the options of the command line applied,
    [path.dirname], [path.resolve] and [path.join] of Node, and the
    options [cacheFile] and [downloadLyrics]. *)
Variable itemOutputPath : string -> string -> string -> string.
Variable path_dirname : string -> string.
Variable path_resolve : string -> string.
Variable path_join : string -> string -> string.
Variable cacheFile : string.
Variable downloadLyrics : bool.
Variable f : Faults.
Variable w : World.

(** [name.replace(/\//g, '-')] *)
Fixpoint dashes (s : string) : string :=
  match s with
  | EmptyString => EmptyString
  | String c s' => String (if Ascii.eqb c "/" then "-"%char else c) (dashes s')
  end.

(** [nextItem.artists?.[0] || 'Unknown Artist'] *)
Definition artistName (item : Item) : string :=
  match artists item with
  | first :: _ => if truthy first then first else "Unknown Artist"%string
  | [] => "Unknown Artist"%string
  end.

Definition fullItemPath (item : Item) : string :=
  itemOutputPath (name item) (album_name item) (artistName item).

Definition itemDir (item : Item) : string := path_dirname (fullItemPath item).

(** The body of the [for] loop, lines 79-143, for the item at position
    [index].  An exception of [downloader] is not caught here. *)
Definition process_item (index : nat) (nextItem : Item) (env : Env)
  : Env * list Event * result Item :=
  let (env1, found) :=
    Cache.findId path_join cacheFile f (id nextItem) (itemDir nextItem) env in
  match found with
  | Threw e => (env1, [], Threw e)
  | Returned true => (env1, [], Returned (set_cached nextItem))
  | Returned false =>
      match mkdirSync f (itemDir nextItem) env1 with
      | (env2, Threw e) =>
          (fst (logInfo ("Failed to create directory: " ++ message e) env2), [],
           Returned (set_failed true nextItem))
      | (env2, Returned _) =>
          let (item1, t1) :=
            if downloadLyrics
            then (set_lyrics (downloadSubtitles w index nextItem) nextItem,
                  [EvLyrics index])
            else (nextItem, []) in
          let (ytLinks, t2) :=
            if truthy (URL nextItem) then ([URL nextItem], [])
            else (getLinks w index nextItem, [EvResolve index]) in
          match ytLinks with
          | [] =>
              (fst (logInfo ("No YouTube links found for: " ++ name nextItem) env2),
               t1 ++ t2, Returned (set_failed true item1))
          | _ =>
              let outputFilePath := path_resolve (fullItemPath nextItem) in
              let t3 := t1 ++ t2 ++ [EvAcquire index ytLinks outputFilePath] in
              match downloader w index ytLinks outputFilePath with
              | Threw e => (env2, t3, Threw e)
              | Returned true =>
                  (fst (Cache.writeId path_join path_dirname cacheFile f
                          (itemDir nextItem) (id nextItem) env2),
                   t3 ++ [EvTag index; EvRecord index],
                   Returned (set_failed false item1))
              | Returned false => (env2, t3, Returned (set_failed true item1))
              end
          end
      end
  end.

(** The [for (const nextItem of list.items)] loop from position [index]. *)
Fixpoint process_items (index : nat) (items : list Item) (env : Env)
  : Env * list Event * result (list Item) :=
  match items with
  | [] => (env, [], Returned [])
  | nextItem :: rest =>
      match process_item index nextItem env with
      | (env1, t1, Threw e) => (env1, t1, Threw e)
      | (env1, t1, Returned item) =>
          match process_items (S index) rest env1 with
          | (env2, t2, Threw e) => (env2, t1 ++ t2, Threw e)
          | (env2, t2, Returned done) => (env2, t1 ++ t2, Returned (item :: done))
          end
      end
  end.

(** [downloadList(list)], lines 69-149. *)
Definition downloadList (songs : SongList) (env : Env)
  : Env * list Event * result SongList :=
  let name := dashes (list_name songs) in
  match process_items 0 (items songs) env with
  | (env', t, Returned done) => (env', t, Returned (mkList name (list_type songs) done))
  | (env', t, Threw e) => (env', t, Threw e)
  end.

End Run.

(** The line of the report for one list, and the failed items under it. *)
Record ReportEntry := mkEntry {
  entry_name : string;
  entry_type : string;
  successCount : nat;
  totalItems : nat;
  failedItems : list Item;
}.

(** [item.failed] used as a condition. *)
Definition is_failed (item : Item) : bool :=
  match failed item with Some true => true | _ => false end.

(** [generateReport(listResults)], lines 155-186: what it logs. *)
Definition generateReport (listResults : list SongList) : list ReportEntry :=
  map (fun result =>
         let listItems := items result in
         let totalItems := length listItems in
         let failedItems := List.filter is_failed listItems in
         let successCount := totalItems - length failedItems in
         mkEntry (list_name result) (list_type result) successCount totalItems failedItems)
      listResults.

(** *** Vocabulary of the statements *)

(** The positions for which [downloader] was called. *)
Fixpoint acquired (t : list Event) : list nat :=
  match t with
  | [] => []
  | EvAcquire index _ _ :: t' => index :: acquired t'
  | _ :: t' => acquired t'
  end.

(** An item as the catalog hands it over: no flag set. *)
Definition fresh (item : Item) : Prop := cached item = None /\ failed item = None.

(** The item was acquired by the run, or found acquired. *)
Definition kept (item : Item) : Prop :=
  failed item = Some false \/ cached item = Some true.

(** The items of a list the report does not count as failed. *)
Definition succeeded (l : list Item) : list Item :=
  List.filter (fun item => negb (is_failed item)) l.

(** What C10 says of the line of one list. *)
Definition entry_counts (result : SongList) (entry : ReportEntry) : Prop :=
  totalItems entry = length (items result) /\
  failedItems entry = List.filter is_failed (items result) /\
  successCount entry = length (items result) - length (failedItems entry) /\
  successCount entry = length (succeeded (items result)) /\
  ((forall item, In item (items result) -> failed item <> Some true) ->
   successCount entry = totalItems entry).
Section Resume.
Variable itemOutputPath : string -> string -> string -> string.
Variable path_dirname : string -> string.
Variable path_resolve : string -> string.
Variable path_join : string -> string -> string.
Variable cacheFile : string.
Variable downloadLyrics : bool.

(** The cache file consulted for an item. *)
Definition cache_file_of (item : Item) : string :=
  Cache.getCacheFile path_join cacheFile (itemDir itemOutputPath path_dirname item).

(** The system lets the run record the item. *)
Definition writable (f : Faults) (item : Item) : Prop :=
  mkdir_fails f (path_dirname (cache_file_of item)) = false /\
  append_fails f (cache_file_of item) = false.

(** The system lets the run look the item up. *)
Definition readable (f : Faults) (item : Item) : Prop :=
  read_fails f (cache_file_of item) = false.

(** An item the cache can handle: its id is plain and its directory has a
    name. *)
Definition plain (item : Item) : Prop :=
  Cache.plain_id (id item) /\
  truthy (itemDir itemOutputPath path_dirname item) = true.

(** The cache lists the item. *)
Definition listed (item : Item) (env : Env) : Prop :=
  Cache.recorded path_join cacheFile (id item)
                 (itemDir itemOutputPath path_dirname item) env.

(** What a step may do to the files: nothing, or append the line of the
    item to its cache file. *)
Definition grows (item : Item) (env env' : Env) : Prop :=
  files env' = files env \/
  files env'
  = <[cache_file_of item := (default EmptyString (files env !! cache_file_of item)
                             ++ Cache.cache_line (id item))%string]> (files env).

(** C6, last part, as the claim has it: after a first run, a second run
    from the disk the first one left marks every item the first run kept
    as cached and calls [downloader] for none. *)
Definition reruns_from_cache : Prop :=
  forall f1 w1 f2 w2 songs env0 env1 t1 done1 env2 t2 done2,
    downloadList itemOutputPath path_dirname path_resolve path_join cacheFile
                 downloadLyrics f1 w1 songs env0 = (env1, t1, Returned done1) ->
    downloadList itemOutputPath path_dirname path_resolve path_join cacheFile
                 downloadLyrics f2 w2 songs env1 = (env2, t2, Returned done2) ->
    Forall fresh (items songs) ->
    Forall kept (items done1) ->
    Forall (fun item => cached item = Some true) (items done2) /\ acquired t2 = [].

End Resume.

(** *** A sample run *)

Definition sample_path (itemName albumName artistName : string) : string :=
  ("music/" ++ artistName ++ "/" ++ itemName ++ ".mp3")%string.

(** Every download succeeds. *)
Definition eager_world : World := {|
  downloadSubtitles _ _ := EmptyString;
  getLinks _ item := [("https://youtube.com/watch?v=" ++ id item)%string];
  downloader _ _ _ := Returned true;
|}.

Definition run_sample_on (f : Faults) (songs : SongList) (env : Env)
  : Env * list Event * result SongList :=
  downloadList sample_path Cache.dirname_slash (fun p => p) Cache.join_slash
               ".spdlcache" false f eager_world songs env.

Definition run_sample : SongList -> Env -> Env * list Event * result SongList :=
  run_sample_on no_faults.

(** A disk on which no file can be appended to. *)
Definition read_only : Faults := mkFaults (fun _ => false) (fun _ => true) (fun _ => false).

(** A direct link given with a space after it. *)
Definition padded_link : SongList :=
  mkList "YouTube Download" "youtube"
         [mkItem "https://youtu.be/abc " "https://youtu.be/abc " "YouTube Download"
                 ["YouTube"] "https://youtu.be/abc " None None None].

Definition two_songs : SongList :=
  mkList "Mix" "playlist"
         [mkItem "4uLU6hMCjMI75M1A2tKUQC" "Halo" "I Am" ["Beyonce"] EmptyString None None None;
          mkItem "7ouMYWpwJ422jRcDASZB7P" "Knights" "Drones" ["Muse"] EmptyString None None None].

End Runner.

(** ** lib/downloader.js: what the filter graph keeps of the audio *)

Module Planner.
Import Merger Downloader.
Local Open Scope Q_scope.

(** The provider's reading of a segment: the audio from [startTime] up to,
    not including, [endTime] is to be skipped. *)
Definition skipped (segments : list Segment) (x : Q) : Prop :=
  exists s, In s segments /\ startTime s <= x /\ x < endTime s.

(** ffmpeg's [atrim=start=a:end=b] keeps the samples with timestamp in
    [a, b), [atrim=start=a] those from [a] on; [concat] keeps none by
    itself. *)
Definition line_keeps (x : Q) (l : FilterLine) : Prop :=
  match l with
  | Trim _ from to => from <= x /\ x < to
  | TrimFrom _ from => from <= x
  | Concat _ => False
  end.

Definition keeps (f : Filter) (x : Q) : Prop :=
  exists l, In l f /\ line_keeps x l.

(** The labels [[ia]] of the trim lines, in the order of the lines. *)
Fixpoint labels (f : Filter) : list nat :=
  match f with
  | [] => []
  | Trim i _ _ :: f' => i :: labels f'
  | TrimFrom i _ :: f' => i :: labels f'
  | Concat _ :: f' => labels f'
  end.

(** The input counts of the [concat] lines. *)
Fixpoint concats (f : Filter) : list nat :=
  match f with
  | [] => []
  | Concat n :: f' => n :: concats f'
  | _ :: f' => concats f'
  end.

Definition starts_at_or_after (p : Q) (s : Segment) : Prop := p <= startTime s.

End Planner.
(** ** The Spotify client module: chunked and paged extraction

    Every request below goes through [callSpotifyApi]; a collaborator's
    answer is what the gate returns or throws.  The first number a
    collaborator takes counts the requests already made by the extraction
    in progress, so that the provider may answer the same request
    differently when it is repeated. *)

Module Catalog.

(** [array.slice(i, j)] for integers [0 <= i <= j]. *)
Definition slice {A} (array : list A) (i j : nat) : list A :=
  firstn (j - i) (skipn i array).

(** [chunkArray], lines 91-97.  The [for] loop ends when [i] reaches the
    length of the array; [fuel] bounds the number of turns, and [None] is a
    loop still running when the fuel is spent.  Sizes are natural numbers. *)
Fixpoint chunk_loop {A} (fuel : nat) (array : list A) (size i : nat)
  : option (list (list A)) :=
  if Nat.ltb i (length array) then
    match fuel with
    | 0 => None
    | S fuel' =>
        match chunk_loop fuel' array size (i + size) with
        | Some chunks => Some (slice array i (i + size) :: chunks)
        | None => None
        end
    end
  else Some [].

Definition chunkArray {A} (fuel : nat) (array : list A) (size : nat)
  : option (list (list A)) :=
  chunk_loop fuel array size 0.

(** The body of a paged answer: [{ items, total }]. *)
Record Page (A : Type) := mkPage { items : list A; total : Z }.
Arguments mkPage {A} items total.
Arguments items {A} p.
Arguments total {A} p.

(** A track as [getTracks] gives it, with the fields [parseTrack] reads. *)
Record SpotifyTrack := {
  track_id : string;
  track_name : string;
  track_popularity : Z;
  track_artists : list string;       (* artists[k].name *)
  track_album_name : string;         (* album.name *)
  track_release_date : string;       (* album.release_date *)
  track_number_in_album : Z;         (* track_number *)
  track_album_total : Z;             (* album.total_tracks *)
  track_images : list string;        (* album.images[k].url *)
}.

Record AudioFeature := { feature_id : string; tempo : Q }.

Record SpotifyEpisode := {
  episode_id : string;
  episode_name : string;
  episode_release_date : string;
  episode_images : list string;
  show_publisher : string;
  show_name : string;
  show_total_episodes : Z;
}.

(** The object [parseTrack] and [parseEpisode] build. *)
Record Song := {
  name : string;
  bpm : option Q;
  popularity : Z;
  artists : list string;
  album_name : string;
  release_date : string;
  track_number : Z;
  total_tracks : Z;
  cover_url : option string;
  id : string;
}.

Definition set_artists (s : Song) (a : list string) : Song :=
  {| name := name s; bpm := bpm s; popularity := popularity s; artists := a;
     album_name := album_name s; release_date := release_date s;
     track_number := track_number s; total_tracks := total_tracks s;
     cover_url := cover_url s; id := id s |}.

(** [parseTrack], lines 305-322. *)
Definition parseTrack (track : SpotifyTrack) (audioFeatures : list AudioFeature) : Song :=
  let audioFeature :=
    find (fun feature => String.eqb (feature_id feature) (track_id track)) audioFeatures in
  {| name := track_name track;
     bpm := option_map tempo audioFeature;
     popularity := track_popularity track;
     artists := track_artists track;
     album_name := track_album_name track;
     release_date := track_release_date track;
     track_number := track_number_in_album track;
     total_tracks := track_album_total track;
     cover_url := head (track_images track);
     id := track_id track |}.

(** [parseEpisode], lines 330-341. *)
Definition parseEpisode (episode : SpotifyEpisode) (index : nat) : Song :=
  {| name := episode_name episode;
     bpm := Some 0%Q;
     popularity := 100;
     artists := [show_publisher episode];
     album_name := show_name episode;
     release_date := episode_release_date episode;
     track_number := Z.of_nat index + 1;
     total_tracks := show_total_episodes episode;
     cover_url := head (episode_images episode);
     id := episode_id episode |}.

(** What [extractArtist] keeps of an artist, and [extractAlbum] reads of an
    album: its name, its label and the names of its artists. *)
Record Artist := { artist_id : string; artist_name : string; artist_href : string }.

Record AlbumInfo := {
  info_name : string;
  info_label : string;
  info_artists : list string;
}.

(** A list of songs with its name, as [extractAlbum] returns it. *)
Record Listing := mkListing { listing_name : string; listing_items : list Song }.

Record World := {
  getTracks : nat -> list string -> result (list (option SpotifyTrack));
  getAudioFeaturesForTracks : nat -> list string -> result (list (option AudioFeature));
  getEpisodes : nat -> list string -> result (list (option SpotifyEpisode));
  getArtist : string -> result Artist;
  getArtistAlbums : string -> nat -> nat -> result (Page string);
  getAlbum : string -> result AlbumInfo;
  getAlbumTracks : string -> nat -> nat -> result (Page (option string));
}.

Inductive Request :=
| ReqTracks (ids : list string)
| ReqFeatures (ids : list string)
| ReqEpisodes (ids : list string).

(** [.filter(x => x)] on an array with [null] entries. *)
Fixpoint non_null {A} (l : list (option A)) : list A :=
  match l with
  | [] => []
  | Some x :: l' => x :: non_null l'
  | None :: l' => non_null l'
  end.

(** The loops [for (x = 0; x < chunks.length; x++)] and [for (const chunk
    of chunks)]: one request per chunk, the answers pushed onto one array;
    a request that throws ends the loop. *)
Fixpoint gather {A B} (call : nat -> list A -> result (list B)) (x : nat)
    (chunks : list (list A)) : list (list A) * result (list B) :=
  match chunks with
  | [] => ([], Returned [])
  | chunk :: rest =>
      match call x chunk with
      | Threw e => ([chunk], Threw e)
      | Returned answer =>
          let (t, r) := gather call (S x) rest in
          (chunk :: t,
           match r with
           | Returned answers => Returned (answer ++ answers)
           | Threw e => Threw e
           end)
      end
  end.

Section Limits.

Variable MAX_LIMIT_DEFAULT : nat.

(** The [do ... while (collected.length < page.total)] loop shared by
    [extractPlaylist], [extractAlbum], [extractArtistAlbums],
    [extractShowEpisodes] and the [extractSaved...] functions.  The trace
    is the list of offsets requested. *)
Fixpoint page_loop {A} (fuel : nat) (getPage : nat -> nat -> result (Page A))
    (request : nat) (collected : list A) (offset : nat)
  : list nat * option (result (list A)) :=
  match fuel with
  | 0 => ([], None)
  | S fuel' =>
      match getPage request offset with
      | Threw e => ([offset], Some (Threw e))
      | Returned page =>
          let collected' := collected ++ items page in
          if (Z.of_nat (length collected') <? total page)%Z
          then let (t, r) :=
                 page_loop fuel' getPage (S request) collected'
                           (offset + MAX_LIMIT_DEFAULT) in
               (offset :: t, r)
          else ([offset], Some (Returned collected'))
      end
  end.

(** [extractArtistAlbums], lines 452-474; an album is its id. *)
Definition extractArtistAlbums (w : World) (fuel : nat) (artistId : string)
  : list nat * option (result (list string)) :=
  page_loop fuel (getArtistAlbums w artistId) 0 [] 0.

(** [extractTrackAudioFeatures], lines 661-677. *)
Definition extractTrackAudioFeatures (w : World) (fuel : nat) (trackIds : list string)
  : list Request * option (result (list AudioFeature)) :=
  match trackIds with
  | [] => ([], Some (Returned []))
  | _ =>
      match chunkArray fuel trackIds MAX_LIMIT_DEFAULT with
      | None => ([], None)
      | Some chunks =>
          match gather (getAudioFeaturesForTracks w) 0 chunks with
          | (t, Returned audioFeatures) =>
              (map ReqFeatures t, Some (Returned (non_null audioFeatures)))
          | (t, Threw e) => (map ReqFeatures t, Some (Threw e))
          end
      end
  end.

(** [extractTracks], lines 270-297. *)
Definition extractTracks (w : World) (fuel : nat) (trackIds : list string)
  : list Request * option (result (list Song)) :=
  match trackIds with
  | [] => ([], Some (Returned []))
  | _ =>
      match chunkArray fuel trackIds 20 with
      | None => ([], None)
      | Some chunkedTracks =>
          match gather (getTracks w) 0 chunkedTracks with
          | (t, Threw e) => (map ReqTracks t, Some (Threw e))
          | (t, Returned tracks) =>
              let extractedTracks := non_null tracks in
              match extractedTracks with
              | [] => (map ReqTracks t, Some (Returned []))
              | _ =>
                  match extractTrackAudioFeatures w fuel
                          (map track_id extractedTracks) with
                  | (t', Some (Returned audioFeatures)) =>
                      (map ReqTracks t ++ t',
                       Some (Returned
                               (map (fun track => parseTrack track audioFeatures)
                                    extractedTracks)))
                  | (t', Some (Threw e)) => (map ReqTracks t ++ t', Some (Threw e))
                  | (t', None) => (map ReqTracks t ++ t', None)
                  end
              end
          end
      end
  end.

(** [extractArtist], lines 435-445. *)
Definition extractArtist (w : World) (artistId : string) : result Artist :=
  getArtist w artistId.

(** [extractAlbum], lines 388-428; a track of a page of the album is its
    id, or [null]. *)
Definition extractAlbum (w : World) (fuel : nat) (albumId : string)
  : option (result Listing) :=
  match getAlbum w albumId with
  | Threw e => Some (Threw e)
  | Returned albumInfo =>
      match snd (page_loop fuel (getAlbumTracks w albumId) 0 [] 0) with
      | None => None
      | Some (Threw e) => Some (Threw e)
      | Some (Returned tracks) =>
          let trackIds := non_null tracks in
          match snd (extractTracks w fuel trackIds) with
          | None => None
          | Some (Threw e) => Some (Threw e)
          | Some (Returned tracksParsed) =>
              let items :=
                match info_artists albumInfo with
                | primaryArtist :: _ =>
                    if JsString.truthy primaryArtist
                    then map (fun track =>
                                set_artists track (primaryArtist :: artists track))
                             tracksParsed
                    else tracksParsed
                | [] => tracksParsed
                end in
              Some (Returned
                      (mkListing (info_name albumInfo ++ " - " ++ info_label albumInfo)
                                 items))
          end
      end
  end.

End Limits.

(** [extractEpisodes], lines 481-499. *)
Definition extractEpisodes (w : World) (fuel : nat) (episodeIds : list string)
  : list Request * option (result (list Song)) :=
  match episodeIds with
  | [] => ([], Some (Returned []))
  | _ =>
      match chunkArray fuel episodeIds 20 with
      | None => ([], None)
      | Some chunkedEpisodes =>
          match gather (fun x chunk =>
                          match getEpisodes w x chunk with
                          | Returned episodesResult => Returned (non_null episodesResult)
                          | Threw e => Threw e
                          end) 0 chunkedEpisodes with
          | (t, Returned episodes) =>
              (map ReqEpisodes t,
               Some (Returned (imap (fun index episode => parseEpisode episode index)
                                    episodes)))
          | (t, Threw e) => (map ReqEpisodes t, Some (Threw e))
          end
      end
  end.

(** *** Vocabulary of the statements *)

(** The provider serves the pages of one fixed collection. *)
Definition serves {A} (limit : nat) (getPage : nat -> nat -> result (Page A))
    (collection : list A) : Prop :=
  forall request offset,
    getPage request offset
    = Returned (mkPage (slice collection offset (offset + limit))
                       (Z.of_nat (length collection))).

(** The provider serves the pages of one fixed collection and reports more
    items than the collection has. *)
Definition overreports {A} (limit : nat) (getPage : nat -> nat -> result (Page A))
    (collection : list A) : Prop :=
  exists reported,
    (Z.of_nat (length collection) < reported)%Z /\
    forall request offset,
      getPage request offset
      = Returned (mkPage (slice collection offset (offset + limit)) reported).

(** What [extractTracks] makes of a track when the provider has [feature]
    for it. *)
Definition song_of (featureOf : string -> option AudioFeature) (track : SpotifyTrack)
  : Song :=
  parseTrack track
    (match featureOf (track_id track) with Some feature => [feature] | None => [] end).

(** The provider answers a request for ids with one entry per id, the
    same for an id whenever it is asked. *)
Definition answers_by_id {A} (call : nat -> list string -> result (list (option A)))
    (lookup : string -> option A) : Prop :=
  forall x ids, call x ids = Returned (map lookup ids).


(** *** A sample provider: two tracks it knows, any other id unknown *)

Definition sample_track (trackId : string) : option SpotifyTrack :=
  if String.eqb trackId "unknown" then None
  else Some {| track_id := trackId; track_name := "Song " ++ trackId;
               track_popularity := 50; track_artists := ["Artist"];
               track_album_name := "Album"; track_release_date := "2020-01-02";
               track_number_in_album := 1; track_album_total := 10;
               track_images := [] |}.

Definition sample_feature (trackId : string) : option AudioFeature :=
  if String.eqb trackId "t2" then None
  else Some {| feature_id := trackId; tempo := 120 |}.

Definition sample_episode (episodeId : string) : option SpotifyEpisode :=
  if String.eqb episodeId "unknown" then None
  else Some {| episode_id := episodeId; episode_name := "Episode " ++ episodeId;
               episode_release_date := "2021-03-04"; episode_images := [];
               show_publisher := "Publisher"; show_name := "Show";
               show_total_episodes := 200 |}.

Definition sample_world : World := {|
  getTracks _ ids := Returned (map sample_track ids);
  getAudioFeaturesForTracks _ ids := Returned (map sample_feature ids);
  getEpisodes _ ids := Returned (map sample_episode ids);
  getArtist artistId :=
    Returned {| artist_id := artistId; artist_name := "Muse"; artist_href := "href" |};
  getArtistAlbums _ _ offset :=
    Returned (mkPage (slice ["album1"; "album2"; "album3"] offset (offset + 2)) 3);
  getAlbum albumId :=
    Returned {| info_name := albumId; info_label := "Label";
                info_artists := ["Various Artists"] |};
  getAlbumTracks albumId _ offset :=
    Returned (mkPage (slice [Some (albumId ++ "-t1")%string; None; Some (albumId ++ "-t2")%string]
                            offset (offset + 2)) 3);
|}.
End Catalog.
(** ** util/filters.js *)

Module Filters.
Import JsString.
Local Open Scope char_scope.

(** The characters of the class of line 11, in its order; 092 is the
    backslash and 034 the double quote. *)
Definition reserved : list ascii :=
  ["&"; "/"; "092"; "#"; "+"; "$"; "!"; "034"; "~"; "."; "%"; ":"; "*"; "?";
   "<"; ">"; "{"; "}"; "|"].

Definition is_reserved (c : ascii) : bool := existsb (Ascii.eqb c) reserved.

(** [s.replace(/[class]/g, '')]: every character of the class is dropped. *)
Fixpoint remove_all (class : ascii -> bool) (s : string) : string :=
  match s with
  | EmptyString => EmptyString
  | String c s' => if class c then remove_all class s' else String c (remove_all class s')
  end.

(** [cleanOutputPath], lines 6-12. *)
Definition cleanOutputPath (output : string) : string :=
  if truthy output then remove_all is_reserved output else EmptyString.

(** [removeQuery], lines 19-25.  [split] never gives an empty array, so
    the element 0 is there. *)
Definition removeQuery (url : string) : string :=
  if truthy url then hd EmptyString (split "?" url) else EmptyString.

Record Dates := mkDates { year : string; month : string; day : string }.

(** [x || ''] for an array element that may be missing. *)
Definition or_empty (x : option string) : string :=
  match x with Some s => s | None => EmptyString end.

(** [splitDates], lines 32-44. *)
Definition splitDates (dateString : string) : Dates :=
  if truthy dateString then
    let dateSplits := split "-" dateString in
    {| year := or_empty (dateSplits !! 0%nat);
       month := or_empty (dateSplits !! 1%nat);
       day := or_empty (dateSplits !! 2%nat) |}
  else mkDates EmptyString EmptyString EmptyString.

End Filters.
(** ** util/get-songdata.js *)

Module SongData.
Import JsString Catalog.

(** [getID], lines 20-33: the text after the last slash. *)
Definition getID (url : string) : result string :=
  if truthy url then
    match last (split "/" url) with
    | Some id =>
        if truthy id then Returned id
        else Threw (mkError "Invalid Spotify URL format")
    | None => Threw (mkError "Invalid Spotify URL format")
    end
  else Threw (mkError "URL is required").

Section Limits.

Variable MAX_LIMIT_DEFAULT : nat.

(** [getTrack], lines 40-43: [tracks[0]], which is [undefined] when the
    provider knows no such track. *)
Definition getTrack (w : World) (fuel : nat) (url : string)
  : option (result (option Song)) :=
  match getID url with
  | Threw e => Some (Threw e)
  | Returned trackId =>
      match snd (extractTracks MAX_LIMIT_DEFAULT w fuel [trackId]) with
      | None => None
      | Some (Threw e) => Some (Threw e)
      | Some (Returned tracks) => Some (Returned (head tracks))
      end
  end.

(** [getAlbum], lines 50-52. *)
Definition getAlbum (w : World) (fuel : nat) (url : string)
  : option (result Listing) :=
  match getID url with
  | Threw e => Some (Threw e)
  | Returned albumId => extractAlbum MAX_LIMIT_DEFAULT w fuel albumId
  end.

(** The loop of lines 75-84 over the album ids. *)
Fixpoint album_loop (w : World) (fuel : nat) (artistName : string)
    (albumIds : list string) : option (result (list Listing)) :=
  match albumIds with
  | [] => Some (Returned [])
  | albumId :: rest =>
      match extractAlbum MAX_LIMIT_DEFAULT w fuel albumId with
      | None => None
      | Some (Threw e) => Some (Threw e)
      | Some (Returned albumInfo) =>
          let items :=
            map (fun item => set_artists item (artistName :: artists item))
                (listing_items albumInfo) in
          match album_loop w fuel artistName rest with
          | Some (Returned albumInfos) =>
              Some (Returned (mkListing (listing_name albumInfo) items :: albumInfos))
          | other => other
          end
      end
  end.

(** [getArtistAlbums], lines 68-87. *)
Definition getArtistAlbums (w : World) (fuel : nat) (url : string)
  : option (result (list Listing)) :=
  match getID url with
  | Threw e => Some (Threw e)
  | Returned artistId =>
      match extractArtist w artistId with
      | Threw e => Some (Threw e)
      | Returned artistResult =>
          match snd (extractArtistAlbums MAX_LIMIT_DEFAULT w fuel
                       (artist_id artistResult)) with
          | None => None
          | Some (Threw e) => Some (Threw e)
          | Some (Returned albumsResult) =>
              album_loop w fuel (artist_name artistResult) albumsResult
          end
      end
  end.

(** *** Vocabulary of the statements *)


End Limits.


End SongData.
(** ** The URL parser: the kind of content a URL stands for *)

Module UrlParser.
Import JsString.

(** The default export of the module, lines 7-43.  [None] stands for an
    argument that is not a string. *)
Definition urlParser (inputUrl : option string) : result string :=
  match inputUrl with
  | None => Threw (mkError "Invalid URL: URL must be a non-empty string")
  | Some inputUrl =>
      if truthy inputUrl then
        let urlLower := toLowerCase inputUrl in
        if includes urlLower "youtube" then Returned "youtube"
        else if includes urlLower "/track/" then Returned "song"
        else if includes urlLower "/playlist/" then Returned "playlist"
        else if includes urlLower "/album/" then Returned "album"
        else if includes urlLower "/artist/" then Returned "artist"
        else if includes urlLower "/show/" then Returned "show"
        else if includes urlLower "/episode/" then Returned "episode"
        else Threw (mkError "Invalid URL: Unsupported Spotify or YouTube URL format")
      else Threw (mkError "Invalid URL: URL must be a non-empty string")
  end.

(** *** Vocabulary of the statements *)

(** The markers the parser looks for, with the kind each stands for, in
    the order of the tests. *)
Definition markers : list (string * string) :=
  [("youtube", "youtube"); ("/track/", "song"); ("/playlist/", "playlist");
   ("/album/", "album"); ("/artist/", "artist"); ("/show/", "show");
   ("/episode/", "episode")].

(** No marker listed before position [k] occurs in [urlLower]. *)
Definition none_before (k : nat) (urlLower : string) : Prop :=
  Forall (fun m => includes urlLower (fst m) = false) (firstn k markers).

End UrlParser.

(** ** lib/subtitle-downloader.js *)

Module Subtitles.
Import JsString.

(** The lyrics provider: a search gives the songs found, or nothing; the
    lyrics of a song are fetched by a second request, which may give
    [null]. *)
Record World := {
  search : string -> result (option (list string));
  lyrics : string -> result (option string);
}.

Inductive Event :=
| EvSearch (searchTerm : string)
| EvLyrics (song : string).

(** [downloadSubtitles], lines 11-37. *)
Definition downloadSubtitles (w : World) (itemName artistName : string)
  : list Event * string :=
  if negb (truthy itemName) || negb (truthy artistName) then ([], EmptyString)
  else
    let searchTerm := (itemName ++ " - " ++ artistName)%string in
    match search w searchTerm with
    | Threw _ => ([EvSearch searchTerm], EmptyString)
    | Returned None | Returned (Some []) => ([EvSearch searchTerm], EmptyString)
    | Returned (Some (firstSong :: _)) =>
        match lyrics w firstSong with
        | Threw _ => ([EvSearch searchTerm; EvLyrics firstSong], EmptyString)
        | Returned None => ([EvSearch searchTerm; EvLyrics firstSong], EmptyString)
        | Returned (Some text) =>
            ([EvSearch searchTerm; EvLyrics firstSong],
             if truthy text then trim text else EmptyString)
        end
    end.

End Subtitles.
(** ** util/format-generators.js on formats written with care *)

Module Template.
Import JsString FormatGenerators.
Local Open Scope string_scope.

(** A format given by its parts: each piece is a text and the name of the
    placeholder that follows it; [tail] is the text after the last
    placeholder. *)
Fixpoint format_of (pieces : list (string * string)) (tail : string) : string :=
  match pieces with
  | [] => tail
  | (text, name) :: rest => text ++ "{" ++ name ++ "}" ++ format_of rest tail
  end.

(** The same parts with every placeholder replaced by its value. *)
Fixpoint rendering (value : string -> string) (pieces : list (string * string))
    (tail : string) : string :=
  match pieces with
  | [] => tail
  | (text, name) :: rest => text ++ value name ++ rendering value rest tail
  end.

(** The text holds no opening brace. *)
Definition brace_free (s : string) : Prop := has_char "{" s = false.

(** The value holds neither a dollar sign nor an opening brace. *)
Definition plain_value (s : string) : Prop :=
  has_char "$" s = false /\ has_char "{" s = false.

End Template.
(** ** The runner: what a run may call, and what it leaves in the list *)

Module RunnerTrace.
Import JsString Node Runner.

Definition event_index (e : Event) : nat :=
  match e with
  | EvLyrics index | EvResolve index | EvAcquire index _ _
  | EvTag index | EvRecord index => index
  end.

(** The positions the run recorded in the cache. *)
Fixpoint recordings (t : list Event) : list nat :=
  match t with
  | [] => []
  | EvRecord index :: t' => index :: recordings t'
  | _ :: t' => recordings t'
  end.

Section Run.
Variable itemOutputPath : string -> string -> string -> string.
Variable path_resolve : string -> string.
Variable downloadLyrics : bool.
Variable w : World.

(** The candidates of an item: its own link when it has one, what the
    search gives otherwise. *)
Definition links_of (index : nat) (item : Item) : list string :=
  if truthy (URL item) then [URL item] else getLinks w index item.

Definition output_of (item : Item) : string :=
  path_resolve (fullItemPath itemOutputPath item).

(** The call [e] is one the run may make for [item] at position [index]:
    lyrics only when asked for; a search only for an item without a link
    of its own; a download only with the candidates of the item, of which
    there is at least one, and to the path of the item; tags and the
    cache record only after a download that returned [true]. *)
Definition call_ok (index : nat) (item : Item) (e : Event) : Prop :=
  match e with
  | EvLyrics k => k = index /\ downloadLyrics = true
  | EvResolve k => k = index /\ truthy (URL item) = false
  | EvAcquire k ytLinks outputFilePath =>
      k = index /\ ytLinks = links_of index item /\ ytLinks <> [] /\
      outputFilePath = output_of item
  | EvTag k | EvRecord k =>
      k = index /\
      downloader w index (links_of index item) (output_of item) = Returned true
  end.

(** The same for a call of a run over a list, [at_] giving the item at a
    position. *)
Definition call_allowed (at_ : nat -> option Item) (e : Event) : Prop :=
  exists item, at_ (event_index e) = Some item /\ call_ok (event_index e) item e.

End Run.

(** What a run leaves of an item: the fields it was given, and either the
    mark [cached] or a verdict in [failed]. *)
Definition outcome (item item' : Item) : Prop :=
  id item' = id item /\ name item' = name item /\
  album_name item' = album_name item /\ artists item' = artists item /\
  URL item' = URL item /\
  ((cached item' = Some true /\ failed item' = failed item) \/
   (cached item' = cached item /\ exists b, failed item' = Some b)).


(** *** A list that names the same song twice *)

Definition halo : Item :=
  mkItem "4uLU6hMCjMI75M1A2tKUQC" "Halo" "I Am" ["Beyonce"] EmptyString None None None.

Definition same_song_twice : SongList := mkList "Mix" "playlist" [halo; halo].
End RunnerTrace.
(** ** The runner: the path of an item, [itemOutputPath] *)

Module OutputPath.
Import JsString Filters FormatGenerators.

(** [s.split(sep)] for a separator of one character or more.  [skip]
    counts the characters of the separator just found that are still to
    be passed over. *)
Fixpoint split_from (sep : string) (skip : nat) (s : string) : list string :=
  match s with
  | EmptyString => [EmptyString]
  | String c s' =>
      match skip with
      | S skip' => split_from sep skip' s'
      | 0 =>
          if startsWith s sep
          then EmptyString :: split_from sep (String.length sep - 1) s'
          else match split_from sep 0 s' with
               | piece :: pieces => String c piece :: pieces
               | [] => [String c EmptyString]
               end
      end
  end.

Definition split_on (sep s : string) : list string := split_from sep 0 s.

Section Options.
(** The options [output], [outputOnly], [outputFormat] and
    [outputFileType] of the command line, and [path.join] and
    [path.normalize] of Node. *)
Variable output : string.
Variable outputOnly : bool.
Variable outputFormat : string.
Variable outputFileType : string.
Variable path_join : string -> list string -> string.
Variable path_normalize : string -> string.

(** Lines 54-59: the segments handed to [path.join] after the output
    directory. *)
Definition pathSegments (itemName albumName artistName : string)
  : result (list string) :=
  let cleanedItemName :=
    cleanOutputPath (if truthy itemName then itemName else "_") in
  match generateTemplateString cleanedItemName albumName artistName outputFormat with
  | Threw e => Threw e
  | Returned generated =>
      let generatedPathSegments := split_on "___" (cleanOutputPath generated) in
      Returned (if outputOnly then [cleanedItemName] else generatedPathSegments)
  end.

(** [itemOutputPath], lines 53-62. *)
Definition itemOutputPath (itemName albumName artistName : string) : result string :=
  match pathSegments itemName albumName artistName with
  | Threw e => Threw e
  | Returned segments =>
      Returned (path_join (path_normalize output) segments
                ++ "." ++ outputFileType)%string
  end.

End Options.

(** The segment holds none of the characters [cleanOutputPath] removes;
    so it holds no slash, no backslash and no dot. *)
Definition clean_segment (segment : string) : Prop :=
  forall c, is_reserved c = true -> has_char c segment = false.

End OutputPath.
(** ** The runner: [processInput] and [run] *)

Module Session.
Import JsString Node Runner.

(** An input of the command line: [{ type, url }]. *)
Record Input := mkInput { type : string; url : string }.

(** A list as util/get-songdata.js returns it: [{ name, items }]. *)
Definition Named : Type := (string * list Item)%type.

(** The functions of util/get-songdata.js, asked for the input at a
    position of the command line.  [getTrack] and [getEpisode] give
    [undefined] when the provider has no such item. *)
Record Catalog := {
  getTrack : nat -> string -> result (option Item);
  getPlaylist : nat -> string -> result Named;
  getAlbum : nat -> string -> result Named;
  getArtistAlbums : nat -> string -> result (list Named);
  getEpisode : nat -> string -> result (option Item);
  getShowEpisodes : nat -> string -> result Named;
  getSavedShows : nat -> result (list Named);
  getSavedAlbums : nat -> result (list Named);
  getSavedPlaylists : nat -> result (list Named);
  getSavedTracks : nat -> result Named;
}.

(** The downloads made for list [k] of input [i]. *)
Definition Event : Type := (nat * nat * Runner.Event)%type.

Section Types.
(** [Constants.INPUT_TYPES]: [SONG.SONG], [SONG.PLAYLIST], [SONG.ALBUM],
    [SONG.ARTIST], [EPISODE.EPISODE], [EPISODE.SHOW],
    [EPISODE.SAVED_SHOWS], [SONG.SAVED_ALBUMS], [SONG.SAVED_PLAYLISTS],
    [SONG.SAVED_TRACKS] and [YOUTUBE]; util/constants.js is not among the
    sources. *)
Variables SONG PLAYLIST ALBUM ARTIST EPISODE SHOW : string.
Variables SAVED_SHOWS SAVED_ALBUMS SAVED_PLAYLISTS SAVED_TRACKS YOUTUBE : string.

Definition typed (type : string) (l : Named) : SongList :=
  mkList (fst l) type (snd l).

(** [`${x}`] for a string that may be [undefined]. *)
Definition shown (x : option string) : string :=
  match x with Some s => s | None => "undefined" end.

(** [processInput], lines 193-314: the failures it logs and the lists
    it returns.  Reading [name] of an [undefined] track throws. *)
Definition processInput (c : Catalog) (index : nat) (input : Input)
  : list string * result (list SongList) :=
  let URL := url input in
  if String.eqb (type input) SONG then
    match getTrack c index URL with
    | Threw e => ([], Threw e)
    | Returned None =>
        ([], Threw (mkError "Cannot read properties of undefined (reading 'name')"))
    | Returned (Some track) =>
        ([], Returned [mkList (name track ++ " - " ++ shown (head (artists track)))
                              (type input) [track]])
    end
  else if String.eqb (type input) PLAYLIST then
    match getPlaylist c index URL with
    | Threw e => ([], Threw e)
    | Returned l => ([], Returned [typed (type input) l])
    end
  else if String.eqb (type input) ALBUM then
    match getAlbum c index URL with
    | Threw e => ([], Threw e)
    | Returned l => ([], Returned [typed (type input) l])
    end
  else if String.eqb (type input) ARTIST then
    match getArtistAlbums c index URL with
    | Threw e => ([], Threw e)
    | Returned artistAlbumInfos => ([], Returned (map (typed (type input)) artistAlbumInfos))
    end
  else if String.eqb (type input) EPISODE then
    match getEpisode c index URL with
    | Threw e => ([], Threw e)
    | Returned None =>
        (["Failed to find episode. Authentication may be required."], Returned [])
    | Returned (Some episode) =>
        ([], Returned [mkList (name episode ++ " - " ++ album_name episode)
                              (type input) [episode]])
    end
  else if String.eqb (type input) SHOW then
    match getShowEpisodes c index URL with
    | Threw e => ([], Threw e)
    | Returned l => ([], Returned [typed (type input) l])
    end
  else if String.eqb (type input) SAVED_SHOWS then
    match getSavedShows c index with
    | Threw e => ([], Threw e)
    | Returned savedShowsInfo => ([], Returned (map (typed (type input)) savedShowsInfo))
    end
  else if String.eqb (type input) SAVED_ALBUMS then
    match getSavedAlbums c index with
    | Threw e => ([], Threw e)
    | Returned savedAlbumsInfo => ([], Returned (map (typed (type input)) savedAlbumsInfo))
    end
  else if String.eqb (type input) SAVED_PLAYLISTS then
    match getSavedPlaylists c index with
    | Threw e => ([], Threw e)
    | Returned savedPlaylistsInfo =>
        ([], Returned (map (typed (type input)) savedPlaylistsInfo))
    end
  else if String.eqb (type input) SAVED_TRACKS then
    match getSavedTracks c index with
    | Threw e => ([], Threw e)
    | Returned l => ([], Returned [typed (type input) l])
    end
  else if String.eqb (type input) YOUTUBE then
    ([], Returned [mkList "YouTube Download" (type input)
                          [mkItem URL URL "YouTube Download" ["YouTube"] URL
                                  None None None]])
  else
    ([], Threw (mkError ("Unsupported URL type: " ++ type input ++ ". "
                         ++ "Please visit the GitHub repository to request support for this type."))).

(** The options and the system of a run, as for [downloadList]; the
    collaborators of the downloads of list [k] of input [i] are
    [worlds i k]. *)
Variable itemOutputPath : string -> string -> string -> string.
Variable path_dirname : string -> string.
Variable path_resolve : string -> string.
Variable path_join : string -> string -> string.
Variable cacheFile : string.
Variable downloadLyrics : bool.
Variable downloadReport : bool.
Variable f : Faults.
Variable c : Catalog.
Variable worlds : nat -> nat -> World.

Definition tagged (i k : nat) (t : list Runner.Event) : list Event :=
  map (fun e => (i, k, e)) t.

Definition log_all (msgs : list string) (env : Env) : Env :=
  mkEnv (files env) (dirs env) (logged env ++ msgs).

(** The loop of lines 329-336 from list [k] of input [i] on: the results
    pushed, and the exception that ended the loop, if any. *)
Fixpoint download_lists (i k : nat) (lists : list SongList) (env : Env)
  : Env * list Event * list SongList * option Error :=
  match lists with
  | [] => (env, [], [], None)
  | songs :: rest =>
      match downloadList itemOutputPath path_dirname path_resolve path_join cacheFile
                         downloadLyrics f (worlds i k) songs env with
      | (env1, t, Threw e) => (env1, tagged i k t, [], Some e)
      | (env1, t, Returned downloadResult) =>
          let '(env2, t2, results, thrown) := download_lists i (S k) rest env1 in
          (env2, tagged i k t ++ t2,
           (if downloadReport then [downloadResult] else []) ++ results, thrown)
      end
  end.

(** One turn of the loop of lines 323-340. *)
Definition run_input (i : nat) (input : Input) (env : Env)
  : Env * list Event * list SongList :=
  match processInput c i input with
  | (msgs, Threw e) =>
      (log_all (msgs ++ [("Failed to process " ++ type input ++ ": "
                          ++ message e)%string]) env,
       [], [])
  | (msgs, Returned lists) =>
      match download_lists i 0 lists (log_all msgs env) with
      | (env1, t, results, Some e) =>
          (log_all [("Failed to process " ++ type input ++ ": "
                     ++ message e)%string] env1,
           t, results)
      | (env1, t, results, None) => (env1, t, results)
      end
  end.

Fixpoint run_inputs (i : nat) (inputs : list Input) (env : Env)
  : Env * list Event * list SongList :=
  match inputs with
  | [] => (env, [], [])
  | input :: rest =>
      let '(env1, t1, results1) := run_input i input env in
      let '(env2, t2, results2) := run_inputs (S i) rest env1 in
      (env2, t1 ++ t2, results1 ++ results2)
  end.

(** [run], lines 320-347: the disk it leaves, the downloads it made and
    the report, when one is asked for.  (The name [run] is taken by the
    notation of the monad.) *)
Definition run_all (inputs : list Input) (env : Env)
  : Env * list Event * option (list ReportEntry) :=
  let '(env', t, listResults) := run_inputs 0 inputs env in
  (env', t, if downloadReport then Some (generateReport listResults) else None).

(** *** Vocabulary of the statements *)

(** The type is none of those tested before [YOUTUBE]. *)
Definition youtube_only (type : string) : Prop :=
  type = YOUTUBE /\
  Forall (fun other => String.eqb type other = false)
         [SONG; PLAYLIST; ALBUM; ARTIST; EPISODE; SHOW; SAVED_SHOWS; SAVED_ALBUMS;
          SAVED_PLAYLISTS; SAVED_TRACKS].


End Types.


(** *** A sample session: the provider is out of reach *)

Definition offline : Catalog := {|
  getTrack _ _ := Threw (mkError "offline");
  getPlaylist _ _ := Threw (mkError "offline");
  getAlbum _ _ := Threw (mkError "offline");
  getArtistAlbums _ _ := Threw (mkError "offline");
  getEpisode _ _ := Threw (mkError "offline");
  getShowEpisodes _ _ := Threw (mkError "offline");
  getSavedShows _ := Threw (mkError "offline");
  getSavedAlbums _ := Threw (mkError "offline");
  getSavedPlaylists _ := Threw (mkError "offline");
  getSavedTracks _ := Threw (mkError "offline");
|}.

Definition sample_inputs : list Input :=
  [mkInput "song" "https://open.spotify.com/track/4uLU6hMCjMI75M1A2tKUQC";
   mkInput "youtube" "https://www.youtube.com/watch?v=abc"].

Definition sample_run (inputs : list Input) (env : Env)
  : Env * list Event * option (list ReportEntry) :=
  run_all "song" "playlist" "album" "artist" "episode" "show" "savedShows"
          "savedAlbums" "savedPlaylists" "savedTracks" "youtube"
          sample_path Cache.dirname_slash (fun p => p) Cache.join_slash
          ".spdlcache" false true no_faults offline (fun _ _ => eager_world)
          inputs env.
End Session.
(** ** lib/downloader.js: the cookies of [getYoutubeDLConfig] *)

Module Cookies.
Import JsString Node.

Definition TAB : ascii := "009"%char.
Definition tab : string := String TAB EmptyString.

(** The class [[\t ]]. *)
Definition is_blank (c : ascii) : bool := Ascii.eqb c TAB || Ascii.eqb c " "%char.

(** [line.split(/[\t ]+/)]: [in_run] says that the character before was a
    blank, so that a run of blanks separates once. *)
Fixpoint split_blanks (in_run : bool) (s : string) : list string :=
  match s with
  | EmptyString => [EmptyString]
  | String c s' =>
      if is_blank c then
        if in_run then split_blanks true s' else EmptyString :: split_blanks true s'
      else match split_blanks false s' with
           | piece :: pieces => String c piece :: pieces
           | [] => [String c EmptyString]
           end
  end.

(** The callback of [reduce], lines 122-128. *)
Definition add_cookie (cookie line : string) : string :=
  let segments := split_blanks false line in
  if Nat.eqb (length segments) 7
  then (cookie ++ nth 5 segments EmptyString ++ "=" ++ nth 6 segments EmptyString
        ++ "; ")%string
  else cookie.

(** Lines 119-129: the header made of the text of the cookie file. *)
Definition cookieFileContents (text : string) : string :=
  trim (fold_left add_cookie (split LF text) EmptyString).

(** [getYoutubeDLConfig], lines 111-143: the [Cookie] header added to the
    configuration, or [None] when the configuration is left as it is. *)
Definition getYoutubeDLConfig (f : Faults) (cookieFile : string) : M (option string) :=
  let* present := existsSync cookieFile in
  if negb present then ret None
  else
    try_catch
      (let* text := readFileSync f cookieFile in
       ret (Some (cookieFileContents text)))
      (fun error =>
         run logInfo ("Failed to read cookie file: " ++ message error) then ret None).

(** *** Vocabulary of the statements *)

(** A text without white space. *)
Definition solid (s : string) : Prop :=
  forall c, is_space c = true -> has_char c s = false.

(** The fields of a line of the file: those of an empty line, or fields
    that are not empty and hold no white space. *)
Definition fields_ok (fields : list string) : Prop :=
  fields = [EmptyString] \/
  (fields <> [] /\ Forall (fun x => truthy x = true /\ solid x) fields).

Definition has_seven (fields : list string) : bool := Nat.eqb (length fields) 7.

(** [name=value;] of a line of seven fields. *)
Definition cookie_pair (fields : list string) : string :=
  (nth 5 fields EmptyString ++ "=" ++ nth 6 fields EmptyString ++ ";")%string.

(** The text of a file with these lines. *)
Definition file_of (records : list (list string)) : string :=
  join nl (map (join tab) records).

(** The pairs with a space after each, as the reduction leaves them. *)
Fixpoint spaced (pairs : list string) : string :=
  match pairs with
  | [] => EmptyString
  | p :: ps => (p ++ " " ++ spaced ps)%string
  end.

End Cookies.
(** * Verification *)

Module JsStringProofs.
Import JsString.
Local Open Scope string_scope.

Lemma append_cons c s t : String c s ++ t = String c (s ++ t).
Proof. reflexivity. Qed.

Lemma append_nil_r s : s ++ EmptyString = s.
Proof. induction s as [|c s IH]; [reflexivity|]. now rewrite append_cons, IH. Qed.

Lemma append_assoc s t u : (s ++ t) ++ u = s ++ t ++ u.
Proof.
  induction s as [|c s IH]; [reflexivity|]. now rewrite !append_cons, IH.
Qed.

Lemma occurs_in_refl s : occurs_in s s.
Proof. exists EmptyString, EmptyString. now rewrite append_nil_r. Qed.

Lemma occurs_in_app_l sub a s : occurs_in sub s -> occurs_in sub (a ++ s).
Proof.
  intros (b & c & ->). exists (a ++ b), c. now rewrite append_assoc.
Qed.

Lemma occurs_in_app_r sub s a : occurs_in sub s -> occurs_in sub (s ++ a).
Proof.
  intros (b & c & ->). exists b, (c ++ a). now rewrite !append_assoc.
Qed.

Lemma join_occurs sep l c : In c l -> occurs_in c (join sep l).
Proof.
  induction l as [|x l IH]; [intros []|].
  intros [->|Hc].
  - destruct l; [apply occurs_in_refl|].
    change (occurs_in c (c ++ sep ++ join sep (s :: l))).
    apply occurs_in_app_r, occurs_in_refl.
  - destruct l as [|y l]; [destruct Hc|].
    change (join sep (x :: y :: l)) with (x ++ sep ++ join sep (y :: l)).
    now apply occurs_in_app_l, occurs_in_app_l, IH.
Qed.


Lemma startsWith_app pat s : startsWith (pat ++ s) pat = true.
Proof.
  unfold startsWith. induction pat as [|c pat IH]; simpl.
  - now destruct s.
  - rewrite ?append_cons; simpl. destruct (ascii_dec c c); [exact IH | congruence].
Qed.

Lemma drop_app pat s : drop (String.length pat) (pat ++ s) = s.
Proof. induction pat as [|c pat IH]; simpl; [now destruct s | exact IH]. Qed.

Lemma cut_at_first_unfold pat s :
  cut_at_first pat s
  = if startsWith s pat then Some (EmptyString, drop (String.length pat) s)
    else match s with
         | EmptyString => None
         | String c s' =>
             match cut_at_first pat s' with
             | Some (before, after) => Some (String c before, after)
             | None => None
             end
         end.
Proof. destruct s; reflexivity. Qed.

Lemma cut_at_first_prefix pat s :
  cut_at_first pat (pat ++ s) = Some (EmptyString, s).
Proof.
  rewrite cut_at_first_unfold, startsWith_app, drop_app. reflexivity.
Qed.

Lemma replace_prefix pat s : replace (pat ++ s) pat EmptyString = s.
Proof. unfold replace. now rewrite cut_at_first_prefix. Qed.

Lemma has_char_app c a b : has_char c (a ++ b) = has_char c a || has_char c b.
Proof.
  induction a as [|d a IH]; simpl; [reflexivity|].
  rewrite ?append_cons; simpl. simpl. now rewrite IH, orb_assoc.
Qed.

Lemma split_nonempty sep s : split sep s <> [].
Proof.
  destruct s as [|c s]; simpl; [discriminate|].
  destruct (Ascii.eqb c sep); [discriminate|].
  destruct (split sep s); discriminate.
Qed.

Lemma split_no_sep sep s : has_char sep s = false -> split sep s = [s].
Proof.
  induction s as [|c s IH]; simpl; [reflexivity|].
  intros H. apply orb_false_iff in H. destruct H as [Hc Hs].
  rewrite Hc, (IH Hs). reflexivity.
Qed.

Lemma split_app_sep sep a b :
  split sep (a ++ String sep b) = (split sep a ++ split sep b)%list.
Proof.
  induction a as [|c a IH].
  - simpl. now rewrite Ascii.eqb_refl.
  - rewrite ?append_cons; simpl. simpl. destruct (Ascii.eqb c sep).
    + now rewrite IH.
    + rewrite IH. destruct (split sep a) as [|p ps] eqn:E.
      * now apply split_nonempty in E.
      * reflexivity.
Qed.

End JsStringProofs.

Module MergerProofs.
Import Merger.
Local Open Scope Q_scope.

Lemma Qgtb_true a b : Qgtb a b = true <-> b < a.
Proof.
  unfold Qgtb. rewrite (Qgt_alt a b).
  destruct (a ?= b); split; congruence.
Qed.

Lemma Qgtb_false a b : Qgtb a b = false <-> a <= b.
Proof.
  split; intros H.
  - apply Qnot_lt_le. intros Hlt. apply Qgtb_true in Hlt. congruence.
  - destruct (Qgtb a b) eqn:E; [|reflexivity].
    apply Qgtb_true in E. lra.
Qed.

Lemma js_max_cases a b :
  (a <= b /\ js_max a b = b) \/ (b < a /\ js_max a b = a).
Proof.
  unfold js_max. destruct (Qle_bool a b) eqn:E.
  - left. split; [now apply Qle_bool_iff | reflexivity].
  - right. split; [|reflexivity].
    apply Qnot_le_lt. intros Hle. apply Qle_bool_iff in Hle. congruence.
Qed.

(** *** The sort *)

Lemma sort_insert_In {A} (cmp : A -> A -> Q) x l s :
  In s (sort_insert cmp x l) <-> s = x \/ In s l.
Proof.
  induction l as [|y l IH]; simpl.
  - intuition.
  - destruct (Qle_bool (cmp x y) 0); simpl; [intuition|].
    rewrite IH. intuition.
Qed.

Lemma js_sort_In {A} (cmp : A -> A -> Q) l s :
  In s (js_sort cmp l) <-> In s l.
Proof.
  induction l as [|y l IH]; simpl; [tauto|].
  rewrite sort_insert_In, IH. intuition.
Qed.

Lemma sort_insert_sorted x l :
  start_sorted l -> start_sorted (sort_insert by_start x l).
Proof.
  induction 1 as [|y l Hy Hs IH]; simpl.
  - constructor; constructor.
  - destruct (Qle_bool (by_start x y) 0) eqn:E.
    + apply Qle_bool_iff in E. unfold by_start in E.
      constructor; [|constructor; assumption].
      constructor; [lra|].
      eapply List.Forall_impl; [|exact Hy]. simpl. intros t Ht. lra.
    + assert (Hlt : startTime y < startTime x).
      { apply Qnot_le_lt. intros Hle.
        assert (Qle_bool (by_start x y) 0 = true) as E'
            by (apply Qle_bool_iff; unfold by_start; lra).
        congruence. }
      constructor; [|exact IH].
      apply List.Forall_forall. intros t Ht.
      apply sort_insert_In in Ht. destruct Ht as [->|Ht]; [lra|].
      rewrite List.Forall_forall in Hy. now apply Hy.
Qed.

Lemma js_sort_sorted l : start_sorted (js_sort by_start l).
Proof.
  induction l as [|x l IH]; simpl; [constructor|].
  now apply sort_insert_sorted.
Qed.

(** *** The reducer, seen from the end of the accumulator *)

Lemma last_rev_cons {A} (x : A) l : last (rev (x :: l)) = Some x.
Proof. simpl. apply last_snoc. Qed.

Lemma merge_step_rev_eq racc cur :
  merge_step (rev racc) cur = rev (merge_step_rev racc cur).
Proof.
  unfold merge_step, merge_step_rev, set_last_end.
  destruct racc as [|prev older].
  - reflexivity.
  - rewrite last_rev_cons.
    destruct (Qgtb (endTime prev) (startTime cur)); simpl.
    + now rewrite removelast_last.
    + reflexivity.
Qed.

Lemma fold_merge_rev l racc :
  fold_left merge_step l (rev racc) = rev (fold_left merge_step_rev l racc).
Proof.
  revert racc. induction l as [|c l IH]; intros racc; simpl; [reflexivity|].
  now rewrite merge_step_rev_eq, IH.
Qed.


(** *** Coverage *)

Lemma covered_nil x : covered [] x <-> False.
Proof. split; [intros (s & [] & _) | tauto]. Qed.

Lemma covered_cons s l x : covered (s :: l) x <-> inside x s \/ covered l x.
Proof.
  unfold covered; split.
  - intros (t & [<-|Ht] & Hx); [now left | right; eauto].
  - intros [Hx | (t & Ht & Hx)]; [exists s | exists t]; simpl; auto.
Qed.

Lemma covered_rev l x : covered (rev l) x <-> covered l x.
Proof.
  unfold covered; split; intros (s & Hs & Hx); exists s; split; auto.
  - now apply in_rev.
  - now apply in_rev in Hs.
Qed.

(** Merging an interval into an overlapping predecessor loses no point and
    adds none. *)
Lemma inside_extend prev cur x :
  startTime prev <= startTime cur -> startTime cur < endTime prev ->
  startTime cur < endTime cur ->
  inside x (mkSegment (startTime prev) (js_max (endTime cur) (endTime prev)))
  <-> inside x prev \/ inside x cur.
Proof.
  intros H1 H2 H3. unfold inside; simpl.
  destruct (js_max_cases (endTime cur) (endTime prev)) as [[Hm ->]|[Hm ->]].
  - split; [intros [? ?]; left; split; lra | intros [[? ?]|[? ?]]; split; lra].
  - split.
    + intros [Ha Hb].
      destruct (Qlt_le_dec (endTime prev) x); [right | left]; split; lra.
    + intros [[? ?]|[? ?]]; split; lra.
Qed.

(** *** The invariant of the reduction *)

Lemma rsep_ends_before p older t :
  rsep (p :: older) -> Forall well_formed (p :: older) ->
  endTime p <= startTime t ->
  Forall (fun o => endTime o <= startTime t) (p :: older).
Proof.
  intros Hs Hw Hp. inversion Hs as [|? ? Ho _]; subst.
  inversion Hw as [|? ? Hwp _]; subst. unfold well_formed in Hwp.
  constructor; [exact Hp|].
  eapply List.Forall_impl; [|exact Ho]. simpl. intros o Hle. lra.
Qed.

Lemma merge_rev_invariant rest : forall racc,
  start_sorted rest -> Forall well_formed rest ->
  rsep racc -> Forall well_formed racc ->
  Forall (fun o => Forall (fun r => startTime o <= startTime r) rest) racc ->
  rsep (fold_left merge_step_rev rest racc) /\
  Forall well_formed (fold_left merge_step_rev rest racc) /\
  forall x, covered (fold_left merge_step_rev rest racc) x
            <-> covered racc x \/ covered rest x.
Proof.
  induction rest as [|cur rest IH]; intros racc Hsorted Hwr Hsep Hwa Hle; simpl.
  - split; [exact Hsep|]. split; [exact Hwa|].
    intros x. rewrite covered_nil. tauto.
  - inversion Hsorted as [|? ? Hcur Hsorted']; subst.
    inversion Hwr as [|? ? Hwc Hwr']; subst. unfold well_formed in Hwc.
    assert (Hle' : Forall (fun o => Forall (fun r => startTime o <= startTime r) rest) racc).
    { eapply List.Forall_impl; [|exact Hle]. simpl. intros o Ho.
      now inversion Ho. }
    destruct racc as [|prev older]; simpl.
    + assert (H1 : rsep [mkSegment (startTime cur) (endTime cur)])
        by repeat constructor.
      assert (H2 : Forall well_formed [mkSegment (startTime cur) (endTime cur)])
        by (repeat constructor; exact Hwc).
      assert (H3 : Forall (fun o => Forall (fun r => startTime o <= startTime r) rest)
                     [mkSegment (startTime cur) (endTime cur)])
        by (repeat constructor; exact Hcur).
      destruct (IH _ Hsorted' Hwr' H1 H2 H3) as (A & B & C).
      split; [exact A|]. split; [exact B|].
      intros x. rewrite C, !covered_cons, !covered_nil.
      unfold inside; simpl. tauto.
    + inversion Hle as [|? ? Hp Holder]; subst.
      inversion Hp as [|? ? Hpc Hprest]; subst.
      inversion Hle' as [|? ? Hp' Holder']; subst.
      inversion Hwa as [|? ? Hwp Hwo]; subst. unfold well_formed in Hwp.
      inversion Hsep as [|? ? Hso Hsep']; subst.
      destruct (Qgtb (endTime prev) (startTime cur)) eqn:E.
      * apply Qgtb_true in E.
        assert (H1 : rsep (mkSegment (startTime prev)
                             (js_max (endTime cur) (endTime prev)) :: older))
          by (constructor; assumption).
        assert (H2 : Forall well_formed
                       (mkSegment (startTime prev)
                          (js_max (endTime cur) (endTime prev)) :: older)).
        { constructor; [|assumption]. unfold well_formed; simpl.
          destruct (js_max_cases (endTime cur) (endTime prev)) as [[? ->]|[? ->]]; lra. }
        assert (H3 : Forall (fun o => Forall (fun r => startTime o <= startTime r) rest)
                       (mkSegment (startTime prev)
                          (js_max (endTime cur) (endTime prev)) :: older))
          by (constructor; assumption).
        destruct (IH _ Hsorted' Hwr' H1 H2 H3) as (A & B & C).
        split; [exact A|]. split; [exact B|]. intros x.
        rewrite C, !covered_cons, inside_extend by lra. tauto.
      * apply Qgtb_false in E.
        assert (H1 : rsep (mkSegment (startTime cur) (endTime cur) :: prev :: older)).
        { constructor; [|assumption].
          apply (rsep_ends_before prev older (mkSegment (startTime cur) (endTime cur)));
            assumption. }
        assert (H2 : Forall well_formed
                       (mkSegment (startTime cur) (endTime cur) :: prev :: older))
          by (constructor; assumption).
        assert (H3 : Forall (fun o => Forall (fun r => startTime o <= startTime r) rest)
                       (mkSegment (startTime cur) (endTime cur) :: prev :: older))
          by (constructor; assumption).
        destruct (IH _ Hsorted' Hwr' H1 H2 H3) as (A & B & C).
        split; [exact A|]. split; [exact B|]. intros x.
        rewrite C, !covered_cons. unfold inside; simpl. tauto.
Qed.

Lemma separated_snoc l p :
  separated l -> Forall (fun o => endTime o <= startTime p) l ->
  separated (l ++ [p]).
Proof.
  induction 1 as [|s l Hs Hl IH]; intros Hp; simpl.
  - repeat constructor.
  - inversion Hp as [|? ? Hsp Hlp]; subst.
    constructor; [|now apply IH].
    apply List.Forall_app. split; [exact Hs | repeat constructor; exact Hsp].
Qed.

Lemma rsep_separated racc : rsep racc -> separated (rev racc).
Proof.
  induction 1 as [|p older Ho Hs IH]; simpl; [constructor|].
  apply separated_snoc; [exact IH | now apply List.Forall_rev].
Qed.

Lemma separated_ascending l :
  separated l -> Forall well_formed l -> ascending l.
Proof.
  induction 1 as [|s l Hs Hl IH]; intros Hw; [constructor|].
  inversion Hw as [|? ? Hws Hwl]; subst. unfold well_formed in Hws.
  constructor; [|now apply IH].
  eapply List.Forall_impl; [|exact Hs]. simpl. intros t Ht. lra.
Qed.
(** *** Results *)

Example merge_segments_spec_example :
  merge_segments [mkSegment 10 20; mkSegment 15 25; mkSegment 40 50]
  = [mkSegment 10 25; mkSegment 40 50].
Proof. reflexivity. Qed.

Example merge_segments_nested :
  merge_segments [mkSegment 12 14; mkSegment 10 20] = [mkSegment 10 20].
Proof. reflexivity. Qed.

(** Two intervals that touch stay two. *)
Example merge_segments_touching :
  merge_segments [mkSegment 20 30; mkSegment 10 20] = [mkSegment 10 20; mkSegment 20 30].
Proof. reflexivity. Qed.

(** C1, as the code has it: for every list of intervals with
    [start < end], the merged list is strictly ascending by start, no
    interval overlaps a later one (each ends no later than the later one
    starts; touching intervals stay two), and a point lies in a merged
    interval exactly when it lies in an input interval. *)
Theorem merge_segments_sorted_disjoint_cover (segments : list Segment) :
  Forall well_formed segments ->
  ascending (merge_segments segments) /\
  separated (merge_segments segments) /\
  Forall well_formed (merge_segments segments) /\
  forall x, covered (merge_segments segments) x <-> covered segments x.
Proof.
  intros Hw. unfold merge_segments.
  change (@nil Segment) with (rev (@nil Segment)) at 1 2 3 4.
  rewrite fold_merge_rev.
  assert (Hw' : Forall well_formed (js_sort by_start segments)).
  { apply List.Forall_forall. intros s Hs. apply js_sort_In in Hs.
    rewrite List.Forall_forall in Hw. now apply Hw. }
  destruct (merge_rev_invariant (js_sort by_start segments) []
              (js_sort_sorted segments) Hw' rsep_nil (List.Forall_nil _)
              (List.Forall_nil _)) as (A & B & C).
  assert (S : separated (rev (fold_left merge_step_rev (js_sort by_start segments) [])))
    by now apply rsep_separated.
  assert (W : Forall well_formed
                (rev (fold_left merge_step_rev (js_sort by_start segments) [])))
    by now apply List.Forall_rev.
  split; [now apply separated_ascending|].
  split; [exact S|]. split; [exact W|].
  intros x. rewrite covered_rev, C, covered_nil.
  unfold covered. split.
  - intros [[]|(s & Hs & Hx)]. exists s. split; [now apply js_sort_In in Hs | exact Hx].
  - intros (s & Hs & Hx). right. exists s. split; [now apply js_sort_In | exact Hx].
Qed.

Lemma merge_segments_sorted_disjoint_cover_witness :
  Forall well_formed [mkSegment 10 20; mkSegment 15 25; mkSegment 40 50] /\
  separated (merge_segments [mkSegment 10 20; mkSegment 15 25; mkSegment 40 50]).
Proof.
  assert (H : Forall well_formed [mkSegment 10 20; mkSegment 15 25; mkSegment 40 50])
    by (repeat constructor).
  split; [exact H|].
  exact (proj1 (proj2 (merge_segments_sorted_disjoint_cover _ H))).
Defined.

(** C1 as stated fails: two intervals that touch are not coalesced,
    because the reducer merges only when [previous.endTime > startTime]. *)
Lemma merge_segments_keeps_touching :
  ~ (forall segments, Forall well_formed segments ->
       ascending (merge_segments segments) /\
       apart (merge_segments segments) /\
       forall x, covered (merge_segments segments) x <-> covered segments x).
Proof.
  intros H.
  destruct (H [mkSegment 10 20; mkSegment 20 30]) as (_ & Hapart & _).
  - repeat constructor.
  - change (merge_segments [mkSegment 10 20; mkSegment 20 30])
      with [mkSegment 10 20; mkSegment 20 30] in Hapart.
    inversion Hapart as [|? ? Hgap _]; subst.
    inversion Hgap as [|? ? Hlt _]; subst.
    simpl in Hlt. revert Hlt. compute. discriminate.
Qed.

End MergerProofs.


Module DownloaderProofs.
Import Merger Downloader.

Lemma transcode_events_app t1 t2 :
  transcode_events (t1 ++ t2) = transcode_events t1 ++ transcode_events t2.
Proof.
  induction t1 as [|e t1 IH]; simpl; [reflexivity|].
  destruct e; simpl; now rewrite IH.
Qed.

(** Computing the filter never calls the transcoder, and throws only on a
    link that [new URL] rejects. *)
Lemma sponsorComplexFilter_parses w n link :
  parses w link ->
  exists t, sponsorComplexFilter w n link = (t, Returned (plan w n link))
            /\ transcode_events t = [].
Proof.
  unfold parses, plan, sponsorComplexFilter. intros Hp.
  destruct (parseUrl w link) as [|[v|]]; [congruence| |].
  - destruct (JsString.truthy v).
    + destruct (getSegments w n v); eexists; split; reflexivity.
    + eexists; split; reflexivity.
  - eexists; split; reflexivity.
Qed.

Lemma sponsorComplexFilter_invalid w n link :
  parseUrl w link = InvalidUrl ->
  is_returned (snd (sponsorComplexFilter w n link)) = false.
Proof. unfold sponsorComplexFilter. now intros ->. Qed.





Example downloader_third_candidate :
  downloader sample_world sample_links
  = ([EvSegments 0 "a";
      EvTranscode 0 "https://youtube.com/watch?v=a" None;
      EvSegments 1 "b";
      EvTranscode 1 "https://youtube.com/watch?v=b" None;
      EvSegments 2 "c";
      EvTranscode 2 "https://youtube.com/watch?v=c"
        (Some [Trim 0 0 10; Trim 1 25 40; TrimFrom 2 50; Concat 3])],
     Returned true).
Proof. reflexivity. Qed.


(** Outside the claim's domain: a candidate that [new URL] rejects makes
    [sponsorComplexFilter] throw before its [try], and the loop has no
    handler around that call. *)
Example downloader_invalid_url :
  downloader sample_world ["youtube"] = ([], Threw (mkError "Invalid URL")).
Proof. reflexivity. Qed.

End DownloaderProofs.


Module SpotifyApiProofs.
Import SpotifyApi.

Section Gate.
Context {A : Type}.
Variable TIMEOUT_RETRY : N.
Variable w : World A.

Let attempts := SpotifyApi.attempts TIMEOUT_RETRY w.
Let pause := (TIMEOUT_RETRY * 1000)%N.

Lemma calls_app t1 t2 : calls (t1 ++ t2) = calls t1 ++ calls t2.
Proof.
  induction t1 as [|e t1 IH]; simpl; [reflexivity|].
  destruct e; simpl; now rewrite IH.
Qed.

Lemma waits_app t1 t2 : waits (t1 ++ t2) = waits t1 ++ waits t2.
Proof.
  induction t1 as [|e t1 IH]; simpl; [reflexivity|].
  destruct e; simpl; now rewrite IH.
Qed.

Lemma attempts_gated remaining : forall tries lastError,
  gated (fst (attempts remaining tries lastError)) = true.
Proof.
  unfold attempts.
  induction remaining as [|r IH]; intros tries lastError; simpl; [reflexivity|].
  destruct (verifyCredentials w tries); [|reflexivity].
  destruct (apiCall w tries) as [v|error].
  - simpl. now rewrite Nat.eqb_refl.
  - specialize (IH (S tries) (Some error)).
    destruct (SpotifyApi.attempts TIMEOUT_RETRY w r (S tries) (Some error)) as [t res].
    simpl in *. rewrite Nat.eqb_refl. simpl.
    destruct (Nat.ltb tries maxRetries); simpl; exact IH.
Qed.

Lemma attempts_success k v remaining : forall tries lastError,
  credentials_ok w ->
  tries <= k -> k < tries + remaining -> k <= maxRetries ->
  (forall j, tries <= j < k -> call_fails w j) ->
  apiCall w k = Returned v ->
  snd (attempts remaining tries lastError) = Returned v /\
  calls (fst (attempts remaining tries lastError)) = seq tries (S k - tries) /\
  waits (fst (attempts remaining tries lastError)) = repeat pause (k - tries).
Proof.
  unfold attempts, pause.
  induction remaining as [|r IH]; intros tries lastError Hok Hle Hlt Hmax Hfail Hk;
    [lia|]. simpl.
  specialize (Hok tries) as Hv.
  destruct (verifyCredentials w tries); [clear Hv | discriminate].
  destruct (Nat.eq_dec tries k) as [->|Hne].
  - rewrite Hk. simpl. replace (S k - k) with 1 by lia.
    replace (k - k) with 0 by lia. auto.
  - assert (Hf : call_fails w tries) by (apply Hfail; lia).
    unfold call_fails in Hf.
    destruct (apiCall w tries) as [|error]; [discriminate|].
    destruct (IH (S tries) (Some error)) as (R & C & W); auto; try lia.
    { intros j Hj. apply Hfail. lia. }
    destruct (SpotifyApi.attempts TIMEOUT_RETRY w r (S tries) (Some error)) as [t res].
    assert (Hltb : Nat.ltb tries maxRetries = true) by (apply Nat.ltb_lt; lia).
    rewrite Hltb. simpl in *. split; [exact R|]. rewrite C, W.
    replace (S k - tries) with (S (k - tries)) by lia.
    replace (k - tries) with (S (k - S tries)) by lia.
    simpl. split; reflexivity.
Qed.

Lemma attempts_exhausted remaining : forall tries lastError,
  credentials_ok w ->
  tries + remaining = S maxRetries ->
  (forall j, tries <= j <= maxRetries -> call_fails w j) ->
  snd (attempts remaining tries lastError)
  = Threw (mkError
             ("Spotify API failed after 5 retries: "
              ++ match remaining with
                 | 0 => match lastError with
                        | Some e => message e
                        | None => "undefined"
                        end
                 | _ => error_message_at w maxRetries
                 end)) /\
  calls (fst (attempts remaining tries lastError)) = seq tries remaining /\
  waits (fst (attempts remaining tries lastError)) = repeat pause (remaining - 1).
Proof.
  unfold attempts, pause.
  induction remaining as [|r IH]; intros tries lastError Hok Hsum Hfail.
  - simpl. auto.
  - simpl. specialize (Hok tries) as Hv.
    destruct (verifyCredentials w tries); [clear Hv | discriminate].
    assert (Hf : call_fails w tries) by (apply Hfail; lia).
    unfold call_fails in Hf.
    destruct (apiCall w tries) as [|error] eqn:E; [discriminate|].
    destruct (IH (S tries) (Some error)) as (R & C & W); auto; try lia.
    { intros j Hj. apply Hfail. lia. }
    destruct (SpotifyApi.attempts TIMEOUT_RETRY w r (S tries) (Some error)) as [t res].
    destruct r as [|r'].
    + assert (tries = maxRetries) as Ht by lia.
      assert (Hltb : Nat.ltb tries maxRetries = false) by (apply Nat.ltb_ge; lia).
      rewrite Hltb. simpl in *. subst res. rewrite C, W.
      unfold error_message_at. rewrite <- Ht, E. auto.
    + assert (Hltb : Nat.ltb tries maxRetries = true) by (apply Nat.ltb_lt; lia).
      rewrite Hltb. simpl in *. subst res. rewrite C, W.
      rewrite Nat.sub_0_r. auto.
Qed.

End Gate.

(** C3: every call of the wrapped function comes directly after a
    credential check; with the checks passing, a call that fails on
    attempts [1 .. k-1] and succeeds on attempt [k <= 5] returns that value
    after exactly [k] calls and [k - 1] waits of [TIMEOUT_RETRY * 1000] ms
    each (so 4 waits for a success on the fifth attempt); a call that
    fails on all 5 attempts is called 5 times with 4 such waits and then
    throws [Spotify API failed after 5 retries: <message of the fifth
    error>]. *)
Theorem callSpotifyApi_retries {A} (TIMEOUT_RETRY : N) (w : World A) :
  credentials_ok w ->
  gated (fst (callSpotifyApi TIMEOUT_RETRY w)) = true /\
  (forall k v,
      1 <= k <= 5 ->
      (forall j, 1 <= j < k -> call_fails w j) ->
      apiCall w k = Returned v ->
      snd (callSpotifyApi TIMEOUT_RETRY w) = Returned v /\
      calls (fst (callSpotifyApi TIMEOUT_RETRY w)) = seq 1 k /\
      waits (fst (callSpotifyApi TIMEOUT_RETRY w))
      = repeat (TIMEOUT_RETRY * 1000)%N (k - 1)) /\
  ((forall j, 1 <= j <= 5 -> call_fails w j) ->
   snd (callSpotifyApi TIMEOUT_RETRY w)
   = Threw (mkError ("Spotify API failed after 5 retries: "
                     ++ error_message_at w 5)) /\
   calls (fst (callSpotifyApi TIMEOUT_RETRY w)) = [1; 2; 3; 4; 5] /\
   waits (fst (callSpotifyApi TIMEOUT_RETRY w)) = repeat (TIMEOUT_RETRY * 1000)%N 4).
Proof.
  intros Hok. unfold callSpotifyApi. split; [apply attempts_gated|]. split.
  - intros k v Hk Hfail Hv.
    destruct (attempts_success TIMEOUT_RETRY w k v maxRetries 1 None)
      as (R & C & W); auto; try (unfold maxRetries; lia).
    rewrite R, C, W. replace (S k - 1) with k by lia. auto.
  - intros Hfail.
    destruct (attempts_exhausted TIMEOUT_RETRY w maxRetries 1 None)
      as (R & C & W); auto.
Qed.

Example callSpotifyApi_fifth_attempt :
  callSpotifyApi 30 fifth_time_lucky
  = ([EvVerify 1; EvCall 1; EvLog 1 "429 Too Many Requests"; EvWait 30000%N;
      EvVerify 2; EvCall 2; EvLog 2 "429 Too Many Requests"; EvWait 30000%N;
      EvVerify 3; EvCall 3; EvLog 3 "429 Too Many Requests"; EvWait 30000%N;
      EvVerify 4; EvCall 4; EvLog 4 "429 Too Many Requests"; EvWait 30000%N;
      EvVerify 5; EvCall 5],
     Returned "tracks").
Proof. reflexivity. Qed.

Example callSpotifyApi_gives_up :
  snd (callSpotifyApi 30 always_limited)
  = Threw (mkError "Spotify API failed after 5 retries: 429 Too Many Requests")
  /\ waits (fst (callSpotifyApi 30 always_limited)) = [30000; 30000; 30000; 30000]%N.
Proof. split; reflexivity. Qed.

Lemma callSpotifyApi_retries_witness :
  credentials_ok fifth_time_lucky /\
  gated (fst (callSpotifyApi 30 fifth_time_lucky)) = true.
Proof.
  assert (H : credentials_ok fifth_time_lucky) by (intros n; reflexivity).
  split; [exact H|].
  exact (proj1 (callSpotifyApi_retries 30 fifth_time_lucky H)).
Defined.

End SpotifyApiProofs.


Module FormatGeneratorsProofs.
Import JsString JsStringProofs FormatGenerators.
Local Open Scope string_scope.

Example match_contexts_two :
  match_contexts "{itemName} - {albumName}" = ["itemName"; "albumName"].
Proof. reflexivity. Qed.

Example match_contexts_edge :
  match_contexts "{}" = [] /\ match_contexts "{}}" = ["}"] /\
  match_contexts "{{a}" = ["{a"] /\ match_contexts "a{b" = [].
Proof. repeat split; reflexivity. Qed.

Example generateTemplateString_spec_example :
  generateTemplateString "A" "B" "C" "{itemName} - {albumName}" = Returned "A - B".
Proof. reflexivity. Qed.

Example generateTemplateString_unknown :
  generateTemplateString "A" "B" "C" "{itemName} {foo}"
  = Threw (mkError "Invalid template contexts: foo. Valid contexts are: itemName, albumName, artistName").
Proof. reflexivity. Qed.


(** The part of C8 that holds: a format with a placeholder outside the
    fixed set always throws, and the message contains every such
    placeholder. *)
Lemma generateTemplateString_names_unknown itemName albumName artistName format c :
  In c (match_contexts format) ->
  array_includes VALID_CONTEXTS c = false ->
  exists msg,
    generateTemplateString itemName albumName artistName format = Threw (mkError msg)
    /\ occurs_in c msg.
Proof.
  intros Hc Hinvalid. unfold generateTemplateString.
  destruct format as [|f0 format]; [destruct Hc|].
  simpl truthy. simpl negb. cbv iota.
  assert (Hin : In c (List.filter (fun context => negb (array_includes VALID_CONTEXTS context))
                        (match_contexts (String f0 format)))).
  { apply List.filter_In. split; [exact Hc | now rewrite Hinvalid]. }
  destruct (match_contexts (String f0 format)) as [|c0 cs] eqn:E; [destruct Hc|].
  destruct (List.filter _ (c0 :: cs)) as [|i0 ics] eqn:F; [destruct Hin|].
  eexists. split; [reflexivity|].
  apply occurs_in_app_l, occurs_in_app_r. now apply join_occurs.
Qed.

(** C8 at a value that carries a [$] pattern: the format names only valid
    placeholders, yet [{itemName}] is not replaced by the item name
    [BO$$]: [String.prototype.replace] reads [$$] in the replacement text
    as one [$]. *)
Theorem generateTemplateString_dollar_value :
  generateTemplateString "BO$$" "B" "C" "{itemName} - {albumName}"
  = Returned "BO$ - B"
  /\ render_as_claimed "BO$$" "B" "C" "{itemName} - {albumName}" = "BO$$ - B".
Proof. split; reflexivity. Qed.

(** The same mechanism copies the match back: [$&] is the text that was
    matched. *)
Example generateTemplateString_ampersand_value :
  generateTemplateString "Rock $& Roll" "B" "C" "{itemName}"
  = Returned "Rock {itemName} Roll".
Proof. reflexivity. Qed.

End FormatGeneratorsProofs.


Module GetLinkProofs.
Import JsString JsStringProofs FormatGenerators GetLink.

Section Ranker.
Variable SONG_TYPES : list string.
Variable MAX_MINUTES : Z.








End Ranker.


Example findLinks_song :
  snd (findLinks sample_song_types 15 sample_world 0 "Beyonce - Halo" "song" ["karaoke"])
  = Returned ["https://youtube.com/watch?v=one"].
Proof. reflexivity. Qed.

(** The maximum applies to song types only. *)
Example findLinks_episode :
  snd (findLinks sample_song_types 15 sample_world 0 "Beyonce - Halo" "episode" ["karaoke"])
  = Returned ["https://youtube.com/watch?v=one"; "https://youtube.com/watch?v=two"].
Proof. reflexivity. Qed.

Example findLinks_search_fails :
  findLinks sample_song_types 15 sample_world 0 "crash" "song" []
  = ([EvSearch 0 "crash"], Returned []).
Proof. reflexivity. Qed.

Example dice_same : dice "Halo" "Halo" = 1%Q.
Proof. reflexivity. Qed.

Example dice_disjoint : (dice "Halo" "Greatest Hits" == 0)%Q.
Proof. reflexivity. Qed.

(** Item and album named alike: the album-prefixed search is skipped. *)
Example getLinks_same_name :
  getLinks sample_song_types 15 dice sample_world "Halo" "Halo" "Beyonce"
           EmptyString EmptyString "song" []
  = ([EvSearch 0 "Beyonce - Halo";
      EvFind ArtistPrefixed "Beyonce - Halo"
        ["https://youtube.com/watch?v=one"; "https://youtube.com/watch?v=three"]],
     Returned ["https://youtube.com/watch?v=one"; "https://youtube.com/watch?v=three"]).
Proof. reflexivity. Qed.

(** Item and album named differently: the album-prefixed search is made,
    and, as it finds something, the artist-prefixed one is not. *)
Example getLinks_other_album :
  getLinks sample_song_types 15 dice sample_world "Halo" "Greatest Hits" "Beyonce"
           "lyrics" "{itemName} {foo}" "song" ["karaoke"]
  = ([EvLog "Invalid template contexts: foo. Valid contexts are: itemName, albumName, artistName";
      EvSearch 0 "Greatest Hits - Halo lyrics";
      EvFind AlbumPrefixed "Greatest Hits - Halo lyrics" ["https://youtube.com/watch?v=one"]],
     Returned ["https://youtube.com/watch?v=one"]).
Proof. reflexivity. Qed.

Section Resolve.
Variable SONG_TYPES : list string.
Variable MAX_MINUTES : Z.
Variable compareTwoStrings : string -> string -> Q.
Variable w : World.

Lemma finds_app t1 t2 : finds (t1 ++ t2) = finds t1 ++ finds t2.
Proof.
  induction t1 as [|e t1 IH]; simpl; [reflexivity|].
  destruct e; simpl; now rewrite IH.
Qed.

Lemma findLinks_returns n searchTerms type exclusionFilters :
  exists t links,
    findLinks SONG_TYPES MAX_MINUTES w n searchTerms type exclusionFilters
    = (t, Returned links) /\ finds t = [].
Proof.
  unfold findLinks. destruct (truthy searchTerms); simpl; [|eauto].
  destruct (search w n searchTerms) as [[videos|]|e]; eauto.
Qed.

Lemma find_at_spec tier n searchTerms type exclusionFilters :
  exists t links,
    find_at SONG_TYPES MAX_MINUTES w tier n searchTerms type exclusionFilters
    = (t, Returned links) /\ finds t = [(tier, searchTerms, links)].
Proof.
  unfold find_at.
  destruct (findLinks_returns n searchTerms type exclusionFilters)
    as (t & links & -> & Hf).
  exists (t ++ [EvFind tier searchTerms links]), links.
  split; [reflexivity|]. now rewrite finds_app, Hf.
Qed.

Lemma custom_tier_spec itemName albumName artistName searchFormat type exclusionFilters :
  exists t links,
    custom_tier SONG_TYPES MAX_MINUTES w itemName albumName artistName searchFormat
                type exclusionFilters = (t, links) /\
    ((exists terms,
         generateTemplateString itemName albumName artistName searchFormat
         = Returned terms /\ finds t = [(CustomFormat, terms, links)])
     \/ (exists e,
           generateTemplateString itemName albumName artistName searchFormat
           = Threw e /\ finds t = [] /\ links = [])).
Proof.
  unfold custom_tier.
  destruct (generateTemplateString itemName albumName artistName searchFormat)
    as [terms|e].
  - destruct (find_at_spec CustomFormat 0 terms type exclusionFilters)
      as (t & links & -> & Hf).
    exists t, links. split; [reflexivity|]. left. eauto.
  - exists [EvLog (message e)], []. split; [reflexivity|]. right. eauto.
Qed.

End Resolve.

Lemma Qltb_true a b : Qltb a b = true <-> (a < b)%Q.
Proof. unfold Qltb. apply MergerProofs.Qgtb_true. Qed.

Lemma length_zero_nil {A} (l : list A) : Nat.eqb (length l) 0 = true <-> l = [].
Proof. destruct l; simpl; split; congruence. Qed.

Ltac tier_facts :=
  unfold ran, ran_with, found_nothing, found_by, tier_of; simpl;
  repeat match goal with
    | |- _ /\ _ => split
    | |- _ <-> _ => split
    | |- forall _, _ => intro
    | H : _ \/ _ |- _ => destruct H
    | H : _ /\ _ |- _ => destruct H
    | H : exists _, _ |- _ => destruct H
    | H : False |- _ => destruct H
    | H : (_, _) = (_, _) |- _ => injection H as ? ?; subst
    | H : (_, _, _) = (_, _, _) |- _ => injection H as ? ? ?; subst
    end;
  try congruence; try discriminate; eauto 6;
  try (exfalso;
       match goal with
       | H : forall (terms : string) (found : list string), _ -> found = [] |- _ =>
           first [ specialize (H _ _ (or_introl eq_refl)); congruence
                 | specialize (H _ _ (or_intror (or_introl eq_refl))); congruence ]
       end).

(** The tiers of a call that has an item name. *)
Lemma getLinks_tiers_named (SONG_TYPES : list string) (MAX_MINUTES : Z)
        (compareTwoStrings : string -> string -> Q) (w : World)
        (itemName albumName artistName extraSearch searchFormat type : string)
        (exclusionFilters : list string) (t : list Event) (r : result (list string)) :
  truthy itemName = true ->
  getLinks SONG_TYPES MAX_MINUTES compareTwoStrings w itemName albumName artistName
           extraSearch searchFormat type exclusionFilters = (t, r) ->
  exists links,
    r = Returned links /\
    links = match last (finds t) with Some f => found_by f | None => [] end /\
    sublist (map tier_of (finds t)) [CustomFormat; AlbumPrefixed; ArtistPrefixed] /\
    (forall i f, finds t !! i = Some f -> found_by f <> [] -> S i = length (finds t)) /\
    (ran CustomFormat (finds t) <->
       truthy searchFormat = true /\
       is_returned (generateTemplateString itemName albumName artistName searchFormat)
       = true) /\
    (forall terms, ran_with CustomFormat terms (finds t) ->
       generateTemplateString itemName albumName artistName searchFormat
       = Returned terms) /\
    (ran AlbumPrefixed (finds t) <->
       found_nothing CustomFormat (finds t) /\
       (compareTwoStrings itemName albumName < 1 # 2)%Q /\
       truthy albumName = true) /\
    (forall terms, ran_with AlbumPrefixed terms (finds t) ->
       terms = (albumName ++ " - " ++ itemName ++ extra_term extraSearch)%string) /\
    (ran ArtistPrefixed (finds t) <->
       found_nothing CustomFormat (finds t) /\
       found_nothing AlbumPrefixed (finds t) /\
       truthy artistName = true) /\
    (forall terms, ran_with ArtistPrefixed terms (finds t) ->
       terms = (artistName ++ " - " ++ itemName ++ extra_term extraSearch)%string).
Proof.
  intros Hitem Hrun. unfold getLinks in Hrun. rewrite Hitem in Hrun.
  simpl negb in Hrun. cbv iota in Hrun.
  fold (extra_term extraSearch) in Hrun.
  (* the custom tier *)
  assert (exists t1 links1,
             (if truthy searchFormat
              then custom_tier SONG_TYPES MAX_MINUTES w itemName albumName artistName
                               searchFormat type exclusionFilters
              else ([], [])) = (t1, links1) /\
             ((exists terms, truthy searchFormat = true /\
                 generateTemplateString itemName albumName artistName searchFormat
                 = Returned terms /\ finds t1 = [(CustomFormat, terms, links1)])
              \/ (finds t1 = [] /\ links1 = [] /\
                  (truthy searchFormat = false \/
                   is_returned (generateTemplateString itemName albumName artistName
                                  searchFormat) = false))))
    as (t1 & links1 & E1 & H1).
  { destruct (truthy searchFormat) eqn:Hf.
    - destruct (custom_tier_spec SONG_TYPES MAX_MINUTES w itemName albumName artistName
                  searchFormat type exclusionFilters)
        as (t1 & l1 & E & [(terms & Hg & Hfs)|(e & Hg & Hfs & Hl)]).
      + exists t1, l1. split; [exact E|]. left. eauto.
      + exists t1, l1. split; [exact E|]. right. rewrite Hg. auto.
    - exists [], []. split; [reflexivity|]. right. auto. }
  rewrite E1 in Hrun. clear E1.
  destruct links1 as [|link1 links1].
  2:{ (* the custom tier found something *)
    simpl in Hrun. injection Hrun as <- <-.
    destruct H1 as [(terms & Hf & Hg & Hfs)|(_ & Hnil & _)]; [|discriminate].
    exists (link1 :: links1). rewrite Hfs, Hg, Hf. simpl.
    split; [reflexivity|]. split; [reflexivity|].
    split; [repeat constructor|].
    split; [intros [|i] f Hi Hne; simpl in Hi; [reflexivity | discriminate]|].
    tier_facts. }
  simpl in Hrun.
  assert (Hfirst : (exists terms, truthy searchFormat = true /\
                      generateTemplateString itemName albumName artistName searchFormat
                      = Returned terms /\ finds t1 = [(CustomFormat, terms, [])])
                   \/ (finds t1 = [] /\
                       (truthy searchFormat = false \/
                        is_returned (generateTemplateString itemName albumName artistName
                                       searchFormat) = false))).
  { destruct H1 as [H1|(H1 & _ & H1')]; [left; exact H1 | right; auto]. }
  clear H1.
  destruct (Qltb (compareTwoStrings itemName albumName) (1 # 2) && truthy albumName)
    eqn:Hc2.
  - (* the album-prefixed tier runs *)
    apply andb_true_iff in Hc2. destruct Hc2 as [Hsim Halbum].
    apply Qltb_true in Hsim.
    destruct (find_at_spec SONG_TYPES MAX_MINUTES w AlbumPrefixed (searches t1)
                (albumName ++ " - " ++ itemName ++ extra_term extraSearch)%string
                type exclusionFilters) as (t2 & links2 & E2 & Hf2).
    rewrite E2 in Hrun.
    destruct (Nat.eqb (length links2) 0 && truthy artistName) eqn:Hc3.
    + apply andb_true_iff in Hc3. destruct Hc3 as [Hl2 Hartist].
      apply length_zero_nil in Hl2. subst links2.
      destruct (find_at_spec SONG_TYPES MAX_MINUTES w ArtistPrefixed (searches (t1 ++ t2))
                  (artistName ++ " - " ++ itemName ++ extra_term extraSearch)%string
                  type exclusionFilters) as (t3 & links3 & E3 & Hf3).
      rewrite E3 in Hrun. injection Hrun as <- <-.
      exists links3. rewrite !finds_app, Hf2, Hf3.
      destruct Hfirst as [(terms & Hf & Hg & ->)|(-> & Hno)]; simpl.
      * rewrite Hg, Hf.
        split; [reflexivity|]. split; [reflexivity|].
        split; [repeat constructor|].
        split; [intros [|[|[|i]]] f Hi Hne; simpl in Hi; try discriminate;
                injection Hi as <-; simpl in *; congruence|].
        tier_facts.
      * split; [reflexivity|]. split; [reflexivity|].
        split; [repeat constructor|].
        split; [intros [|[|i]] f Hi Hne; simpl in Hi; try discriminate;
                injection Hi as <-; simpl in *; congruence|].
        tier_facts.
    + injection Hrun as <- <-.
      exists links2. rewrite !finds_app, Hf2.
      assert (Hstop : links2 <> [] \/ truthy artistName = false).
      { apply andb_false_iff in Hc3. destruct Hc3 as [Hc3|Hc3]; [left|right; exact Hc3].
        intros ->. discriminate. }
      destruct Hfirst as [(terms & Hf & Hg & ->)|(-> & Hno)]; simpl.
      * rewrite Hg, Hf.
        split; [reflexivity|]. split; [reflexivity|].
        split; [repeat constructor|].
        split; [intros [|[|i]] f Hi Hne; simpl in Hi; try discriminate;
                injection Hi as <-; simpl in *; congruence|].
        tier_facts.
      * split; [reflexivity|]. split; [reflexivity|].
        split; [repeat constructor|].
        split; [intros [|i] f Hi Hne; simpl in Hi; try discriminate;
                injection Hi as <-; simpl in *; congruence|].
        tier_facts.
  - (* the album-prefixed tier is skipped *)
    assert (Hskip : ~ (compareTwoStrings itemName albumName < 1 # 2)%Q \/
                    truthy albumName = false).
    { apply andb_false_iff in Hc2. destruct Hc2 as [Hc2|Hc2]; [left|right; exact Hc2].
      intros Hlt. apply Qltb_true in Hlt. congruence. }
    simpl in Hrun.
    destruct (truthy artistName) eqn:Hartist.
    + destruct (find_at_spec SONG_TYPES MAX_MINUTES w ArtistPrefixed (searches (t1 ++ []))
                  (artistName ++ " - " ++ itemName ++ extra_term extraSearch)%string
                  type exclusionFilters) as (t3 & links3 & E3 & Hf3).
      rewrite E3 in Hrun. injection Hrun as <- <-.
      exists links3. rewrite !finds_app, Hf3.
      destruct Hfirst as [(terms & Hf & Hg & ->)|(-> & Hno)]; simpl.
      * rewrite Hg, Hf.
        split; [reflexivity|]. split; [reflexivity|].
        split; [repeat constructor|].
        split; [intros [|[|i]] f Hi Hne; simpl in Hi; try discriminate;
                injection Hi as <-; simpl in *; congruence|].
        tier_facts.
      * split; [reflexivity|]. split; [reflexivity|].
        split; [repeat constructor|].
        split; [intros [|i] f Hi Hne; simpl in Hi; try discriminate;
                injection Hi as <-; simpl in *; congruence|].
        tier_facts.
    + injection Hrun as <- <-.
      exists []. rewrite !finds_app. simpl. rewrite app_nil_r.
      destruct Hfirst as [(terms & Hf & Hg & ->)|(-> & Hno)]; simpl.
      * rewrite Hg, Hf.
        split; [reflexivity|]. split; [reflexivity|].
        split; [repeat constructor|].
        split; [intros [|i] f Hi Hne; simpl in Hi; try discriminate;
                injection Hi as <-; simpl in *; congruence|].
        tier_facts.
      * split; [reflexivity|]. split; [reflexivity|].
        split; [repeat constructor|].
        split; [intros i f Hi; discriminate|].
        tier_facts.
Qed.

(** C4: [getLinks] returns without throwing the result of the last tier
    it ran (the empty list when none ran).  The tiers run in the order
    custom format, album prefix, artist prefix, and a tier that found a
    link is the last one to run.  For a call with an item name, the custom
    tier runs exactly when a format is given and renders, and it searches
    the rendered text (a render error runs no search and is not
    propagated); the album-prefixed tier runs exactly when the custom tier
    found nothing, the similarity of item and album name is below 0.5 and
    there is an album name, and it searches [album - item extra]; the
    artist-prefixed tier runs exactly when the tiers before it found
    nothing and there is an artist name, and it searches
    [artist - item extra].  Without an item name no tier runs. *)
Theorem getLinks_tiers (SONG_TYPES : list string) (MAX_MINUTES : Z)
        (compareTwoStrings : string -> string -> Q) (w : World)
        (itemName albumName artistName extraSearch searchFormat type : string)
        (exclusionFilters : list string) (t : list Event) (r : result (list string)) :
  getLinks SONG_TYPES MAX_MINUTES compareTwoStrings w itemName albumName artistName
           extraSearch searchFormat type exclusionFilters = (t, r) ->
  exists links,
    r = Returned links /\
    links = match last (finds t) with Some f => found_by f | None => [] end /\
    sublist (map tier_of (finds t)) [CustomFormat; AlbumPrefixed; ArtistPrefixed] /\
    (forall i f, finds t !! i = Some f -> found_by f <> [] -> S i = length (finds t)) /\
    (ran CustomFormat (finds t) <->
       truthy itemName = true /\
       truthy searchFormat = true /\
       is_returned (generateTemplateString itemName albumName artistName searchFormat)
       = true) /\
    (forall terms, ran_with CustomFormat terms (finds t) ->
       generateTemplateString itemName albumName artistName searchFormat
       = Returned terms) /\
    (ran AlbumPrefixed (finds t) <->
       truthy itemName = true /\
       found_nothing CustomFormat (finds t) /\
       (compareTwoStrings itemName albumName < 1 # 2)%Q /\
       truthy albumName = true) /\
    (forall terms, ran_with AlbumPrefixed terms (finds t) ->
       terms = (albumName ++ " - " ++ itemName ++ extra_term extraSearch)%string) /\
    (ran ArtistPrefixed (finds t) <->
       truthy itemName = true /\
       found_nothing CustomFormat (finds t) /\
       found_nothing AlbumPrefixed (finds t) /\
       truthy artistName = true) /\
    (forall terms, ran_with ArtistPrefixed terms (finds t) ->
       terms = (artistName ++ " - " ++ itemName ++ extra_term extraSearch)%string).
Proof.
  intros Hrun. destruct (truthy itemName) eqn:Hitem.
  - destruct (getLinks_tiers_named _ _ _ _ _ _ _ _ _ _ _ _ _ Hitem Hrun)
      as (links & R & L & S & F & C1 & C2 & A1 & A2 & B1 & B2).
    exists links. repeat (split; [assumption|]).
    split; [tauto|]. split; [assumption|].
    split; [tauto|]. split; [assumption|].
    split; [tauto|]. assumption.
  - unfold getLinks in Hrun. rewrite Hitem in Hrun. simpl in Hrun.
    injection Hrun as <- <-. exists []. simpl.
    split; [reflexivity|]. split; [reflexivity|].
    split; [repeat constructor|].
    split; [intros i f Hi; discriminate|].
    tier_facts.
Qed.

Lemma getLinks_tiers_witness :
  exists links,
    snd (getLinks sample_song_types 15 dice sample_world "Halo" "Greatest Hits"
                  "Beyonce" "lyrics" "{itemName} {foo}" "song" ["karaoke"])
    = Returned links.
Proof.
  destruct (getLinks_tiers sample_song_types 15 dice sample_world "Halo" "Greatest Hits"
              "Beyonce" "lyrics" "{itemName} {foo}" "song" ["karaoke"]
              _ _ eq_refl) as (links & R & _).
  exists links. exact R.
Defined.

End GetLinkProofs.


Module CacheProofs.
Import JsString JsStringProofs Node Cache.
Local Open Scope string_scope.

Example record_then_has_abc : record_then_has "downloads" "abc" = Returned true.
Proof. vm_compute. reflexivity. Qed.

Example record_then_has_padded : record_then_has "downloads" " x" = Returned false.
Proof. vm_compute. reflexivity. Qed.


Lemma split_app_nl a b : split LF (a ++ nl ++ b) = (split LF a ++ split LF b)%list.
Proof. exact (split_app_sep LF a b). Qed.

Lemma split_line line :
  has_char LF line = false -> split LF (line ++ nl) = [line; EmptyString].
Proof.
  intros H. rewrite <- (append_nil_r nl), split_app_nl, (split_no_sep _ _ H).
  reflexivity.
Qed.

Lemma whole_lines_append old line :
  whole_lines (old ++ line ++ nl).
Proof. right. exists (old ++ line). now rewrite append_assoc. Qed.

Lemma cached_ids_In x content :
  In x (cached_ids content) <->
  truthy x = true /\
  exists line, In line (split LF content) /\
               x = trim (replace line "spotify " EmptyString).
Proof.
  unfold cached_ids. rewrite List.filter_In, List.in_map_iff.
  split.
  - intros [(line & <- & Hl) Ht]. eauto.
  - intros [Ht (line & Hl & ->)]. eauto.
Qed.

Lemma split_whole_lines content more :
  whole_lines content ->
  forall line, In line (split LF content) -> truthy line = true ->
               In line (split LF (content ++ more)).
Proof.
  intros [->|(lines & ->)] line Hin Ht.
  - simpl in Hin. destruct Hin as [<-|[]]. discriminate.
  - rewrite append_assoc, split_app_nl.
    rewrite <- (append_nil_r nl), split_app_nl in Hin.
    apply List.in_app_iff in Hin. apply List.in_app_iff.
    destruct Hin as [Hin|Hin]; [now left|].
    simpl in Hin. destruct Hin as [<-|[]]. discriminate.
Qed.

Lemma replace_keeps_empty line :
  truthy (trim (replace line "spotify " EmptyString)) = true -> truthy line = true.
Proof. destruct line; [discriminate | reflexivity]. Qed.

Lemma cached_ids_kept content more x :
  whole_lines content -> In x (cached_ids content) ->
  In x (cached_ids (content ++ more)).
Proof.
  intros Hw Hx. apply cached_ids_In in Hx. destruct Hx as (Ht & line & Hl & ->).
  apply cached_ids_In. split; [exact Ht|]. exists line. split; [|reflexivity].
  apply split_whole_lines; auto. now apply replace_keeps_empty.
Qed.

Lemma cached_ids_recorded content id :
  whole_lines content -> plain_id id ->
  In id (cached_ids (content ++ cache_line id)).
Proof.
  intros Hw (Ht & Hnl & Htrim). apply cached_ids_In. split; [exact Ht|].
  exists ("spotify " ++ id). split.
  - assert (Hline : split LF (("spotify " ++ id) ++ nl)
                    = ["spotify " ++ id; EmptyString]).
    { apply split_line. rewrite has_char_app, Hnl. reflexivity. }
    unfold cache_line. rewrite <- (append_assoc "spotify " id).
    destruct Hw as [->|(lines & ->)].
    + change (EmptyString ++ ("spotify " ++ id) ++ nl)
        with (("spotify " ++ id) ++ nl).
      rewrite Hline. now left.
    + rewrite append_assoc, split_app_nl, Hline.
      apply List.in_app_iff. right. now left.
  - now rewrite replace_prefix, Htrim.
Qed.

Lemma array_includes_In l x : array_includes l x = true <-> In x l.
Proof.
  unfold array_includes. rewrite existsb_exists. split.
  - intros (y & Hy & E). apply String.eqb_eq in E. now subst.
  - intros H. exists x. split; [exact H | apply String.eqb_refl].
Qed.
Section Disk.
Variable path_join : string -> string -> string.
Variable path_dirname : string -> string.
Variable cacheFile : string.
Variable f : Faults.

Let cache_of (dir : string) : string := getCacheFile path_join cacheFile dir.
Let write (dir id : string) : M unit := writeId path_join path_dirname cacheFile f dir id.
Let find (id dir : string) : M bool := findId path_join cacheFile f id dir.

(** [writeId] returns whatever happens; it either leaves the files as
    they are or appends the line of the id to the cache file. *)
Lemma writeId_cases dir id env :
  snd (write dir id env) = Returned tt /\
  dirs env ⊆ dirs (fst (write dir id env)) /\
  (files (fst (write dir id env)) = files env \/
   files (fst (write dir id env))
   = <[cache_of dir := (default EmptyString (files env !! cache_of dir)
                        ++ cache_line id)%string]> (files env)).
Proof.
  unfold write, writeId, cache_of.
  destruct (negb (truthy dir) || negb (truthy id)); [simpl; auto|].
  unfold try_catch, bind, existsSync, mkdirSync, appendFileSync, ret, logInfo.
  set (cf := getCacheFile path_join cacheFile dir).
  destruct (bool_decide (is_Some (files env !! path_dirname cf))
            || bool_decide (path_dirname cf ∈ dirs env)); simpl.
  - destruct (append_fails f cf); simpl; auto.
  - destruct (mkdir_fails f (path_dirname cf)); simpl; [auto|].
    destruct (append_fails f cf); simpl.
    + split; [reflexivity|]. split; [set_solver | auto].
    + split; [reflexivity|]. split; [set_solver | auto].
Qed.

Lemma writeId_written dir id env :
  truthy dir = true -> truthy id = true ->
  mkdir_fails f (path_dirname (cache_of dir)) = false ->
  append_fails f (cache_of dir) = false ->
  files (fst (write dir id env))
  = <[cache_of dir := (default EmptyString (files env !! cache_of dir)
                       ++ cache_line id)%string]> (files env) /\
  logged (fst (write dir id env)) = logged env.
Proof.
  unfold write, writeId, cache_of. intros -> -> Hm Ha. simpl.
  unfold try_catch, bind, existsSync, mkdirSync, appendFileSync, ret.
  set (cf := getCacheFile path_join cacheFile dir) in *.
  destruct (bool_decide (is_Some (files env !! path_dirname cf))
            || bool_decide (path_dirname cf ∈ dirs env)); simpl.
  - rewrite Ha. simpl. auto.
  - rewrite Hm. simpl. rewrite Ha. simpl. auto.
Qed.

Lemma existsSync_true path env :
  is_Some (files env !! path) \/ path ∈ dirs env ->
  snd (existsSync path env) = Returned true.
Proof.
  unfold existsSync. simpl. intros H. f_equal. apply orb_true_iff.
  destruct H as [H|H]; [left | right]; now apply bool_decide_eq_true.
Qed.

Lemma existsSync_false path env :
  snd (existsSync path env) = Returned false ->
  ~ (is_Some (files env !! path) \/ path ∈ dirs env).
Proof.
  unfold existsSync. simpl. intros [= H]. apply orb_false_iff in H.
  destruct H as [H1 H2]. apply bool_decide_eq_false in H1, H2. tauto.
Qed.

Lemma writeId_directory dir id env :
  truthy dir = true -> truthy id = true ->
  mkdir_fails f (path_dirname (cache_of dir)) = false ->
  snd (existsSync (path_dirname (cache_of dir)) (fst (write dir id env)))
  = Returned true.
Proof.
  unfold write, writeId, cache_of. intros -> -> Hm. simpl.
  set (cf := getCacheFile path_join cacheFile dir) in *.
  apply existsSync_true.
  unfold try_catch, bind, mkdirSync, appendFileSync, ret, logInfo.
  destruct (existsSync (path_dirname cf) env) as [env0 present] eqn:E.
  assert (env0 = env) by (unfold existsSync in E; congruence). subst env0.
  assert (Hpresent : snd (existsSync (path_dirname cf) env) = present)
    by (rewrite E; reflexivity).
  destruct present as [[]|e]; [| |unfold existsSync in E; discriminate]; simpl.
  - assert (Hex : is_Some (files env !! path_dirname cf) \/ path_dirname cf ∈ dirs env).
    { unfold existsSync in Hpresent. simpl in Hpresent. injection Hpresent as H.
      apply orb_true_iff in H.
      destruct H as [H|H]; apply bool_decide_eq_true in H; auto. }
    destruct (append_fails f cf); simpl; [exact Hex|].
    destruct Hex as [Hex|Hex]; [left | now right].
    destruct (decide (cf = path_dirname cf)) as [Heq|Hne].
    + rewrite <- Heq, lookup_insert_eq. eauto.
    + rewrite lookup_insert_ne by exact Hne. exact Hex.
  - rewrite Hm. simpl. destruct (append_fails f cf); simpl; right; set_solver.
Qed.

Lemma writeId_refused dir id env :
  truthy dir = true -> truthy id = true ->
  append_fails f (cache_of dir) = true ->
  files (fst (write dir id env)) = files env /\
  exists msg,
    logged (fst (write dir id env))
    = (logged env ++ [("Failed to write to cache: " ++ msg)%string])%list.
Proof.
  unfold write, writeId, cache_of. intros -> -> Ha. simpl.
  unfold try_catch, bind, existsSync, mkdirSync, appendFileSync, ret, logInfo.
  set (cf := getCacheFile path_join cacheFile dir) in *.
  destruct (bool_decide (is_Some (files env !! path_dirname cf))
            || bool_decide (path_dirname cf ∈ dirs env)); simpl.
  - rewrite Ha. simpl. split; [reflexivity | eexists; reflexivity].
  - destruct (mkdir_fails f (path_dirname cf)); simpl;
      [split; [reflexivity | eexists; reflexivity]|].
    rewrite Ha. simpl. split; [reflexivity | eexists; reflexivity].
Qed.

(** [findId] returns a boolean whatever happens and writes no file. *)
Lemma findId_cases id dir env :
  files (fst (find id dir env)) = files env /\
  dirs (fst (find id dir env)) = dirs env /\
  exists b,
    snd (find id dir env) = Returned b /\
    (b = true -> recorded path_join cacheFile id dir env) /\
    (truthy id = true -> truthy dir = true ->
     read_fails f (cache_of dir) = false ->
     recorded path_join cacheFile id dir env -> b = true) /\
    (files env !! cache_of dir = None -> b = false) /\
    (read_fails f (cache_of dir) = true -> b = false).
Proof.
  unfold find, findId, cache_of, recorded.
  set (cf := getCacheFile path_join cacheFile dir).
  destruct (truthy id) eqn:Hid; simpl.
  2:{ split; [reflexivity|]. split; [reflexivity|]. exists false.
      repeat split; try congruence; auto. }
  destruct (truthy dir) eqn:Hdir; simpl.
  2:{ split; [reflexivity|]. split; [reflexivity|]. exists false.
      repeat split; try congruence; auto. }
  unfold try_catch, bind, existsSync, readFileSync, ret, logInfo.
  destruct (files env !! cf) as [content|] eqn:Hc;
    destruct (bool_decide (cf ∈ dirs env));
    destruct (read_fails f cf) eqn:Hr; simpl; rewrite ?Hc; simpl;
    (split; [reflexivity|]); (split; [reflexivity|]);
    eexists; (split; [reflexivity|]);
    (split; [|split; [|split]]);
    try congruence;
    try (intros _ _ _ (c & Hc' & Hin); congruence).
  - intros H. apply array_includes_In in H. eauto.
  - intros _ _ _ (c & Hc' & Hin). apply array_includes_In. congruence.
  - intros H. apply array_includes_In in H. eauto.
  - intros _ _ _ (c & Hc' & Hin). apply array_includes_In. congruence.
Qed.

End Disk.

(** C7, as the code has it.  For a non-empty directory and an id that is
    not empty, holds no line feed and has no white space at either end:
    when the cache file is missing or made of whole lines and the system
    refuses neither the directory creation, nor the append, nor the read,
    [writeId] appends the one line [spotify <id>] to the cache file, whose
    directory exists afterwards, and [findId] then returns [true].  [findId] returns [false], and does not
    throw, when the cache file is missing or cannot be read; it never
    throws.  [writeId] never throws; when the append is refused it leaves
    the files as they are and logs the failure. *)
Theorem writeId_then_findId
        (path_join : string -> string -> string) (path_dirname : string -> string)
        (cacheFile : string) (f : Faults) :
  (forall dir id env,
      truthy dir = true -> plain_id id ->
      (forall content,
          files env !! getCacheFile path_join cacheFile dir = Some content ->
          whole_lines content) ->
      mkdir_fails f (path_dirname (getCacheFile path_join cacheFile dir)) = false ->
      append_fails f (getCacheFile path_join cacheFile dir) = false ->
      read_fails f (getCacheFile path_join cacheFile dir) = false ->
      files (fst (writeId path_join path_dirname cacheFile f dir id env))
        !! getCacheFile path_join cacheFile dir
      = Some (default EmptyString (files env !! getCacheFile path_join cacheFile dir)
              ++ "spotify " ++ id ++ nl) /\
      snd (existsSync (path_dirname (getCacheFile path_join cacheFile dir))
             (fst (writeId path_join path_dirname cacheFile f dir id env)))
      = Returned true /\
      snd (findId path_join cacheFile f id dir
             (fst (writeId path_join path_dirname cacheFile f dir id env)))
      = Returned true) /\
  (forall id dir env,
      files env !! getCacheFile path_join cacheFile dir = None \/
      read_fails f (getCacheFile path_join cacheFile dir) = true ->
      snd (findId path_join cacheFile f id dir env) = Returned false) /\
  (forall id dir env,
      exists b, snd (findId path_join cacheFile f id dir env) = Returned b) /\
  (forall dir id env,
      snd (writeId path_join path_dirname cacheFile f dir id env) = Returned tt) /\
  (forall dir id env,
      truthy dir = true -> truthy id = true ->
      append_fails f (getCacheFile path_join cacheFile dir) = true ->
      files (fst (writeId path_join path_dirname cacheFile f dir id env)) = files env /\
      exists msg,
        logged (fst (writeId path_join path_dirname cacheFile f dir id env))
        = (logged env ++ [("Failed to write to cache: " ++ msg)%string])%list).
Proof.
  split; [|split; [|split; [|split]]].
  - intros dir id env Hdir Hid Hwhole Hm Ha Hr.
    destruct (writeId_written path_join path_dirname cacheFile f dir id env
                Hdir (proj1 Hid) Hm Ha) as [Hfiles _].
    split; [|split].
    + rewrite Hfiles, lookup_insert_eq. reflexivity.
    + apply writeId_directory; [exact Hdir | apply Hid | exact Hm].
    + destruct (findId_cases path_join cacheFile f id dir
                  (fst (writeId path_join path_dirname cacheFile f dir id env)))
        as (_ & _ & b & Hb & _ & Hfound & _).
      rewrite Hb. f_equal. apply Hfound; auto; [apply Hid|].
      exists (default EmptyString (files env !! getCacheFile path_join cacheFile dir)
              ++ cache_line id).
      split; [rewrite Hfiles; apply lookup_insert_eq|].
      apply cached_ids_recorded; [|exact Hid].
      destruct (files env !! getCacheFile path_join cacheFile dir) as [content|] eqn:E;
        simpl; [now apply Hwhole | now left].
  - intros id dir env H.
    destruct (findId_cases path_join cacheFile f id dir env)
      as (_ & _ & b & Hb & _ & _ & Habsent & Hunreadable).
    rewrite Hb. f_equal. destruct H; auto.
  - intros id dir env.
    destruct (findId_cases path_join cacheFile f id dir env) as (_ & _ & b & Hb & _).
    eauto.
  - intros dir id env. apply writeId_cases.
  - intros dir id env. apply writeId_refused.
Qed.

Lemma writeId_then_findId_witness :
  snd (findId join_slash ".spdlcache" no_faults "abc" "downloads"
         (fst (writeId join_slash dirname_slash ".spdlcache" no_faults
                 "downloads" "abc" empty_env)))
  = Returned true.
Proof.
  destruct (proj1 (writeId_then_findId join_slash dirname_slash ".spdlcache" no_faults)
              "downloads" "abc" empty_env) as (_ & _ & H).
  - reflexivity.
  - repeat split; reflexivity.
  - intros content Hc. vm_compute in Hc. discriminate Hc.
  - reflexivity.
  - reflexivity.
  - reflexivity.
  - exact H.
Defined.

(** C7 as stated fails: an id is written as it is, but read back trimmed,
    so an id with white space at an end is not found. *)
Lemma record_then_has_not_for_every_id :
  ~ (forall dir id, truthy dir = true -> truthy id = true ->
                    record_then_has dir id = Returned true).
Proof.
  intros H. specialize (H "downloads" " x" eq_refl eq_refl).
  vm_compute in H. discriminate.
Qed.

End CacheProofs.


Module MetadataProofs.
Import JsString Metadata.

Example mergeMetadata_stubborn :
  mergeMetadata stubborn_world "music/Halo.mp3"
                (Some (mkSongData "https://i.scdn.co/image/1" "Halo" EmptyString)) false
  = (true,
     [EvFetch 0; EvLog "Album cover download failed, retrying...";
      EvFetch 1; EvLog "Album cover download failed, using generic image";
      EvCopy;
      EvUpdate (Some "music/Halo.jpg"); EvLog "Failed to merge metadata: EBUSY";
      EvUnlink "music/Halo.jpg";
      EvLog "Failed to delete temporary cover file: EPERM: operation not permitted, unlink"],
     Returned tt).
Proof. reflexivity. Qed.




End MetadataProofs.


Module RunnerProofs.
Import JsString Node Cache CacheProofs Runner.

Lemma filter_split_length {A} (p : A -> bool) (l : list A) :
  length (List.filter p l) + length (List.filter (fun x => negb (p x)) l) = length l.
Proof.
  induction l as [|x l IH]; simpl; [reflexivity|].
  destruct (p x); simpl; lia.
Qed.

Lemma filter_none {A} (p : A -> bool) (l : list A) :
  (forall x, In x l -> p x = false) -> List.filter p l = [].
Proof.
  induction l as [|x l IH]; intros H; simpl; [reflexivity|].
  rewrite (H x (or_introl eq_refl)). apply IH. intros y Hy. apply H. now right.
Qed.

Lemma entry_counts_of result :
  entry_counts result
    (mkEntry (list_name result) (list_type result)
             (length (items result) - length (List.filter is_failed (items result)))
             (length (items result)) (List.filter is_failed (items result))).
Proof.
  unfold entry_counts, succeeded; simpl.
  pose proof (filter_split_length is_failed (items result)) as Hsplit.
  repeat split; try reflexivity; [lia|].
  intros Hnone. rewrite filter_none; [simpl; lia|].
  intros item Hin. specialize (Hnone item Hin). unfold is_failed.
  destruct (failed item) as [[]|]; congruence.
Qed.

(** C10: the report has one line per list, in order; on each line the
    total is the number of items of the list and the success count is the
    total minus the number of items whose [failed] flag is [true], that is,
    the number of items whose flag is [false] or was never set; so a list
    without any item flagged as failed, such as one whose items were all
    skipped as cached, is reported entirely successful. *)
Theorem generateReport_counts (listResults : list SongList) :
  Forall2 entry_counts listResults (generateReport listResults) /\
  Forall2 (fun result entry =>
             Forall (fun item => cached item = Some true /\ failed item = None)
                    (items result) ->
             successCount entry = length (items result))
          listResults (generateReport listResults) /\
  Forall2 (fun result entry =>
             Forall (fun item => cached item = None /\ failed item = None)
                    (items result) ->
             successCount entry = length (items result))
          listResults (generateReport listResults).
Proof.
  assert (Hmain : Forall2 entry_counts listResults (generateReport listResults)).
  { induction listResults as [|result rest IH]; simpl; constructor;
      [apply entry_counts_of | exact IH]. }
  split; [exact Hmain|].
  split; (eapply Forall2_impl; [exact Hmain|]);
    intros result entry (Ht & _ & _ & _ & Hall) Hitems;
    rewrite <- Ht; apply Hall; intros item Hin;
    rewrite List.Forall_forall in Hitems; destruct (Hitems item Hin) as [_ ->];
    discriminate.
Qed.

Example generateReport_sample :
  map (fun entry => (successCount entry, totalItems entry))
      (generateReport
         [mkList "Mix" "playlist"
            [mkItem "1" "a" "x" ["A"] EmptyString None (Some true) None;
             mkItem "2" "b" "x" ["A"] EmptyString None None (Some true);
             mkItem "3" "c" "x" ["A"] EmptyString None None (Some false);
             mkItem "4" "d" "x" ["A"] EmptyString None None None]])
  = [(3, 4)].
Proof. reflexivity. Qed.


Example run_sample_twice :
  let first := run_sample two_songs empty_env in
  let second := run_sample two_songs (fst (fst first)) in
  acquired (snd (fst first)) = [0; 1] /\
  acquired (snd (fst second)) = [] /\
  match snd second with
  | Returned done => map cached (items done) = [Some true; Some true]
  | Threw _ => False
  end.
Proof. vm_compute. auto. Qed.

(** When the cache cannot be written, the first run acquires and tags the
    items all the same, and the second run acquires them again. *)
Example run_sample_unrecorded :
  let first := run_sample_on read_only two_songs empty_env in
  let second := run_sample two_songs (fst (fst first)) in
  match snd first with
  | Returned done => map failed (items done) = [Some false; Some false]
  | Threw _ => False
  end /\
  logged (fst (fst first))
  = ["Failed to write to cache: EACCES: permission denied, open";
     "Failed to write to cache: EACCES: permission denied, open"] /\
  acquired (snd (fst second)) = [0; 1].
Proof. vm_compute. auto. Qed.

(** C6 as stated fails in its last part: the link is acquired and
    recorded by the first run, and the second run, from the disk the first
    one left, does not find it and acquires it again. *)
Lemma downloadList_acquires_again :
  ~ reruns_from_cache sample_path Cache.dirname_slash (fun p => p) Cache.join_slash
      ".spdlcache" false.
Proof.
  intros H.
  destruct (H no_faults eager_world no_faults eager_world padded_link empty_env
              _ _ _ _ _ _ eq_refl eq_refl) as [_ Hacq].
  - repeat constructor.
  - repeat constructor.
  - vm_compute in Hacq. discriminate.
Qed.

Lemma whole_lines_cache_line old id : whole_lines (old ++ cache_line id).
Proof.
  right. exists (old ++ "spotify " ++ id)%string. unfold cache_line.
  now rewrite !JsStringProofs.append_assoc.
Qed.

Lemma acquired_app t1 t2 : acquired (t1 ++ t2) = acquired t1 ++ acquired t2.
Proof.
  induction t1 as [|e t1 IH]; simpl; [reflexivity|].
  destruct e; simpl; now rewrite ?IH.
Qed.

Section Resume.
Variable itemOutputPath : string -> string -> string -> string.
Variable path_dirname : string -> string.
Variable path_resolve : string -> string.
Variable path_join : string -> string -> string.
Variable cacheFile : string.
Variable downloadLyrics : bool.

Let dir_of := itemDir itemOutputPath path_dirname.
Let file_of := cache_file_of itemOutputPath path_dirname path_join cacheFile.
Let step f w :=
  process_item itemOutputPath path_dirname path_resolve path_join cacheFile
               downloadLyrics f w.
Let steps f w :=
  process_items itemOutputPath path_dirname path_resolve path_join cacheFile
                downloadLyrics f w.
Let is_listed := listed itemOutputPath path_dirname path_join cacheFile.
Let grows := Runner.grows itemOutputPath path_dirname path_join cacheFile.

Lemma grows_well_kept item env env' :
  grows item env env' -> well_kept env -> well_kept env'.
Proof.
  unfold grows, Runner.grows, file_of.
  intros [E|E] Hw path content Hc; rewrite E in Hc; [eauto|].
  destruct (decide (cache_file_of itemOutputPath path_dirname path_join cacheFile item
                    = path)) as [<-|Hne].
  - rewrite lookup_insert_eq in Hc. injection Hc as <-.
    apply whole_lines_cache_line.
  - rewrite lookup_insert_ne in Hc by exact Hne. eauto.
Qed.

Lemma grows_listed item env env' other :
  grows item env env' -> well_kept env -> is_listed other env -> is_listed other env'.
Proof.
  unfold is_listed, listed, recorded, grows, Runner.grows.
  intros [E|E] Hw (content & Hc & Hin); rewrite E; [eauto|].
  destruct (decide (cache_file_of itemOutputPath path_dirname path_join cacheFile item
                    = getCacheFile path_join cacheFile
                        (itemDir itemOutputPath path_dirname other))) as [Heq|Hne].
  - rewrite <- Heq in *. rewrite lookup_insert_eq. rewrite Hc. simpl.
    eexists. split; [reflexivity|]. apply cached_ids_kept; eauto.
  - rewrite lookup_insert_ne by exact Hne. eauto.
Qed.

(** One step, case by case. *)
Lemma step_cases f w index item env :
  exists env' t r,
    step f w index item env = (env', t, r) /\
    (forall k, In k (acquired t) -> k = index) /\
    (forall e, r = Threw e -> files env' = files env) /\
    (forall item', r = Returned item' ->
       id item' = id item /\
       ((item' = set_cached item /\ t = [] /\ is_listed item env /\
         files env' = files env) \/
        (cached item' = cached item /\ failed item' = Some true /\
         files env' = files env) \/
        (cached item' = cached item /\ failed item' = Some false /\
         acquired t = [index] /\
         exists env2,
           files env2 = files env /\
           env' = fst (writeId path_join path_dirname cacheFile f
                         (dir_of item) (id item) env2)))).
Proof.
  unfold step, process_item.
  destruct (findId_cases path_join cacheFile f (id item) (dir_of item) env)
    as (Hfiles & _ & b & Hb & Htrue & _).
  fold dir_of.
  destruct (findId path_join cacheFile f (id item) (dir_of item) env)
    as [env1 found]. simpl in Hfiles, Hb. subst found.
  destruct b.
  { (* found in the cache *)
    do 3 eexists. split; [reflexivity|]. split; [intros k []|].
    split; [discriminate|]. intros item' [= <-]. split; [reflexivity|].
    left. split; [reflexivity|]. split; [reflexivity|].
    split; [apply Htrue; reflexivity | exact Hfiles]. }
  unfold mkdirSync. destruct (mkdir_fails f (dir_of item)).
  { do 3 eexists. split; [reflexivity|]. split; [intros k []|].
    split; [discriminate|]. intros item' [= <-]. split; [reflexivity|].
    right. left. repeat split; auto. }
  set (env2 := mkEnv (files env1) ({[dir_of item]} ∪ dirs env1) (logged env1)).
  set (item1 := if downloadLyrics
                then (set_lyrics (downloadSubtitles w index item) item, [EvLyrics index])
                else (item, [])).
  assert (Hitem1 : id (fst item1) = id item /\ cached (fst item1) = cached item /\
                   acquired (snd item1) = []).
  { unfold item1. destruct downloadLyrics; simpl; auto. }
  destruct item1 as [item1 t1]. simpl in Hitem1. destruct Hitem1 as (Hid & Hcached & Ht1).
  set (links := if truthy (URL item) then ([URL item], [])
                else (getLinks w index item, [EvResolve index])).
  assert (Hlinks : acquired (snd links) = []).
  { unfold links. destruct (truthy (URL item)); reflexivity. }
  destruct links as [ytLinks t2]. simpl in Hlinks.
  assert (Hacq : forall t3, acquired (t1 ++ t2 ++ t3) = acquired t3).
  { intros t3. rewrite !acquired_app, Ht1, Hlinks. reflexivity. }
  destruct ytLinks as [|link ytLinks].
  { do 3 eexists. split; [reflexivity|].
    split; [intros k Hk; rewrite <- (app_nil_r t2), Hacq in Hk; destruct Hk|].
    split; [discriminate|]. intros item' [= <-]. split; [exact Hid|].
    right. left. repeat split; auto. }
  destruct (downloader w index (link :: ytLinks) (path_resolve _)) as [[]|e].
  - do 3 eexists. split; [reflexivity|].
    split; [intros k Hk; rewrite <- !app_assoc, Hacq in Hk; simpl in Hk;
            destruct Hk as [<-|[]]; reflexivity|].
    split; [discriminate|]. intros item' [= <-]. split; [exact Hid|].
    right. right. split; [exact Hcached|]. split; [reflexivity|].
    split; [rewrite <- !app_assoc, Hacq; reflexivity|].
    exists env2. split; [exact Hfiles | reflexivity].
  - do 3 eexists. split; [reflexivity|].
    split; [intros k Hk; rewrite Hacq in Hk; simpl in Hk;
            destruct Hk as [<-|[]]; reflexivity|].
    split; [discriminate|]. intros item' [= <-]. split; [exact Hid|].
    right. left. repeat split; auto.
  - do 3 eexists. split; [reflexivity|].
    split; [intros k Hk; rewrite Hacq in Hk; simpl in Hk;
            destruct Hk as [<-|[]]; reflexivity|].
    split; [intros ? _; exact Hfiles|]. discriminate.
Qed.

Lemma listed_files other env env' :
  files env' = files env -> is_listed other env -> is_listed other env'.
Proof.
  unfold is_listed, listed, recorded. intros ->. auto.
Qed.

Lemma step_grows f w index item env env' t r :
  step f w index item env = (env', t, r) -> grows item env env'.
Proof.
  intros Hstep.
  destruct (step_cases f w index item env) as (env1 & t1 & r1 & E & _ & Hthrew & Hret).
  rewrite Hstep in E. injection E as <- <- <-.
  destruct r as [item'|e]; [|left; eauto].
  destruct (Hret item' eq_refl) as (_ & [(_ & _ & _ & Hf)|[(_ & _ & Hf)|
                                          (_ & _ & _ & env2 & Hf & ->)]]).
  - now left.
  - now left.
  - destruct (writeId_cases path_join path_dirname cacheFile f (dir_of item) (id item)
                env2) as (_ & _ & [Hw|Hw]); [left | right]; rewrite Hw, Hf;
      reflexivity.
Qed.

Lemma step_found f w index item env :
  is_listed item env -> plain itemOutputPath path_dirname item ->
  readable itemOutputPath path_dirname path_join cacheFile f item ->
  exists env',
    step f w index item env = (env', [], Returned (set_cached item)) /\
    files env' = files env.
Proof.
  intros Hlisted ((Hid & _) & Hdir) Hread.
  destruct (findId_cases path_join cacheFile f (id item) (dir_of item) env)
    as (Hfiles & _ & b & Hb & _ & Hfound & _).
  assert (b = true) by (apply Hfound; auto). subst b.
  unfold step, process_item. fold dir_of.
  destruct (findId path_join cacheFile f (id item) (dir_of item) env) as [env1 found].
  simpl in Hfiles, Hb. subst found. eauto.
Qed.

Lemma step_records f w index item env env' t item' :
  step f w index item env = (env', t, Returned item') ->
  fresh item -> kept item' -> plain itemOutputPath path_dirname item ->
  writable itemOutputPath path_dirname path_join cacheFile f item ->
  well_kept env -> is_listed item env'.
Proof.
  intros Hstep [Hc Hf] Hkept ((Hid & Hplain) & Hdir) [Hm Ha] Hwell.
  destruct (step_cases f w index item env) as (env1 & t1 & r1 & E & _ & _ & Hret).
  rewrite Hstep in E. injection E as <- <- <-.
  destruct (Hret item' eq_refl) as (_ & [(_ & _ & Hl & Hfiles)|[(Hc' & Hf' & _)|
                                          (_ & _ & _ & env2 & Hfiles & ->)]]).
  - now apply (listed_files item env).
  - destruct Hkept; congruence.
  - destruct (writeId_written path_join path_dirname cacheFile f (dir_of item) (id item)
                env2 Hdir Hid Hm Ha) as [Hw _].
    unfold is_listed, listed, recorded. fold dir_of. rewrite Hw.
    eexists. split; [apply lookup_insert_eq|].
    apply cached_ids_recorded; [|split; assumption].
    rewrite Hfiles.
    destruct (files env !! getCacheFile path_join cacheFile (dir_of item))
      as [content|] eqn:Ec; simpl; [eauto | now left].
Qed.

Lemma steps_acquired f w items : forall index env env' t r,
  steps f w index items env = (env', t, r) ->
  forall k, In k (acquired t) -> index <= k.
Proof.
  induction items as [|item items IH]; intros index env env' t r Hsteps k Hk.
  - simpl in Hsteps. injection Hsteps as <- <- <-. destruct Hk.
  - unfold steps in Hsteps. simpl in Hsteps.
    destruct (step_cases f w index item env) as (env1 & t1 & r1 & E & Hidx & _).
    unfold step in E. rewrite E in Hsteps.
    destruct r1 as [item'|e].
    + destruct (process_items _ _ _ _ _ _ f w (S index) items env1)
        as [[env2 t2] r2] eqn:E2.
      assert (t = t1 ++ t2) by (destruct r2; injection Hsteps; auto). subst t.
      rewrite acquired_app in Hk. apply List.in_app_iff in Hk.
      destruct Hk as [Hk|Hk]; [apply Hidx in Hk; lia|].
      apply (IH _ _ _ _ _ E2) in Hk. lia.
    + injection Hsteps as <- <- <-. apply Hidx in Hk. lia.
Qed.
(** A run keeps the cache files whole and what they list, goes through
    every item, and leaves every plain item it kept listed. *)
Lemma steps_first f w items : forall index env env' t done,
  steps f w index items env = (env', t, Returned done) ->
  well_kept env -> Forall fresh items ->
  well_kept env' /\
  (forall other, is_listed other env -> is_listed other env') /\
  length done = length items /\
  forall k item item',
    items !! k = Some item -> done !! k = Some item' -> kept item' ->
    plain itemOutputPath path_dirname item ->
    writable itemOutputPath path_dirname path_join cacheFile f item ->
    is_listed item env'.
Proof.
  induction items as [|item items IH]; intros index env env' t done Hsteps Hwell Hfresh.
  - simpl in Hsteps. injection Hsteps as <- <- <-.
    repeat split; auto. intros k item item' Hk. discriminate.
  - unfold steps in Hsteps. simpl in Hsteps.
    destruct (process_item _ _ _ _ _ _ f w index item env) as [[env1 t1] r1] eqn:E1.
    destruct r1 as [item1|e]; [|discriminate].
    destruct (process_items _ _ _ _ _ _ f w (S index) items env1)
      as [[env2 t2] r2] eqn:E2.
    destruct r2 as [done2|e]; [|discriminate].
    injection Hsteps as <- <- <-.
    inversion Hfresh as [|? ? Hfresh1 Hfresh']; subst.
    pose proof (step_grows f w index item env env1 t1 _ E1) as Hgrow.
    pose proof (grows_well_kept _ _ _ Hgrow Hwell) as Hwell1.
    destruct (IH _ _ _ _ _ E2 Hwell1 Hfresh') as (Hwell2 & Hkeep & Hlen & Hrec).
    split; [exact Hwell2|]. split; [|split].
    + intros other Hl. apply Hkeep. eapply grows_listed; eauto.
    + simpl. now rewrite Hlen.
    + intros [|k] it it' Hit Hit' Hkept Hplain Hwrite; simpl in Hit, Hit'.
      * injection Hit as <-. injection Hit' as <-.
        apply Hkeep. eapply step_records; eauto.
      * eapply Hrec; eauto.
Qed.

(** A run marks every plain item the cache lists as cached, without
    calling [downloader] for it. *)
Lemma steps_again f w items : forall index env env' t done,
  steps f w index items env = (env', t, Returned done) ->
  well_kept env ->
  forall k item,
    items !! k = Some item -> is_listed item env ->
    plain itemOutputPath path_dirname item ->
    readable itemOutputPath path_dirname path_join cacheFile f item ->
    done !! k = Some (set_cached item) /\ ~ In (index + k) (acquired t).
Proof.
  induction items as [|item items IH]; intros index env env' t done Hsteps Hwell k it Hit.
  - discriminate.
  - unfold steps in Hsteps. simpl in Hsteps.
    destruct (process_item _ _ _ _ _ _ f w index item env) as [[env1 t1] r1] eqn:E1.
    destruct r1 as [item1|e]; [|discriminate].
    destruct (process_items _ _ _ _ _ _ f w (S index) items env1)
      as [[env2 t2] r2] eqn:E2.
    destruct r2 as [done2|e]; [|discriminate].
    injection Hsteps as <- <- <-.
    pose proof (step_grows f w index item env env1 t1 _ E1) as Hgrow.
    pose proof (grows_well_kept _ _ _ Hgrow Hwell) as Hwell1.
    intros Hlisted Hplain Hread. destruct k as [|k]; simpl in Hit.
    + injection Hit as <-.
      destruct (step_found f w index item env Hlisted Hplain Hread) as (env1' & E & _).
      unfold step in E. rewrite E in E1. injection E1 as <- <- <-.
      split; [reflexivity|]. simpl. rewrite Nat.add_0_r. intros Hin.
      apply (steps_acquired f w items _ _ _ _ _ E2) in Hin. lia.
    + assert (Hlisted1 : is_listed it env1) by (eapply grows_listed; eauto).
      destruct (IH _ _ _ _ _ E2 Hwell1 k it Hit Hlisted1 Hplain Hread) as [Hd Hn].
      split; [exact Hd|]. rewrite acquired_app. intros Hin.
      apply List.in_app_iff in Hin. destruct Hin as [Hin|Hin].
      * destruct (step_cases f w index item env) as (e1 & tt1 & rr1 & E & Hidx & _).
        unfold step in E. rewrite E1 in E. injection E as <- <- <-.
        apply Hidx in Hin. lia.
      * apply Hn. now rewrite Nat.add_succ_r in Hin.
Qed.
Lemma steps_acquired_below f w items : forall index env env' t r,
  steps f w index items env = (env', t, r) ->
  forall k, In k (acquired t) -> k < index + length items.
Proof.
  induction items as [|item items IH]; intros index env env' t r Hsteps k Hk.
  - simpl in Hsteps. injection Hsteps as <- <- <-. destruct Hk.
  - unfold steps in Hsteps. simpl in Hsteps.
    destruct (step_cases f w index item env) as (env1 & t1 & r1 & E & Hidx & _).
    unfold step in E. rewrite E in Hsteps. simpl.
    destruct r1 as [item'|e].
    + destruct (process_items _ _ _ _ _ _ f w (S index) items env1)
        as [[env2 t2] r2] eqn:E2.
      assert (t = t1 ++ t2) by (destruct r2; injection Hsteps; auto). subst t.
      rewrite acquired_app in Hk. apply List.in_app_iff in Hk.
      destruct Hk as [Hk|Hk]; [apply Hidx in Hk; lia|].
      apply (IH _ _ _ _ _ E2) in Hk. lia.
    + injection Hsteps as <- <- <-. apply Hidx in Hk. lia.
Qed.

Lemma step_cached f w index item env :
  snd (findId path_join cacheFile f (id item) (dir_of item) env) = Returned true ->
  exists env',
    step f w index item env = (env', [], Returned (set_cached item)) /\
    files env' = files env.
Proof.
  intros Hfound.
  destruct (findId_cases path_join cacheFile f (id item) (dir_of item) env)
    as (Hfiles & _).
  unfold step, process_item. fold dir_of.
  destruct (findId path_join cacheFile f (id item) (dir_of item) env) as [env1 found].
  simpl in Hfiles, Hfound. subst found. eauto.
Qed.

Lemma step_no_directory f w index item env :
  snd (findId path_join cacheFile f (id item) (dir_of item) env) = Returned false ->
  mkdir_fails f (dir_of item) = true ->
  exists env',
    step f w index item env = (env', [], Returned (set_failed true item)) /\
    files env' = files env.
Proof.
  intros Hfound Hmk.
  destruct (findId_cases path_join cacheFile f (id item) (dir_of item) env)
    as (Hfiles & _).
  unfold step, process_item. fold dir_of.
  destruct (findId path_join cacheFile f (id item) (dir_of item) env) as [env1 found].
  simpl in Hfiles, Hfound. subst found. unfold mkdirSync. rewrite Hmk.
  eauto.
Qed.

Lemma downloadList_steps f w songs env env' t done :
  downloadList itemOutputPath path_dirname path_resolve path_join cacheFile
               downloadLyrics f w songs env = (env', t, Returned done) ->
  steps f w 0 (items songs) env = (env', t, Returned (items done)).
Proof.
  unfold downloadList, steps.
  destruct (process_items _ _ _ _ _ _ f w 0 (items songs) env) as [[e1 t1] [d|e]];
    [|discriminate].
  intros [= <- <- <-]. reflexivity.
Qed.
(** C6, as the code has it.  An item that [findId] finds gets
    [cached = true] and nothing else is done for it: no lyrics, no
    search, no download, no tagging, no write.  An item whose directory
    cannot be created gets [failed = true], nothing else is done for it,
    and the loop goes on with the next item.  When a second run starts
    from the disk a first run left, with cache files made of whole
    lines at the start: every item the first run kept (acquired, or
    found in the cache) that has a plain id and a directory name, that
    the first run could record and the second can look up, is marked
    [cached = true] by the second run, which does not call [downloader]
    for it; if that holds for every item of the list, the second run
    calls [downloader] for none. *)
Theorem downloadList_resumable :
  (forall f w index item env,
      snd (findId path_join cacheFile f (id item) (dir_of item) env) = Returned true ->
      exists env',
        step f w index item env = (env', [], Returned (set_cached item)) /\
        files env' = files env) /\
  (forall f w index item env,
      snd (findId path_join cacheFile f (id item) (dir_of item) env) = Returned false ->
      mkdir_fails f (dir_of item) = true ->
      exists env',
        step f w index item env = (env', [], Returned (set_failed true item)) /\
        files env' = files env) /\
  (forall f w index item rest env env1 t1 item1,
      step f w index item env = (env1, t1, Returned item1) ->
      steps f w index (item :: rest) env
      = match steps f w (S index) rest env1 with
        | (env2, t2, Threw e) => (env2, t1 ++ t2, Threw e)
        | (env2, t2, Returned done) => (env2, t1 ++ t2, Returned (item1 :: done))
        end) /\
  (forall f1 w1 f2 w2 songs env0 env1 t1 done1 env2 t2 done2,
      downloadList itemOutputPath path_dirname path_resolve path_join cacheFile
                   downloadLyrics f1 w1 songs env0 = (env1, t1, Returned done1) ->
      downloadList itemOutputPath path_dirname path_resolve path_join cacheFile
                   downloadLyrics f2 w2 songs env1 = (env2, t2, Returned done2) ->
      well_kept env0 -> Forall fresh (items songs) ->
      (forall i item item1,
          items songs !! i = Some item -> items done1 !! i = Some item1 ->
          kept item1 ->
          plain itemOutputPath path_dirname item ->
          writable itemOutputPath path_dirname path_join cacheFile f1 item ->
          readable itemOutputPath path_dirname path_join cacheFile f2 item ->
          items done2 !! i = Some (set_cached item) /\ ~ In i (acquired t2)) /\
      (Forall kept (items done1) ->
       Forall (fun item =>
                 plain itemOutputPath path_dirname item /\
                 writable itemOutputPath path_dirname path_join cacheFile f1 item /\
                 readable itemOutputPath path_dirname path_join cacheFile f2 item)
              (items songs) ->
       Forall (fun item => cached item = Some true) (items done2) /\
       acquired t2 = [])).
Proof.
  split; [intros; now apply step_cached|].
  split; [intros; now apply step_no_directory|].
  split.
  { intros f w index item rest env env1 t1 item1 E. unfold steps, step in *.
    simpl. rewrite E. reflexivity. }
  intros f1 w1 f2 w2 songs env0 env1 t1 done1 env2 t2 done2 Hrun1 Hrun2 Hwell Hfresh.
  apply downloadList_steps in Hrun1, Hrun2.
  destruct (steps_first f1 w1 (items songs) 0 env0 env1 t1 (items done1)
              Hrun1 Hwell Hfresh) as (Hwell1 & _ & Hlen1 & Hlisted).
  assert (Hone : forall i item item1,
             items songs !! i = Some item -> items done1 !! i = Some item1 ->
             kept item1 ->
             plain itemOutputPath path_dirname item ->
             writable itemOutputPath path_dirname path_join cacheFile f1 item ->
             readable itemOutputPath path_dirname path_join cacheFile f2 item ->
             items done2 !! i = Some (set_cached item) /\ ~ In i (acquired t2)).
  { intros i item item1 Hi Hi1 Hkept Hplain Hwrite Hread.
    assert (Hl : is_listed item env1) by (eapply Hlisted; eauto).
    exact (steps_again f2 w2 (items songs) 0 env1 env2 t2 (items done2)
             Hrun2 Hwell1 i item Hi Hl Hplain Hread). }
  split; [exact Hone|].
  intros Hkept Hall.
  assert (Hevery : forall i item, items songs !! i = Some item ->
             items done2 !! i = Some (set_cached item) /\ ~ In i (acquired t2)).
  { intros i item Hi.
    assert (Hlt : i < length (items done1))
      by (rewrite Hlen1; eapply lookup_lt_Some; eauto).
    apply lookup_lt_is_Some in Hlt. destruct Hlt as [item1 Hi1].
    rewrite Forall_lookup in Hkept, Hall.
    destruct (Hall i item Hi) as (Hp & Hw & Hr).
    eapply Hone; eauto. }
  assert (Hlen2 : length (items done2) = length (items songs)).
  { clear -Hrun2. revert Hrun2. generalize (items done2), 0, env1, env2, t2.
    induction (items songs) as [|item l IH]; intros done index e1 e2 t Hs.
    - simpl in Hs. injection Hs as <- <- <-. reflexivity.
    - unfold steps in Hs. simpl in Hs.
      destruct (process_item _ _ _ _ _ _ f2 w2 index item e1) as [[e3 t3] [it|er]];
        [|discriminate].
      destruct (process_items _ _ _ _ _ _ f2 w2 (S index) l e3)
        as [[e4 t4] [d4|er]] eqn:E; [|discriminate].
      injection Hs as <- <- <-. simpl. f_equal. eapply IH. exact E. }
  split.
  - apply Forall_lookup. intros i item2 Hi2.
    assert (Hlt : i < length (items songs))
      by (rewrite <- Hlen2; eapply lookup_lt_Some; eauto).
    apply lookup_lt_is_Some in Hlt. destruct Hlt as [item Hi].
    destruct (Hevery i item Hi) as [Hd _]. rewrite Hd in Hi2.
    injection Hi2 as <-. reflexivity.
  - destruct (acquired t2) as [|k ks] eqn:Eacq; [reflexivity|]. exfalso.
    assert (Hk : In k (acquired t2)) by (rewrite Eacq; now left).
    pose proof (steps_acquired_below f2 w2 (items songs) 0 env1 env2 t2 _ Hrun2 k Hk)
      as Hlt.
    simpl in Hlt. apply lookup_lt_is_Some in Hlt. destruct Hlt as [item Hi].
    destruct (Hevery k item Hi) as [_ Hn]. apply Hn. now left.
Qed.

End Resume.

(** The second run over [two_songs], from the disk the first run left,
    downloads nothing. *)
Lemma downloadList_resumable_witness :
  acquired (snd (fst (run_sample two_songs (fst (fst (run_sample two_songs empty_env))))))
  = [].
Proof.
  destruct (run_sample two_songs empty_env) as [[env1 t1] r1] eqn:E1.
  destruct r1 as [done1|e]; [|vm_compute in E1; discriminate E1].
  simpl fst.
  destruct (run_sample two_songs env1) as [[env2 t2] r2] eqn:E2.
  assert (Hitems : map (fun item => (failed item, id item)) (items done1)
                   = [(Some false, "4uLU6hMCjMI75M1A2tKUQC");
                      (Some false, "7ouMYWpwJ422jRcDASZB7P")]).
  { vm_compute in E1. injection E1 as _ _ <-. reflexivity. }
  destruct r2 as [done2|e].
  2:{ exfalso. vm_compute in E1. injection E1 as <- _ _.
      vm_compute in E2. discriminate E2. }
  simpl.
  destruct (proj2 (proj2 (proj2
              (downloadList_resumable sample_path Cache.dirname_slash (fun p => p)
                 Cache.join_slash ".spdlcache" false)))
              no_faults eager_world no_faults eager_world two_songs
              empty_env env1 t1 done1 env2 t2 done2 E1 E2) as [_ Hall].
  - intros path content Hc. vm_compute in Hc. discriminate Hc.
  - repeat constructor.
  - apply Hall.
    + destruct (items done1) as [|a [|b [|c l]]]; try discriminate Hitems.
      injection Hitems as Ha _ Hb _. repeat constructor; assumption.
    + repeat constructor.
Defined.
End RunnerProofs.


Module PlannerProofs.
Import Merger Downloader Planner MergerProofs.
Local Open Scope Q_scope.

Lemma skipped_nil x : skipped [] x <-> False.
Proof. split; [intros (s & [] & _) | tauto]. Qed.

Lemma skipped_cons s l x :
  skipped (s :: l) x <-> (startTime s <= x /\ x < endTime s) \/ skipped l x.
Proof.
  unfold skipped; split.
  - intros (t & [<-|Ht] & Hx); [now left | right; eauto].
  - intros [Hx | (t & Ht & Hx)]; [exists s | exists t]; simpl; auto.
Qed.

Lemma skipped_In l l' x :
  (forall s, In s l <-> In s l') -> skipped l x <-> skipped l' x.
Proof.
  intros H. unfold skipped; split; intros (s & Hs & Hx); exists s;
    (split; [now apply H | exact Hx]).
Qed.

Lemma keeps_nil x : keeps [] x <-> False.
Proof. split; [intros (s & [] & _) | tauto]. Qed.

Lemma keeps_cons l f x : keeps (l :: f) x <-> line_keeps x l \/ keeps f x.
Proof.
  unfold keeps; split.
  - intros (t & [<-|Ht] & Hx); [now left | right; eauto].
  - intros [Hx | (t & Ht & Hx)]; [exists l | exists t]; simpl; auto.
Qed.

(** Widening the previous segment to swallow an overlapping one skips the
    same audio as the two of them. *)
Lemma skip_extend prev cur x :
  startTime prev <= startTime cur -> startTime cur < endTime prev ->
  (startTime prev <= x /\ x < js_max (endTime cur) (endTime prev))
  <-> (startTime prev <= x /\ x < endTime prev)
      \/ (startTime cur <= x /\ x < endTime cur).
Proof.
  intros H1 H2.
  destruct (js_max_cases (endTime cur) (endTime prev)) as [[Hm ->]|[Hm ->]].
  - split; [intros [? ?]; left; split; lra | intros [[? ?]|[? ?]]; split; lra].
  - split.
    + intros [Ha Hb].
      destruct (Qlt_le_dec x (endTime prev)); [left | right]; split; lra.
    + intros [[? ?]|[? ?]]; split; lra.
Qed.

(** One step of the reduction keeps the invariant of [merge_rev_invariant],
    skips what was skipped plus the new segment, and starts no segment
    where no input segment starts. *)
Lemma merge_step_rev_skipped racc cur rest :
  Forall (fun t => startTime cur <= startTime t) rest ->
  well_formed cur ->
  rsep racc -> Forall well_formed racc ->
  Forall (fun o => Forall (fun r => startTime o <= startTime r) (cur :: rest)) racc ->
  rsep (merge_step_rev racc cur) /\
  Forall well_formed (merge_step_rev racc cur) /\
  Forall (fun o => Forall (fun r => startTime o <= startTime r) rest)
         (merge_step_rev racc cur) /\
  (forall x, skipped (merge_step_rev racc cur) x
             <-> skipped racc x \/ (startTime cur <= x /\ x < endTime cur)) /\
  (forall s, In s (merge_step_rev racc cur) ->
             exists s', (In s' racc \/ s' = cur) /\ startTime s = startTime s').
Proof.
  intros Hcur Hwc Hsep Hwa Hle. unfold well_formed in Hwc.
  assert (Hle' : Forall (fun o => Forall (fun r => startTime o <= startTime r) rest) racc).
  { eapply List.Forall_impl; [|exact Hle]. simpl. intros o Ho. now inversion Ho. }
  destruct racc as [|prev older]; simpl.
  - split; [repeat constructor|]. split; [repeat constructor; exact Hwc|].
    split; [repeat constructor; exact Hcur|]. split.
    + intros x. rewrite skipped_cons, !skipped_nil. simpl. tauto.
    + intros s [<-|[]]. exists cur. split; [now right | reflexivity].
  - inversion Hle as [|? ? Hp Holder]; subst.
    inversion Hp as [|? ? Hpc Hprest]; subst.
    inversion Hle' as [|? ? Hp' Holder']; subst.
    inversion Hwa as [|? ? Hwp Hwo]; subst. unfold well_formed in Hwp.
    inversion Hsep as [|? ? Hso Hsep']; subst.
    destruct (Qgtb (endTime prev) (startTime cur)) eqn:E.
    + apply Qgtb_true in E.
      split; [constructor; assumption|]. split.
      { constructor; [|assumption]. unfold well_formed; simpl.
        destruct (js_max_cases (endTime cur) (endTime prev)) as [[? ->]|[? ->]]; lra. }
      split; [constructor; assumption|]. split.
      * intros x. rewrite !skipped_cons. simpl.
        rewrite skip_extend by lra. tauto.
      * intros s [<-|Hs]; simpl.
        -- exists prev. split; [left; now left | reflexivity].
        -- exists s. split; [left; now right | reflexivity].
    + apply Qgtb_false in E.
      split.
      { constructor; [|assumption].
        apply (rsep_ends_before prev older (mkSegment (startTime cur) (endTime cur)));
          assumption. }
      split; [constructor; assumption|].
      split; [constructor; assumption|]. split.
      * intros x. rewrite !skipped_cons. simpl. tauto.
      * intros s [<-|Hs]; simpl.
        -- exists cur. split; [now right | reflexivity].
        -- exists s. split; [now left | reflexivity].
Qed.

Lemma merge_rev_skipped rest : forall racc,
  start_sorted rest -> Forall well_formed rest ->
  rsep racc -> Forall well_formed racc ->
  Forall (fun o => Forall (fun r => startTime o <= startTime r) rest) racc ->
  (forall x, skipped (fold_left merge_step_rev rest racc) x
             <-> skipped racc x \/ skipped rest x) /\
  (forall s, In s (fold_left merge_step_rev rest racc) ->
             exists s', (In s' racc \/ In s' rest) /\ startTime s = startTime s').
Proof.
  induction rest as [|cur rest IH]; intros racc Hsorted Hwr Hsep Hwa Hle; simpl.
  - split.
    + intros x. rewrite skipped_nil. tauto.
    + intros s Hs. exists s. split; [now left | reflexivity].
  - inversion Hsorted as [|? ? Hcur Hsorted']; subst.
    inversion Hwr as [|? ? Hwc Hwr']; subst.
    destruct (merge_step_rev_skipped racc cur rest Hcur Hwc Hsep Hwa Hle)
      as (A & B & C & D & E).
    destruct (IH _ Hsorted' Hwr' A B C) as (F & G). split.
    + intros x. rewrite F, D, skipped_cons. tauto.
    + intros s Hs. destruct (G s Hs) as (s' & [Hin|Hin] & Heq).
      * destruct (E s' Hin) as (s'' & [Hin' | ->] & Heq').
        -- exists s''. split; [now left | congruence].
        -- exists cur. split; [right; now left | congruence].
      * exists s'. split; [right; now right | exact Heq].
Qed.

(** The merged list, for any well-formed input: ordered, well-formed,
    skipping the same audio, starting only where an input segment starts. *)
Lemma merge_segments_skipped segments :
  Forall well_formed segments ->
  separated (merge_segments segments) /\
  Forall well_formed (merge_segments segments) /\
  (forall x, skipped (merge_segments segments) x <-> skipped segments x) /\
  (forall s, In s (merge_segments segments) ->
             exists s', In s' segments /\ startTime s = startTime s').
Proof.
  intros Hw. unfold merge_segments.
  change (@nil Segment) with (rev (@nil Segment)) at 1 2 3 4.
  rewrite fold_merge_rev.
  assert (Hw' : Forall well_formed (js_sort by_start segments)).
  { apply List.Forall_forall. intros s Hs. apply js_sort_In in Hs.
    rewrite List.Forall_forall in Hw. now apply Hw. }
  destruct (merge_rev_invariant (js_sort by_start segments) []
              (js_sort_sorted segments) Hw' rsep_nil (List.Forall_nil _)
              (List.Forall_nil _)) as (A & B & _).
  destruct (merge_rev_skipped (js_sort by_start segments) []
              (js_sort_sorted segments) Hw' rsep_nil (List.Forall_nil _)
              (List.Forall_nil _)) as (C & D).
  split; [now apply rsep_separated|]. split; [now apply List.Forall_rev|]. split.
  - intros x.
    rewrite (skipped_In (rev _) (fold_left merge_step_rev (js_sort by_start segments) []))
      by (intros s; symmetry; apply in_rev).
    rewrite C, skipped_nil.
    rewrite (skipped_In (js_sort by_start segments) segments) by apply js_sort_In.
    tauto.
  - intros s Hs. apply in_rev in Hs. destruct (D s Hs) as (s' & [[]|Hin] & Heq).
    exists s'. split; [now apply js_sort_In in Hin | exact Heq].
Qed.


(** *** The filter graph *)

Lemma keeps_tail_empty n e m x :
  keeps [TrimFrom n e; Concat m] x <-> e <= x.
Proof. rewrite !keeps_cons, keeps_nil. simpl. tauto. Qed.

Lemma trims_keeps segments : forall i p n m x,
  separated segments -> Forall well_formed segments ->
  Forall (starts_at_or_after p) segments ->
  keeps (trims i p segments
         ++ [TrimFrom n (match last segments with
                         | Some lastSegment => endTime lastSegment
                         | None => p
                         end);
             Concat m]) x
  <-> p <= x /\ ~ skipped segments x.
Proof.
  induction segments as [|s r IH]; intros i p n m x Hsep Hw Hp.
  - simpl. rewrite keeps_tail_empty, skipped_nil. tauto.
  - inversion Hsep as [|? ? Hs Hsep']; subst.
    inversion Hw as [|? ? Hws Hw']; subst. unfold well_formed in Hws.
    inversion Hp as [|? ? Hps Hp']; subst. unfold starts_at_or_after in Hps.
    assert (Hlast : match last (s :: r) with
                    | Some l => endTime l | None => p end
                    = match last r with
                      | Some l => endTime l | None => endTime s end).
    { rewrite last_cons. now destruct (last r). }
    rewrite Hlast. simpl trims. rewrite <- app_comm_cons, keeps_cons.
    rewrite (IH (S i) (endTime s) n m x Hsep' Hw' Hs).
    rewrite skipped_cons. simpl. split.
    + intros [[Ha Hb]|[Ha Hb]].
      * split; [exact Ha|]. intros [[Hc Hd]|(t & Ht & Hc & Hd)]; [lra|].
        rewrite List.Forall_forall in Hs. specialize (Hs t Ht). simpl in Hs. lra.
      * split; [lra|]. intros [[Hc Hd]|Hr]; [lra | now apply Hb].
    + intros [Ha Hb].
      destruct (Qlt_le_dec x (startTime s)) as [Hlt|Hge]; [left; now split|].
      right. split.
      * apply Qnot_lt_le. intros Hlt. apply Hb. left. now split.
      * intros Hr. apply Hb. now right.
Qed.

Lemma labels_app f g : labels (f ++ g) = (labels f ++ labels g)%list.
Proof.
  induction f as [|[]]; simpl; [reflexivity| | |]; now rewrite ?IHf.
Qed.

Lemma concats_app f g : concats (f ++ g) = (concats f ++ concats g)%list.
Proof.
  induction f as [|[]]; simpl; [reflexivity| | |]; now rewrite ?IHf.
Qed.

Lemma trims_labels segments : forall i p,
  labels (trims i p segments) = seq i (length segments) /\
  concats (trims i p segments) = [].
Proof.
  induction segments as [|s r IH]; intros i p; simpl; [auto|].
  destruct (IH (S i) (endTime s)) as [-> ->]. auto.
Qed.

(** The merged list is empty only for an empty answer. *)
Lemma merge_segments_nil segments :
  Forall well_formed segments -> merge_segments segments = [] -> segments = [].
Proof.
  intros Hw He. destruct segments as [|s l]; [reflexivity|].
  destruct (merge_segments_skipped _ Hw) as (_ & _ & Hc & _).
  inversion Hw as [|? ? Hws _]; subst. unfold well_formed in Hws.
  assert (Hs : skipped (s :: l) (startTime s)).
  { exists s. split; [now left|]. split; [lra | exact Hws]. }
  apply Hc in Hs. rewrite He in Hs. now apply skipped_nil in Hs.
Qed.

(** X1: for segments with [0 <= startTime < endTime], the filter computed
    from the merged list keeps a timestamp exactly when it is not negative
    and no segment of the provider's answer skips it; its trim lines are
    labelled 0, 1, ..., n in order and its one concat line joins n + 1
    inputs, n the number of merged segments.  There is no filter exactly
    when the answer is empty. *)
Theorem build_filter_keeps_complement (segments : list Segment) :
  Forall well_formed segments ->
  Forall (starts_at_or_after 0) segments ->
  match build_filter (merge_segments segments) with
  | None => segments = []
  | Some f =>
      segments <> [] /\
      (forall x, keeps f x <-> 0 <= x /\ ~ skipped segments x) /\
      labels f = seq 0 (S (length (merge_segments segments))) /\
      concats f = [S (length (merge_segments segments))]
  end.
Proof.
  intros Hw Hp.
  destruct (merge_segments_skipped _ Hw) as (Hsep & Hwm & Hc & Hst).
  assert (Hpm : Forall (starts_at_or_after 0) (merge_segments segments)).
  { apply List.Forall_forall. intros s Hs. destruct (Hst s Hs) as (s' & Hin & Heq).
    rewrite List.Forall_forall in Hp. specialize (Hp s' Hin).
    unfold starts_at_or_after in *. now rewrite Heq. }
  unfold build_filter.
  destruct (last (merge_segments segments)) as [lastSegment|] eqn:El.
  - split; [intros ->; discriminate|]. split; [|split].
    + intros x.
      pose proof (trims_keeps (merge_segments segments) 0%nat 0
                    (length (merge_segments segments))
                    (length (merge_segments segments) + 1)%nat x Hsep Hwm Hpm) as H.
      rewrite El in H. rewrite H. now rewrite Hc.
    + rewrite labels_app. destruct (trims_labels (merge_segments segments) 0%nat 0) as [-> _].
      simpl labels. now rewrite seq_S.
    + rewrite concats_app. destruct (trims_labels (merge_segments segments) 0%nat 0) as [_ ->].
      simpl. now rewrite Nat.add_1_r.
  - apply merge_segments_nil; [exact Hw|].
    destruct (merge_segments segments) as [|s l] eqn:Em; [reflexivity|].
    exfalso. revert El. clear. revert s. induction l as [|t l IH]; intros s; [discriminate|].
    simpl. apply IH.
Qed.

Lemma build_filter_keeps_complement_witness :
  exists f,
    build_filter (merge_segments [mkSegment 10 20; mkSegment 15 25; mkSegment 40 50])
    = Some f /\
    (keeps f 30 <-> 0 <= 30 /\
       ~ skipped [mkSegment 10 20; mkSegment 15 25; mkSegment 40 50] 30).
Proof.
  assert (Hw : Forall well_formed [mkSegment 10 20; mkSegment 15 25; mkSegment 40 50])
    by (repeat constructor).
  assert (Hp : Forall (starts_at_or_after 0)
                 [mkSegment 10 20; mkSegment 15 25; mkSegment 40 50])
    by (repeat constructor; compute; discriminate).
  pose proof (build_filter_keeps_complement _ Hw Hp) as H.
  destruct (build_filter (merge_segments
              [mkSegment 10 20; mkSegment 15 25; mkSegment 40 50])) as [f|];
    [|discriminate].
  exists f. split; [reflexivity|]. exact (proj1 (proj2 H) 30).
Defined.

(** Without the start of the audio as a lower bound the filter is not the
    complement: a segment that starts before 0 moves the first trim's end
    before its start. *)
Example build_filter_negative_start :
  build_filter (merge_segments [mkSegment (-5) 3])
  = Some [Trim 0 0 (-5); TrimFrom 1 3; Concat 2].
Proof. reflexivity. Qed.

(** *** Merging what is already merged *)

Lemma sort_insert_head x y l :
  startTime x <= startTime y ->
  sort_insert by_start x (y :: l) = x :: y :: l.
Proof.
  intros H. simpl.
  assert (E : Qle_bool (by_start x y) 0 = true)
    by (apply Qle_bool_iff; unfold by_start; lra).
  now rewrite E.
Qed.

Lemma js_sort_sorted_id l :
  start_sorted l -> js_sort by_start l = l.
Proof.
  induction 1 as [|x l Hx Hs IH]; simpl; [reflexivity|].
  fold (js_sort by_start l). rewrite IH.
  destruct l as [|y l]; [reflexivity|].
  apply sort_insert_head. now inversion Hx.
Qed.

Lemma separated_start_sorted l :
  separated l -> Forall well_formed l -> start_sorted l.
Proof.
  induction 1 as [|s l Hs Hl IH]; intros Hw; [constructor|].
  inversion Hw as [|? ? Hws Hwl]; subst. unfold well_formed in Hws.
  constructor; [|now apply IH].
  eapply List.Forall_impl; [|exact Hs]. simpl. intros t Ht. lra.
Qed.

Lemma fold_merge_separated l : forall racc,
  separated l ->
  match racc with
  | prev :: _ => Forall (fun t => endTime prev <= startTime t) l
  | [] => True
  end ->
  fold_left merge_step_rev l racc = (rev l ++ racc)%list.
Proof.
  induction l as [|cur rest IH]; intros racc Hsep Hprev; [reflexivity|].
  inversion Hsep as [|? ? Hcur Hsep']; subst.
  assert (Hstep : merge_step_rev racc cur = cur :: racc).
  { destruct racc as [|prev older]; simpl.
    - now destruct cur.
    - inversion Hprev as [|? ? Hpc _]; subst.
      apply Qgtb_false in Hpc. rewrite Hpc. now destruct cur. }
  simpl fold_left. rewrite Hstep, IH by assumption.
  simpl. now rewrite <- app_assoc.
Qed.

Lemma sort_insert_length {A} (cmp : A -> A -> Q) x l :
  length (sort_insert cmp x l) = S (length l).
Proof.
  induction l as [|y l IH]; simpl; [reflexivity|].
  destruct (Qle_bool (cmp x y) 0); simpl; now rewrite ?IH.
Qed.

Lemma js_sort_length {A} (cmp : A -> A -> Q) (l : list A) :
  length (js_sort cmp l) = length l.
Proof.
  induction l as [|x l IH]; simpl; [reflexivity|].
  fold (js_sort cmp l). now rewrite sort_insert_length, IH.
Qed.

Lemma fold_merge_length l : forall racc,
  (length (fold_left merge_step_rev l racc) <= length l + length racc)%nat.
Proof.
  induction l as [|cur rest IH]; intros racc; simpl; [lia|].
  specialize (IH (merge_step_rev racc cur)).
  assert (length (merge_step_rev racc cur) <= S (length racc))%nat.
  { destruct racc as [|prev older]; simpl; [lia|].
    destruct (Qgtb (endTime prev) (startTime cur)); simpl; lia. }
  lia.
Qed.

(** X2: merging never lengthens the list; a list that is already in order
    without overlap comes back unchanged; so merging a merged list changes
    nothing. *)
Theorem merge_segments_idempotent (segments : list Segment) :
  Forall well_formed segments ->
  (length (merge_segments segments) <= length segments)%nat /\
  (separated segments -> merge_segments segments = segments) /\
  merge_segments (merge_segments segments) = merge_segments segments.
Proof.
  intros Hw.
  assert (Hfix : forall l, Forall well_formed l -> separated l -> merge_segments l = l).
  { intros l Hwl Hsep. unfold merge_segments.
    rewrite (js_sort_sorted_id l) by now apply separated_start_sorted.
    change (@nil Segment) with (rev (@nil Segment)).
    rewrite fold_merge_rev, (fold_merge_separated l []) by auto.
    now rewrite app_nil_r, rev_involutive. }
  split; [|split].
  - unfold merge_segments. change (@nil Segment) with (rev (@nil Segment)).
    rewrite fold_merge_rev, length_rev.
    pose proof (fold_merge_length (js_sort by_start segments) []) as H.
    rewrite js_sort_length in H. simpl in H. lia.
  - now apply Hfix.
  - destruct (merge_segments_skipped _ Hw) as (Hsep & Hwm & _).
    now apply Hfix.
Qed.

Lemma merge_segments_idempotent_witness :
  merge_segments (merge_segments [mkSegment 10 20; mkSegment 15 25; mkSegment 40 50])
  = merge_segments [mkSegment 10 20; mkSegment 15 25; mkSegment 40 50].
Proof.
  apply (merge_segments_idempotent
           [mkSegment 10 20; mkSegment 15 25; mkSegment 40 50]).
  repeat constructor.
Defined.
End PlannerProofs.


Module DownloaderEdgeProofs.
Import Merger Downloader DownloaderProofs.

Lemma download_loop_invalid w tried : forall n bad rest,
  Forall (parses w) tried ->
  (forall i link, tried !! i = Some link -> fails w (n + i) link) ->
  parseUrl w bad = InvalidUrl ->
  is_returned (snd (download_loop w n (tried ++ bad :: rest))) = false /\
  transcode_events (fst (download_loop w n (tried ++ bad :: rest)))
  = calls_for w n tried.
Proof.
  induction tried as [|link tried IH]; intros n bad rest Hp Hf Hbad.
  - simpl. unfold sponsorComplexFilter. rewrite Hbad. simpl. auto.
  - inversion Hp as [|? ? Hl Hr]; subst.
    destruct (sponsorComplexFilter_parses w n link Hl) as (t & Ht & Hnone).
    simpl. rewrite Ht.
    assert (Hfail : fails w n link).
    { specialize (Hf 0%nat link eq_refl). now rewrite Nat.add_0_r in Hf. }
    unfold fails in Hfail.
    destruct (transcode w n link (plan w n link)) as [[]|e]; [discriminate|].
    destruct (IH (S n) bad rest Hr) as [A B]; [|exact Hbad|].
    { intros i l Hi. specialize (Hf (S i) l Hi). now rewrite Nat.add_succ_r in Hf. }
    destruct (download_loop w (S n) (tried ++ bad :: rest)) as [t'' r].
    simpl in *. split; [exact A|].
    now rewrite !transcode_events_app, Hnone, B.
Qed.

(** X3: a candidate that [new URL] rejects is not skipped: when the
    candidates before it have all failed to transcode, the call throws
    at that candidate, after exactly the transcoder calls for the earlier
    ones, and the candidates after it are never tried. *)
Theorem downloader_throws_at_invalid_url
    (w : World) (tried : list string) (bad : string) (rest : list string) :
  Forall (parses w) tried ->
  (forall i link, tried !! i = Some link -> fails w i link) ->
  parseUrl w bad = InvalidUrl ->
  is_returned (snd (downloader w (tried ++ bad :: rest))) = false /\
  transcode_events (fst (downloader w (tried ++ bad :: rest)))
  = calls_for w 0 tried.
Proof.
  intros Hp Hf Hbad.
  replace (downloader w (tried ++ bad :: rest))
    with (download_loop w 0 (tried ++ bad :: rest))
    by (destruct tried; reflexivity).
  now apply download_loop_invalid.
Qed.

Lemma downloader_throws_at_invalid_url_witness :
  is_returned
    (snd (downloader sample_world
            (["https://youtube.com/watch?v=a"] ++
             "youtube" :: ["https://youtube.com/watch?v=c"]))) = false.
Proof.
  apply (downloader_throws_at_invalid_url sample_world
           ["https://youtube.com/watch?v=a"] "youtube"
           ["https://youtube.com/watch?v=c"]).
  - repeat constructor. discriminate.
  - intros [|i] link H; [|destruct i; discriminate].
    injection H as <-. reflexivity.
  - reflexivity.
Defined.

End DownloaderEdgeProofs.


Module CatalogProofs.
Import Catalog.

(** *** [chunkArray] *)

Lemma slice_length {A} (array : list A) i size :
  length (slice array i (i + size)) = Nat.min size (length array - i).
Proof.
  unfold slice. replace (i + size - i) with size by lia.
  now rewrite length_firstn, length_skipn.
Qed.

Lemma slice_skipn {A} (array : list A) i size :
  slice array i (i + size) ++ skipn (i + size) array = skipn i array.
Proof.
  unfold slice. replace (i + size - i) with size by lia.
  rewrite Nat.add_comm, <- skipn_skipn. apply firstn_skipn.
Qed.

Lemma chunk_loop_spec {A} (array : list A) size :
  0 < size ->
  forall fuel i, length array - i <= fuel ->
  exists chunks,
    chunk_loop fuel array size i = Some chunks /\
    concat chunks = skipn i array /\
    Forall (fun c => 0 < length c <= size) chunks /\
    (forall k c, chunks !! k = Some c -> S k < length chunks -> length c = size) /\
    length array - i <= length chunks * size < length array - i + size.
Proof.
  intros Hsize. induction fuel as [|fuel IH]; intros i Hfuel.
  - exists []. simpl.
    assert (E : Nat.ltb i (length array) = false) by (apply Nat.ltb_ge; lia).
    rewrite E. rewrite skipn_all2 by lia.
    split; [reflexivity|]. split; [reflexivity|]. split; [constructor|].
    split; [intros k c H; discriminate | simpl; lia].
  - simpl. destruct (Nat.ltb i (length array)) eqn:E.
    + apply Nat.ltb_lt in E.
      destruct (IH (i + size)) as (chunks & -> & Hcat & Hall & Hfull & Hnum); [lia|].
      exists (slice array i (i + size) :: chunks).
      split; [reflexivity|]. split; [simpl; rewrite Hcat; apply slice_skipn|].
      split; [constructor; [rewrite slice_length; lia | exact Hall]|].
      split.
      * intros [|k] c Hk Hlen; simpl in Hk, Hlen.
        -- injection Hk as <-. rewrite slice_length.
           destruct chunks; simpl in *; [lia|]. nia.
        -- apply (Hfull k c Hk). lia.
      * simpl length. remember (length chunks) as n.
        destruct (le_lt_dec size (length array - i)) as [Hle|Hlt].
        -- replace (length array - (i + size)) with (length array - i - size) in Hnum by lia.
           nia.
        -- replace (length array - (i + size)) with 0 in Hnum by lia.
           assert (n = 0) by nia. subst n. simpl. lia.
    + apply Nat.ltb_ge in E. exists []. rewrite skipn_all2 by lia.
      split; [reflexivity|]. split; [reflexivity|]. split; [constructor|].
      split; [intros k c H; discriminate | simpl; lia].
Qed.

Lemma chunk_loop_zero {A} (array : list A) i :
  i < length array -> forall fuel, chunk_loop fuel array 0 i = None.
Proof.
  intros Hi. apply Nat.ltb_lt in Hi.
  induction fuel as [|fuel IH]; simpl; rewrite Hi; [reflexivity|].
  now rewrite Nat.add_0_r, IH.
Qed.

Lemma chunkArray_chunks {A} (array : list A) (size : nat) :
  (0 < size ->
   forall fuel, length array <= fuel ->
   exists chunks,
     chunkArray fuel array size = Some chunks /\
     concat chunks = array /\
     Forall (fun c => 0 < length c <= size) chunks /\
     (forall k c, chunks !! k = Some c -> S k < length chunks -> length c = size) /\
     length array <= length chunks * size < length array + size) /\
  (size = 0 -> array <> [] -> forall fuel, chunkArray fuel array size = None).
Proof.
  split.
  - intros Hsize fuel Hfuel.
    destruct (chunk_loop_spec array size Hsize fuel 0) as (chunks & H); [lia|].
    exists chunks. now rewrite Nat.sub_0_r in H.
  - intros -> Hne fuel. apply chunk_loop_zero.
    destruct array; [congruence | simpl; lia].
Qed.

(** X4: with a positive size and as many loop turns as the array has
    elements, [chunkArray] returns chunks that concatenate to the array;
    no chunk is empty or longer than the size, every chunk but the last
    has exactly the size, and there are as many chunks as the length
    divided by the size, rounded up.  With size 0 and a non-empty array
    the loop never ends. *)
Theorem chunkArray_partitions {A} (array : list A) (size : nat) :
  (0 < size ->
   forall fuel, length array <= fuel ->
   exists chunks,
     chunkArray fuel array size = Some chunks /\
     concat chunks = array /\
     Forall (fun c => 0 < length c <= size) chunks /\
     (forall k c, chunks !! k = Some c -> S k < length chunks -> length c = size) /\
     length array <= length chunks * size < length array + size) /\
  (size = 0 -> array <> [] -> forall fuel, chunkArray fuel array size = None).
Proof. exact (chunkArray_chunks array size). Qed.

Lemma chunkArray_partitions_witness :
  exists chunks,
    chunkArray 5 [1; 2; 3; 4; 5] 2 = Some chunks /\ concat chunks = [1; 2; 3; 4; 5].
Proof.
  destruct (proj1 (chunkArray_partitions [1; 2; 3; 4; 5] 2)
              ltac:(lia) 5 ltac:(simpl; lia))
    as (chunks & H1 & H2 & _).
  exists chunks. split; assumption.
Defined.

Example chunkArray_five_by_two :
  chunkArray 5 [1; 2; 3; 4; 5] 2 = Some [[1; 2]; [3; 4]; [5]].
Proof. reflexivity. Qed.


(** *** The paging loop *)

Lemma firstn_slice {A} (l : list A) offset size :
  firstn offset l ++ slice l offset (offset + size) = firstn (offset + size) l.
Proof.
  unfold slice. replace (offset + size - offset) with size by lia.
  revert l. induction offset as [|offset IH]; intros l; simpl; [reflexivity|].
  destruct l as [|x l]; simpl.
  - now rewrite firstn_nil.
  - now rewrite IH.
Qed.

Lemma page_loop_serves {A} limit (getPage : nat -> nat -> result (Page A)) collection :
  0 < limit -> serves limit getPage collection ->
  forall fuel request offset,
    length collection - offset <= fuel -> 1 <= fuel ->
    exists n,
      page_loop limit fuel getPage request (firstn offset collection) offset
      = (map (fun k => offset + k * limit) (seq 0 n), Some (Returned collection)) /\
      1 <= n /\ length collection - offset <= n * limit /\
      (n = 1 \/ (n - 1) * limit < length collection - offset).
Proof.
  intros Hlimit Hserves. induction fuel as [|fuel IH]; intros request offset Hfuel H1; [lia|].
  simpl. rewrite Hserves. simpl items. simpl total. rewrite firstn_slice.
  rewrite length_firstn.
  destruct (Z.ltb_spec (Z.of_nat (Nat.min (offset + limit) (length collection)))
              (Z.of_nat (length collection))) as [Hlt|Hge].
  - assert (Hmore : offset + limit < length collection) by lia.
    destruct (IH (S request) (offset + limit)) as (n & -> & Hn & Hcover & Hleast);
      [lia | lia |].
    exists (S n). split; [|split; [lia|split]].
    + f_equal. simpl. f_equal; [lia|].
      rewrite <- seq_shift, map_map. apply map_ext. intros k. simpl. lia.
    + simpl. lia.
    + right. simpl. rewrite Nat.sub_0_r.
      destruct Hleast as [->|Hleast]; [simpl; lia|].
      destruct n as [|n]; [lia|]. simpl in *. rewrite Nat.sub_0_r in Hleast. lia.
  - exists 1. rewrite firstn_all2 by lia. simpl.
    split; [now rewrite Nat.add_0_r|]. split; [lia|]. split; [lia | now left].
Qed.

(** X5: against a provider that serves the pages of one collection and
    reports its true size, the paging loop returns exactly that
    collection, in order; it requests the offsets 0, limit, 2 limit, ...
    one after the other, at least one page even for an empty collection,
    and no page that starts at or after the end of the collection. *)
Theorem page_loop_collects {A} (limit : nat)
    (getPage : nat -> nat -> result (Page A)) (collection : list A) (fuel : nat) :
  0 < limit -> serves limit getPage collection ->
  S (length collection) <= fuel ->
  exists n,
    page_loop limit fuel getPage 0 [] 0
    = (map (fun k => k * limit) (seq 0 n), Some (Returned collection)) /\
    1 <= n /\ length collection <= n * limit /\
    (n = 1 \/ (n - 1) * limit < length collection).
Proof.
  intros Hlimit Hserves Hfuel.
  destruct (page_loop_serves limit getPage collection Hlimit Hserves fuel 0 0)
    as (n & H & Hn & Hcover & Hleast); [lia | lia |].
  exists n. simpl in H. rewrite Nat.sub_0_r in *. auto.
Qed.

Lemma page_loop_collects_witness :
  exists n,
    page_loop 2 4
      (fun _ offset => Returned (mkPage (slice ["a"; "b"; "c"] offset (offset + 2)) 3))
      0 [] 0
    = (map (fun k => k * 2) (seq 0 n), Some (Returned ["a"; "b"; "c"])).
Proof.
  destruct (page_loop_collects 2
              (fun _ offset => Returned (mkPage (slice ["a"; "b"; "c"] offset (offset + 2)) 3))
              ["a"; "b"; "c"] 4 ltac:(lia) ltac:(intros r o; reflexivity)
              ltac:(simpl; lia)) as (n & H & _).
  exists n. exact H.
Defined.

Lemma page_loop_overreports {A} limit (getPage : nat -> nat -> result (Page A))
    collection :
  overreports limit getPage collection ->
  forall fuel request offset,
    snd (page_loop limit fuel getPage request (firstn offset collection) offset) = None /\
    length (fst (page_loop limit fuel getPage request (firstn offset collection) offset))
    = fuel.
Proof.
  intros (reported & Hmore & Hserves).
  induction fuel as [|fuel IH]; intros request offset; [auto|].
  simpl. rewrite Hserves. simpl items. simpl total. rewrite firstn_slice.
  assert (Hlen : length (firstn (offset + limit) collection) <= length collection)
    by (rewrite length_firstn; lia).
  destruct (Z.ltb_spec (Z.of_nat (length (firstn (offset + limit) collection)))
              reported) as [Hlt|Hge]; [|lia].
  specialize (IH (S request) (offset + limit)).
  destruct (page_loop limit fuel getPage (S request)
              (firstn (offset + limit) collection) (offset + limit)) as [t r].
  simpl in *. destruct IH as [-> ->]. auto.
Qed.

(** X6: when the provider reports more items than it ever serves, the
    paging loop does not end: whatever the number of turns allowed, it has
    not returned and has made one request per turn. *)
Theorem page_loop_never_ends {A} (limit : nat)
    (getPage : nat -> nat -> result (Page A)) (collection : list A) :
  overreports limit getPage collection ->
  forall fuel,
    snd (page_loop limit fuel getPage 0 [] 0) = None /\
    length (fst (page_loop limit fuel getPage 0 [] 0)) = fuel.
Proof.
  intros H fuel.
  exact (page_loop_overreports limit getPage collection H fuel 0 0).
Qed.

Lemma page_loop_never_ends_witness :
  snd (page_loop 50 7
         (fun _ offset => Returned (mkPage (slice ["a"; "b"] offset (offset + 50)) 3))
         0 [] 0) = None.
Proof.
  apply (page_loop_never_ends 50
           (fun _ offset => Returned (mkPage (slice ["a"; "b"] offset (offset + 50)) 3))
           ["a"; "b"]).
  exists 3%Z. split; [simpl; lia | intros r o; reflexivity].
Defined.

(** *** Chunked extraction *)

Lemma gather_by_id {A} (call : nat -> list string -> result (list (option A))) lookup :
  answers_by_id call lookup ->
  forall chunks x,
    gather call x chunks = (chunks, Returned (map lookup (concat chunks))).
Proof.
  intros Hcall. induction chunks as [|chunk rest IH]; intros x; simpl; [reflexivity|].
  rewrite Hcall, IH. now rewrite map_app.
Qed.

Lemma non_null_map_length {A} (lookup : string -> option A) ids :
  length (non_null (map lookup ids)) <= length ids.
Proof.
  induction ids as [|i ids IH]; simpl; [lia|].
  destruct (lookup i); simpl; lia.
Qed.

Lemma non_null_In {A} (l : list (option A)) a :
  In a (non_null l) <-> In (Some a) l.
Proof.
  induction l as [|[b|] l IH]; simpl; [tauto| |].
  - rewrite IH. split; intros [H|H]; auto; left; congruence.
  - rewrite IH. split; [auto | intros [H|H]; [discriminate | exact H]].
Qed.

(** Looking a track's feature up in the answers for a list of ids that
    holds the track's id finds the provider's feature for that id. *)
Lemma find_feature featureOf ids i :
  (forall j f, featureOf j = Some f -> feature_id f = j) ->
  In i ids ->
  find (fun feature => String.eqb (feature_id feature) i)
       (non_null (map featureOf ids))
  = featureOf i.
Proof.
  intros Hid. induction ids as [|j ids IH]; intros Hin; [destruct Hin|].
  simpl. destruct (featureOf j) as [f|] eqn:Ej; simpl.
  - destruct (String.eqb_spec (feature_id f) i) as [He|Hne].
    + rewrite (Hid j f Ej) in He. now subst j.
    + destruct Hin as [->|Hin]; [|now apply IH].
      now rewrite (Hid i f Ej) in Hne.
  - destruct Hin as [->|Hin]; [|now apply IH].
    destruct (in_dec string_dec i ids) as [Hi|Hi]; [now apply IH|].
    rewrite Ej. clear IH. induction ids as [|k ids IH]; [reflexivity|].
    simpl. destruct (featureOf k) as [g|] eqn:Ek; simpl.
    + destruct (String.eqb_spec (feature_id g) i) as [He|Hne].
      * exfalso. apply Hi. left. now rewrite <- (Hid k g Ek).
      * apply IH. intros H. apply Hi. now right.
    + apply IH. intros H. apply Hi. now right.
Qed.

Lemma parseTrack_feature featureOf ids track :
  (forall j f, featureOf j = Some f -> feature_id f = j) ->
  In (track_id track) ids ->
  parseTrack track (non_null (map featureOf ids)) = song_of featureOf track.
Proof.
  intros Hid Hin. unfold song_of, parseTrack.
  rewrite (find_feature featureOf ids (track_id track) Hid Hin).
  destruct (featureOf (track_id track)) as [f|] eqn:E; simpl; [|reflexivity].
  rewrite (Hid _ _ E), String.eqb_refl. reflexivity.
Qed.

Lemma extractTrackAudioFeatures_by_id limit w featureOf fuel ids :
  0 < limit ->
  answers_by_id (getAudioFeaturesForTracks w) featureOf ->
  length ids <= fuel ->
  exists chunks,
    extractTrackAudioFeatures limit w fuel ids
    = (map ReqFeatures chunks, Some (Returned (non_null (map featureOf ids)))) /\
    concat chunks = ids /\
    Forall (fun c => 0 < length c <= limit) chunks.
Proof.
  intros Hmax Hfeatures Hfuel.
  destruct ids as [|i0 ids0].
  { exists []. simpl. repeat split; constructor. }
  unfold extractTrackAudioFeatures. cbv iota.
  destruct (proj1 (chunkArray_chunks (i0 :: ids0) limit) Hmax fuel Hfuel)
    as (chunks & -> & Hcat & Hsizes & _).
  rewrite (gather_by_id _ _ Hfeatures), Hcat.
  exists chunks. auto.
Qed.

Lemma extractTracks_answers (MAX_LIMIT_DEFAULT : nat) (w : World)
    (trackOf : string -> option SpotifyTrack)
    (featureOf : string -> option AudioFeature)
    (fuel : nat) (trackIds : list string) :
  0 < MAX_LIMIT_DEFAULT ->
  answers_by_id (getTracks w) trackOf ->
  answers_by_id (getAudioFeaturesForTracks w) featureOf ->
  (forall j f, featureOf j = Some f -> feature_id f = j) ->
  length trackIds <= fuel ->
  exists chunkedTracks chunkedFeatures,
    extractTracks MAX_LIMIT_DEFAULT w fuel trackIds
    = (map ReqTracks chunkedTracks ++ map ReqFeatures chunkedFeatures,
       Some (Returned (map (song_of featureOf) (non_null (map trackOf trackIds))))) /\
    concat chunkedTracks = trackIds /\
    Forall (fun c => 0 < length c <= 20) chunkedTracks /\
    concat chunkedFeatures = map track_id (non_null (map trackOf trackIds)) /\
    Forall (fun c => 0 < length c <= MAX_LIMIT_DEFAULT) chunkedFeatures.
Proof.
  intros Hmax Htracks Hfeatures Hid Hfuel.
  destruct trackIds as [|i0 ids0].
  { exists [], []. simpl. repeat split; constructor. }
  unfold extractTracks. cbv iota.
  remember (i0 :: ids0) as trackIds eqn:Eids.
  destruct (proj1 (chunkArray_chunks trackIds 20) ltac:(lia) fuel Hfuel)
    as (chunkedTracks & -> & Hcat & Hsizes & _).
  rewrite (gather_by_id _ _ Htracks), Hcat.
  set (found := non_null (map trackOf trackIds)).
  assert (Hlen : length (map track_id found) <= fuel).
  { rewrite length_map. subst found.
    pose proof (non_null_map_length trackOf trackIds). lia. }
  destruct (extractTrackAudioFeatures_by_id MAX_LIMIT_DEFAULT w featureOf fuel
              (map track_id found) Hmax Hfeatures Hlen)
    as (chunkedFeatures & Hf & Hcat' & Hsizes').
  destruct found as [|t0 found0] eqn:Efound.
  { exists chunkedTracks, []. simpl. rewrite app_nil_r.
    repeat split; auto; constructor. }
  rewrite <- Efound in *. rewrite Hf.
  exists chunkedTracks, chunkedFeatures.
  split; [|auto]. f_equal. f_equal. f_equal.
  apply map_ext_in. intros t Ht.
  apply parseTrack_feature; [exact Hid|]. now apply in_map.
Qed.

(** X7: when the provider answers requests for tracks and for audio
    features id by id, [extractTracks] returns one song per id the
    provider knows, in the order of the ids, each with the tempo the
    provider has for it, however the ids fall into chunks; every id is
    asked for once, in order, at most 20 tracks and at most
    [MAX_LIMIT_DEFAULT] features per request, the track requests first. *)
Theorem extractTracks_by_id (MAX_LIMIT_DEFAULT : nat) (w : World)
    (trackOf : string -> option SpotifyTrack)
    (featureOf : string -> option AudioFeature)
    (fuel : nat) (trackIds : list string) :
  0 < MAX_LIMIT_DEFAULT ->
  answers_by_id (getTracks w) trackOf ->
  answers_by_id (getAudioFeaturesForTracks w) featureOf ->
  (forall j f, featureOf j = Some f -> feature_id f = j) ->
  length trackIds <= fuel ->
  exists chunkedTracks chunkedFeatures,
    extractTracks MAX_LIMIT_DEFAULT w fuel trackIds
    = (map ReqTracks chunkedTracks ++ map ReqFeatures chunkedFeatures,
       Some (Returned (map (song_of featureOf) (non_null (map trackOf trackIds))))) /\
    concat chunkedTracks = trackIds /\
    Forall (fun c => 0 < length c <= 20) chunkedTracks /\
    concat chunkedFeatures = map track_id (non_null (map trackOf trackIds)) /\
    Forall (fun c => 0 < length c <= MAX_LIMIT_DEFAULT) chunkedFeatures.
Proof. exact (extractTracks_answers MAX_LIMIT_DEFAULT w trackOf featureOf fuel trackIds). Qed.

Lemma extractTracks_by_id_witness :
  exists chunkedTracks chunkedFeatures,
    extractTracks 50 sample_world 3 ["t1"; "unknown"; "t2"]
    = (map ReqTracks chunkedTracks ++ map ReqFeatures chunkedFeatures,
       Some (Returned (map (song_of sample_feature)
                           (non_null (map sample_track ["t1"; "unknown"; "t2"]))))).
Proof.
  destruct (extractTracks_by_id 50 sample_world sample_track sample_feature 3
              ["t1"; "unknown"; "t2"])
    as (c1 & c2 & H & _).
  - lia.
  - intros x ids. reflexivity.
  - intros x ids. reflexivity.
  - intros j f. unfold sample_feature.
    destruct (String.eqb j "t2"); [discriminate|]. now intros [= <-].
  - simpl. lia.
  - exists c1, c2. exact H.
Defined.

Example extractTracks_sample :
  snd (extractTracks 50 sample_world 3 ["t1"; "unknown"; "t2"])
  = Some (Returned
      [ {| name := "Song t1"; bpm := Some 120%Q; popularity := 50;
           artists := ["Artist"]; album_name := "Album";
           release_date := "2020-01-02"; track_number := 1; total_tracks := 10;
           cover_url := None; id := "t1" |};
        {| name := "Song t2"; bpm := None; popularity := 50;
           artists := ["Artist"]; album_name := "Album";
           release_date := "2020-01-02"; track_number := 1; total_tracks := 10;
           cover_url := None; id := "t2" |} ]).
Proof. reflexivity. Qed.

Lemma gather_answers {A B} (call : nat -> list A -> result (list B)) f :
  (forall x chunk, call x chunk = Returned (f chunk)) ->
  forall chunks x,
    gather call x chunks = (chunks, Returned (concat (map f chunks))).
Proof.
  intros Hcall. induction chunks as [|chunk rest IH]; intros x; simpl; [reflexivity|].
  now rewrite Hcall, IH.
Qed.

Lemma non_null_app {A} (l1 l2 : list (option A)) :
  non_null (l1 ++ l2) = non_null l1 ++ non_null l2.
Proof.
  induction l1 as [|[a|] l1 IH]; simpl; [reflexivity| |]; now rewrite ?IH.
Qed.

Lemma non_null_chunks {A} (lookup : string -> option A) chunks :
  concat (map (fun chunk => non_null (map lookup chunk)) chunks)
  = non_null (map lookup (concat chunks)).
Proof.
  induction chunks as [|c chunks IH]; simpl; [reflexivity|].
  now rewrite map_app, non_null_app, IH.
Qed.

(** X8: when the provider answers requests for episodes id by id,
    [extractEpisodes] returns one song per id the provider knows, in the
    order of the ids, and numbers them 1, 2, 3, ... by their place in
    the returned list: an id the provider does not know takes no number,
    and the numbering runs on across the chunks of 20. *)
Theorem extractEpisodes_numbered (w : World)
    (episodeOf : string -> option SpotifyEpisode)
    (fuel : nat) (episodeIds : list string) :
  answers_by_id (getEpisodes w) episodeOf ->
  length episodeIds <= fuel ->
  exists songs,
    snd (extractEpisodes w fuel episodeIds) = Some (Returned songs) /\
    songs = imap (fun index episode => parseEpisode episode index)
                 (non_null (map episodeOf episodeIds)) /\
    forall k song, songs !! k = Some song -> track_number song = (Z.of_nat k + 1)%Z.
Proof.
  intros Hcall Hfuel.
  exists (imap (fun index episode => parseEpisode episode index)
               (non_null (map episodeOf episodeIds))).
  split; [|split; [reflexivity|]].
  - destruct episodeIds as [|i0 ids0]; [reflexivity|].
    unfold extractEpisodes. cbv iota.
    destruct (proj1 (chunkArray_chunks (i0 :: ids0) 20) ltac:(lia) fuel Hfuel)
      as (chunks & -> & Hcat & _).
    rewrite (gather_answers _ (fun chunk => non_null (map episodeOf chunk)))
      by (intros x chunk; now rewrite Hcall).
    now rewrite non_null_chunks, Hcat.
  - intros k song Hk. rewrite list_lookup_imap in Hk.
    destruct (non_null (map episodeOf episodeIds) !! k) as [e|]; [|discriminate].
    now injection Hk as <-.
Qed.

Lemma extractEpisodes_numbered_witness :
  exists songs,
    snd (extractEpisodes sample_world 3 ["e1"; "unknown"; "e2"]) = Some (Returned songs) /\
    forall k song, songs !! k = Some song -> track_number song = (Z.of_nat k + 1)%Z.
Proof.
  destruct (extractEpisodes_numbered sample_world sample_episode 3
              ["e1"; "unknown"; "e2"])
    as (songs & H1 & _ & H2).
  - intros x ids. reflexivity.
  - simpl. lia.
  - exists songs. split; assumption.
Defined.

Example extractEpisodes_sample :
  option_map (fun r => match r with
                       | Returned songs => map (fun s => (id s, track_number s)) songs
                       | Threw _ => []
                       end)
             (snd (extractEpisodes sample_world 3 ["e1"; "unknown"; "e2"]))
  = Some [("e1", 1%Z); ("e2", 2%Z)].
Proof. reflexivity. Qed.
End CatalogProofs.


Module FiltersProofs.
Import JsString Filters JsStringProofs.
Local Open Scope string_scope.

Lemma cleanOutputPath_remove_all output :
  cleanOutputPath output = remove_all is_reserved output.
Proof. now destruct output. Qed.

Lemma remove_all_has_char class c s :
  has_char c (remove_all class s) = has_char c s && negb (class c).
Proof.
  induction s as [|d s IH]; simpl; [reflexivity|].
  destruct (class d) eqn:Ed; simpl; rewrite IH.
  - destruct (Ascii.eqb_spec d c) as [->|Hne]; simpl; [|reflexivity].
    rewrite Ed. simpl. now rewrite andb_false_r.
  - destruct (Ascii.eqb_spec d c) as [->|Hne]; simpl; [|reflexivity].
    now rewrite Ed.
Qed.

Lemma remove_all_idempotent class s :
  remove_all class (remove_all class s) = remove_all class s.
Proof.
  induction s as [|d s IH]; simpl; [reflexivity|].
  destruct (class d) eqn:Ed; simpl; [exact IH|]. now rewrite Ed, IH.
Qed.

Lemma remove_all_app class a b :
  remove_all class (a ++ b) = remove_all class a ++ remove_all class b.
Proof.
  induction a as [|d a IH]; [reflexivity|].
  rewrite append_cons. simpl. destruct (class d); rewrite IH; reflexivity.
Qed.

(** X9: a character occurs in the cleaned text exactly when it occurs in
    the given text and is none of the reserved characters; cleaning a
    cleaned text changes nothing; cleaning a concatenation is
    concatenating the cleaned parts. *)
Theorem cleanOutputPath_removes_reserved (output : string) :
  (forall c, has_char c (cleanOutputPath output)
             = has_char c output && negb (is_reserved c)) /\
  cleanOutputPath (cleanOutputPath output) = cleanOutputPath output /\
  (forall rest, cleanOutputPath (output ++ rest)
                = cleanOutputPath output ++ cleanOutputPath rest).
Proof.
  split; [|split].
  - intros c. rewrite cleanOutputPath_remove_all. apply remove_all_has_char.
  - rewrite !cleanOutputPath_remove_all. apply remove_all_idempotent.
  - intros rest. rewrite !cleanOutputPath_remove_all. apply remove_all_app.
Qed.

Example cleanOutputPath_sample :
  cleanOutputPath "AC/DC: Who Made Who? (../etc)" = "ACDC Who Made Who (etc)".
Proof. reflexivity. Qed.

Lemma split_head sep s :
  exists piece pieces,
    split sep s = piece :: pieces /\
    has_char sep piece = false /\
    ((pieces = [] /\ s = piece) \/
     (exists rest, s = piece ++ String sep rest)).
Proof.
  induction s as [|c s IH]; simpl.
  - exists EmptyString, []. repeat split. now left.
  - destruct (Ascii.eqb_spec c sep) as [->|Hne].
    + exists EmptyString, (split sep s). repeat split. right. now exists s.
    + destruct IH as (piece & pieces & -> & Hfree & Hs).
      exists (String c piece), pieces. split; [reflexivity|]. split.
      * simpl. rewrite Hfree. now apply Ascii.eqb_neq in Hne as ->.
      * destruct Hs as [[-> ->]|(rest & ->)]; [now left|].
        right. now exists rest.
Qed.

(** X10: [removeQuery] returns the text before the first question mark:
    the result holds no question mark, the URL is the result alone or the
    result followed by a question mark and more, and a URL without a
    question mark comes back unchanged. *)
Theorem removeQuery_before_first_mark (url : string) :
  has_char "?" (removeQuery url) = false /\
  (url = removeQuery url \/
   exists query, url = removeQuery url ++ String "?" query) /\
  (has_char "?" url = false -> removeQuery url = url).
Proof.
  unfold removeQuery. destruct url as [|c url]; [simpl; auto|].
  cbv beta iota delta [truthy].
  destruct (split_head "?" (String c url)) as (piece & pieces & E & Hfree & Hs).
  rewrite E. simpl hd. split; [exact Hfree|]. split.
  - destruct Hs as [[_ H]|(rest & H)]; [now left | right; now exists rest].
  - intros Hno. rewrite (split_no_sep _ _ Hno) in E. now injection E as <-.
Qed.

Example removeQuery_sample :
  removeQuery "https://open.spotify.com/track/4uLU6h?si=abc?x" =
  "https://open.spotify.com/track/4uLU6h".
Proof. reflexivity. Qed.

Lemma split_join sep parts :
  Forall (fun p => has_char sep p = false) parts -> parts <> [] ->
  split sep (join (String sep EmptyString) parts) = parts.
Proof.
  induction 1 as [|x l Hx Hl IH]; intros Hne; [congruence|].
  destruct l as [|y l].
  - simpl. now apply split_no_sep.
  - change (join (String sep EmptyString) (x :: y :: l))
      with (x ++ String sep (join (String sep EmptyString) (y :: l))).
    rewrite split_app_sep, (split_no_sep _ _ Hx), IH by discriminate.
    reflexivity.
Qed.

(** X11: for a date made of parts joined by dashes, [splitDates] gives
    the first part as the year, the second as the month and the third as
    the day; a part that is missing is the empty text and parts after
    the third are ignored. *)
Theorem splitDates_parts (parts : list string) :
  Forall (fun p => has_char "-" p = false) parts ->
  splitDates (join "-" parts)
  = {| year := or_empty (parts !! 0%nat);
       month := or_empty (parts !! 1%nat);
       day := or_empty (parts !! 2%nat) |}.
Proof.
  intros Hparts. unfold splitDates.
  destruct (truthy (join "-" parts)) eqn:Et.
  - destruct parts as [|x l]; [discriminate|].
    now rewrite (split_join "-" (x :: l) Hparts).
  - destruct parts as [|x [|y l]]; [reflexivity| |].
    + simpl in *. destruct x; [reflexivity | discriminate].
    + exfalso. change (join "-" (x :: y :: l))
        with (x ++ String "-" (join "-" (y :: l))) in Et.
      destruct x; discriminate.
Qed.

Lemma splitDates_parts_witness :
  splitDates "2016-04-23" = mkDates "2016" "04" "23" /\
  splitDates "1999" = mkDates "1999" EmptyString EmptyString.
Proof.
  split.
  - apply (splitDates_parts ["2016"; "04"; "23"]). repeat constructor.
  - apply (splitDates_parts ["1999"]). repeat constructor.
Defined.

End FiltersProofs.


Module SongDataProofs.
Import JsString Catalog SongData JsStringProofs CatalogProofs.

(** *** [getID] *)

Lemma last_split_app sep a b :
  last (split sep (a ++ String sep b)) = last (split sep b).
Proof.
  rewrite split_app_sep, last_app.
  destruct (last (split sep b)) eqn:E; [reflexivity|].
  destruct (split sep b) eqn:Es; [now apply split_nonempty in Es|].
  apply last_None in E. discriminate.
Qed.

(** X12: [getID] returns the text after the last slash of the URL, a
    query string included, and the whole URL when it has no slash; it
    throws when the URL is empty and when it ends with a slash. *)
Theorem getID_last_segment (before tail : string) :
  has_char "/" tail = false ->
  getID (before ++ String "/" tail)
  = (if truthy tail then Returned tail
     else Threw (mkError "Invalid Spotify URL format")) /\
  getID tail
  = (if truthy tail then Returned tail else Threw (mkError "URL is required")).
Proof.
  intros Hfree. unfold getID. split.
  - assert (Ht : truthy (before ++ String "/" tail) = true) by now destruct before.
    rewrite Ht, last_split_app, (split_no_sep _ _ Hfree). reflexivity.
  - destruct (truthy tail) eqn:Et; [|reflexivity].
    rewrite (split_no_sep _ _ Hfree). simpl. now rewrite Et.
Qed.

Lemma getID_last_segment_witness :
  getID ("https://open.spotify.com/track" ++ String "/" "4uLU6hMCjMI75M1A2tKUQC?si=1f")
  = Returned "4uLU6hMCjMI75M1A2tKUQC?si=1f".
Proof.
  exact (proj1 (getID_last_segment "https://open.spotify.com/track"
                  "4uLU6hMCjMI75M1A2tKUQC?si=1f" eq_refl)).
Defined.


(** *** [getArtistAlbums] *)


Section Provider.

Variable MAX_LIMIT_DEFAULT : nat.
Variable w : World.
Variable trackOf : string -> option SpotifyTrack.
Variable featureOf : string -> option AudioFeature.
Variable fuel : nat.

Hypothesis limit_positive : 0 < MAX_LIMIT_DEFAULT.
Hypothesis tracks_by_id : answers_by_id (getTracks w) trackOf.
Hypothesis features_by_id : answers_by_id (getAudioFeaturesForTracks w) featureOf.
Hypothesis feature_ids : forall j f, featureOf j = Some f -> feature_id f = j.




End Provider.



Example getArtistAlbums_sample_artists :
  option_map (fun r => match r with
                       | Returned lists =>
                           map (fun l => map artists (listing_items l)) lists
                       | Threw _ => []
                       end)
             (getArtistAlbums 2 sample_world 4 "https://open.spotify.com/artist/12Chz98pHF")
  = Some [ [["Muse"; "Various Artists"; "Artist"]; ["Muse"; "Various Artists"; "Artist"]];
           [["Muse"; "Various Artists"; "Artist"]; ["Muse"; "Various Artists"; "Artist"]];
           [["Muse"; "Various Artists"; "Artist"]; ["Muse"; "Various Artists"; "Artist"]] ].
Proof. reflexivity. Qed.
End SongDataProofs.


Module UrlParserProofs.
Import JsString UrlParser JsStringProofs.
Local Open Scope string_scope.

Lemma toLowerCase_app a b : toLowerCase (a ++ b) = toLowerCase a ++ toLowerCase b.
Proof.
  induction a as [|c a IH]; [reflexivity|].
  rewrite append_cons. simpl. now rewrite IH.
Qed.

Lemma includes_unfold s sub :
  includes s sub
  = startsWith s sub
    || match s with EmptyString => false | String _ s' => includes s' sub end.
Proof. destruct s; reflexivity. Qed.

Lemma includes_app a m b : includes (a ++ m ++ b) m = true.
Proof.
  induction a as [|c a IH].
  - change (EmptyString ++ m ++ b) with (m ++ b).
    rewrite includes_unfold, startsWith_app. reflexivity.
  - rewrite append_cons, includes_unfold, IH. apply orb_true_r.
Qed.

Lemma toLowerCase_truthy s : truthy (toLowerCase s) = truthy s.
Proof. now destruct s. Qed.

(** X14: a URL in which a marker occurs, in any letter case, and no
    marker tested earlier does, is taken as the kind of that marker; so a
    URL that holds the word youtube anywhere is a YouTube link whatever
    else it holds.  A URL in which no marker occurs is rejected. *)
Theorem urlParser_first_marker (inputUrl : string) :
  (forall before word after k marker kind,
      inputUrl = before ++ word ++ after ->
      markers !! k = Some (marker, kind) ->
      toLowerCase word = marker ->
      none_before k (toLowerCase inputUrl) ->
      urlParser (Some inputUrl) = Returned kind) /\
  (none_before (length markers) (toLowerCase inputUrl) ->
   is_returned (urlParser (Some inputUrl)) = false).
Proof.
  split.
  - intros before word after k marker kind -> Hk Hw Hnone.
    assert (Hin : includes (toLowerCase (before ++ word ++ after)) marker = true).
    { rewrite !toLowerCase_app, Hw. apply includes_app. }
    assert (Ht : truthy (before ++ word ++ after) = true).
    { rewrite <- toLowerCase_truthy, !toLowerCase_app, Hw.
      destruct (toLowerCase before); [|reflexivity].
      do 7 (destruct k as [|k]; [now injection Hk as <- _|]). discriminate. }
    unfold urlParser. rewrite Ht. cbv zeta.
    unfold none_before in Hnone.
    remember (toLowerCase (before ++ word ++ after)) as urlLower.
    do 7 (destruct k as [|k];
          [ injection Hk as <- <-; cbn [firstn markers] in Hnone;
            repeat match goal with
                   | H : Forall _ (_ :: _) |- _ =>
                       let Hh := fresh "Hh" in
                       let Ht' := fresh "Ht" in
                       apply List.Forall_cons_iff in H; destruct H as [Hh Ht'];
                       cbn [fst] in Hh; rewrite Hh
                   end;
            now rewrite Hin | ]).
    discriminate.
  - intros Hnone. unfold urlParser.
    destruct (truthy inputUrl); [|reflexivity]. cbv zeta.
    unfold none_before in Hnone. cbn [length markers firstn] in Hnone.
    repeat match goal with
           | H : Forall _ (_ :: _) |- _ =>
               let Hh := fresh "Hh" in
               let Ht' := fresh "Ht" in
               apply List.Forall_cons_iff in H; destruct H as [Hh Ht'];
               cbn [fst] in Hh; rewrite Hh
           end.
    reflexivity.
Qed.

Lemma urlParser_first_marker_witness :
  urlParser (Some "https://open.spotify.com/Track/4uLU?context=youtube")
  = Returned "youtube".
Proof.
  apply (proj1 (urlParser_first_marker
                  "https://open.spotify.com/Track/4uLU?context=youtube")
           "https://open.spotify.com/Track/4uLU?context=" "youtube" EmptyString
           0 "youtube" "youtube"); try reflexivity.
  constructor.
Defined.

Example urlParser_song :
  urlParser (Some "https://open.spotify.com/TRACK/4uLU6hMCjMI75M1A2tKUQC")
  = Returned "song".
Proof. reflexivity. Qed.

(** The short form of a YouTube link holds no marker. *)
Example urlParser_short_link :
  urlParser (Some "https://youtu.be/dQw4w9WgXcQ")
  = Threw (mkError "Invalid URL: Unsupported Spotify or YouTube URL format").
Proof. reflexivity. Qed.

End UrlParserProofs.


Module SubtitlesProofs.
Import JsString Subtitles.

Lemma trimEnd_idempotent s : trimEnd (trimEnd s) = trimEnd s.
Proof.
  induction s as [|c s IH]; [reflexivity|].
  simpl. destruct (trimEnd s) as [|d r] eqn:E.
  - destruct (is_space c) eqn:Ec; [reflexivity|]. simpl. now rewrite Ec.
  - remember (String d r) as t. simpl. rewrite IH. subst t. reflexivity.
Qed.

Lemma trimEnd_head c s :
  is_space c = false -> exists r, trimEnd (String c s) = String c r.
Proof.
  intros Hc. simpl. destruct (trimEnd s); [rewrite Hc|]; eexists; reflexivity.
Qed.

Lemma trimStart_head s :
  trimStart s = EmptyString \/
  exists c r, trimStart s = String c r /\ is_space c = false.
Proof.
  induction s as [|c s IH]; [now left|].
  simpl. destruct (is_space c) eqn:Ec; [exact IH|].
  right. now exists c, s.
Qed.

Lemma trim_idempotent s : trim (trim s) = trim s.
Proof.
  unfold trim. destruct (trimStart_head s) as [->|(c & r & -> & Hc)]; [reflexivity|].
  destruct (trimEnd_head c r Hc) as (r' & E).
  assert (Hs : trimStart (trimEnd (String c r)) = trimEnd (String c r)).
  { rewrite E. simpl. now rewrite Hc. }
  rewrite Hs. apply trimEnd_idempotent.
Qed.

(** X15: the lyrics [downloadSubtitles] returns carry no white space at
    either end; without an item name or without an artist name it
    returns the empty text and asks the provider nothing; otherwise it
    makes one search, for the item name and the artist name joined by a
    dash, and at most one request for lyrics, for the first song found. *)
Theorem downloadSubtitles_trimmed (w : World) (itemName artistName : string) :
  trim (snd (downloadSubtitles w itemName artistName))
  = snd (downloadSubtitles w itemName artistName) /\
  (truthy itemName = false \/ truthy artistName = false ->
   downloadSubtitles w itemName artistName = ([], EmptyString)) /\
  (truthy itemName = true -> truthy artistName = true ->
   exists rest,
     fst (downloadSubtitles w itemName artistName)
     = EvSearch (itemName ++ " - " ++ artistName)%string :: rest /\
     (rest = [] \/
      exists firstSong others,
        search w (itemName ++ " - " ++ artistName)%string
        = Returned (Some (firstSong :: others)) /\
        rest = [EvLyrics firstSong])).
Proof.
  unfold downloadSubtitles. split; [|split].
  - destruct (negb (truthy itemName) || negb (truthy artistName)); [reflexivity|].
    destruct (search w _) as [[[|firstSong others]|]|]; try reflexivity.
    destruct (lyrics w firstSong) as [[text|]|]; try reflexivity.
    simpl. destruct (truthy text); [apply trim_idempotent | reflexivity].
  - intros [-> | ->]; [reflexivity|]. now rewrite orb_true_r.
  - intros -> ->. simpl negb. simpl orb. cbv iota.
    destruct (search w _) as [[[|firstSong others]|]|] eqn:Es;
      try (eexists; split; [reflexivity | now left]).
    destruct (lyrics w firstSong) as [[text|]|];
      (eexists; split; [reflexivity|]; right; exists firstSong, others; auto).
Qed.

Lemma downloadSubtitles_trimmed_witness :
  downloadSubtitles
    {| search _ := Returned (Some ["song1"]); lyrics _ := Returned (Some "  la la  ") |}
    EmptyString "Muse"
  = ([], EmptyString).
Proof.
  apply (proj1 (proj2 (downloadSubtitles_trimmed
                         {| search _ := Returned (Some ["song1"]);
                            lyrics _ := Returned (Some "  la la  ") |}
                         EmptyString "Muse"))).
  now left.
Defined.

Example downloadSubtitles_sample :
  downloadSubtitles
    {| search _ := Returned (Some ["song1"; "song2"]);
       lyrics _ := Returned (Some "  la la  ") |}
    "Halo" "Beyonce"
  = ([EvSearch "Halo - Beyonce"; EvLyrics "song1"], "la la").
Proof. reflexivity. Qed.

End SubtitlesProofs.


Module TemplateProofs.
Import JsString FormatGenerators Template JsStringProofs.
Local Open Scope string_scope.

(** *** The scan for placeholders *)

Lemma match_from_text text : forall previous rest,
  brace_free text -> Ascii.eqb previous "{" = false ->
  exists previous',
    Ascii.eqb previous' "{" = false /\
    match_from 0 previous (text ++ rest) = match_from 0 previous' rest.
Proof.
  induction text as [|c text IH]; intros previous rest Hfree Hprev.
  - exists previous. auto.
  - unfold brace_free in Hfree. simpl in Hfree.
    apply orb_false_iff in Hfree. destruct Hfree as [Hc Hfree].
    destruct (IH c rest Hfree Hc) as (p & Hp & E).
    exists p. split; [exact Hp|].
    rewrite append_cons. simpl. now rewrite Hprev.
Qed.

Lemma match_from_placeholder name previous rest :
  In name VALID_CONTEXTS -> Ascii.eqb previous "{" = false ->
  match_from 0 previous ("{" ++ name ++ "}" ++ rest)
  = name :: match_from 0 "}" rest.
Proof.
  intros Hname Hprev.
  destruct Hname as [<-|[<-|[<-|[]]]];
    (rewrite !append_cons; simpl; rewrite Hprev; reflexivity).
Qed.

Lemma match_from_format pieces tail : forall previous,
  Forall (fun p => brace_free (fst p) /\ In (snd p) VALID_CONTEXTS) pieces ->
  brace_free tail -> Ascii.eqb previous "{" = false ->
  match_from 0 previous (format_of pieces tail) = map snd pieces.
Proof.
  induction pieces as [|[text name] pieces IH]; intros previous Hp Ht Hprev.
  - simpl. rewrite <- (append_nil_r tail).
    destruct (match_from_text tail previous EmptyString Ht Hprev) as (p & _ & ->).
    reflexivity.
  - inversion Hp as [|? ? [Htext Hname] Hrest]; subst. simpl in Htext, Hname.
    simpl format_of.
    destruct (match_from_text text previous ("{" ++ name ++ "}" ++ format_of pieces tail)
                Htext Hprev) as (p & Hp' & ->).
    rewrite (match_from_placeholder name p _ Hname Hp').
    simpl. f_equal. now apply IH.
Qed.

Lemma match_contexts_format pieces tail :
  Forall (fun p => brace_free (fst p) /\ In (snd p) VALID_CONTEXTS) pieces ->
  brace_free tail ->
  match_contexts (format_of pieces tail) = map snd pieces.
Proof.
  intros Hp Ht.
  rewrite <- (match_from_format pieces tail " "%char Hp Ht eq_refl).
  destruct (format_of pieces tail); reflexivity.
Qed.

(** *** The replacements *)

Lemma startsWith_cons_neq c s d pat :
  Ascii.eqb c d = false -> startsWith (String c s) (String d pat) = false.
Proof.
  intros H. unfold startsWith. simpl.
  destruct (ascii_dec d c) as [->|]; [|reflexivity].
  now rewrite Ascii.eqb_refl in H.
Qed.

Lemma cut_at_first_free c0 pat before after :
  has_char c0 before = false ->
  cut_at_first (String c0 pat) (before ++ String c0 pat ++ after)
  = Some (before, after).
Proof.
  induction before as [|d before IH]; intros Hfree.
  - apply (cut_at_first_prefix (String c0 pat) after).
  - simpl in Hfree. apply orb_false_iff in Hfree. destruct Hfree as [Hd Hfree].
    rewrite append_cons, cut_at_first_unfold, startsWith_cons_neq by exact Hd.
    now rewrite (IH Hfree).
Qed.

Lemma get_substitution_plain matched before after template :
  has_char "$" template = false ->
  get_substitution matched before after template = template.
Proof.
  induction template as [|c t IH]; [reflexivity|].
  simpl. intros H. apply orb_false_iff in H. destruct H as [Hc Ht].
  rewrite Hc. now rewrite (IH Ht).
Qed.

Lemma replace_placeholder before name value after :
  brace_free before -> has_char "$" value = false ->
  replace (before ++ "{" ++ name ++ "}" ++ after) ("{" ++ name ++ "}") value
  = before ++ value ++ after.
Proof.
  intros Hb Hv. unfold replace.
  change ("{" ++ name ++ "}" ++ after) with (String "{" (name ++ "}" ++ after)).
  change ("{" ++ name ++ "}") with (String "{" (name ++ "}")).
  replace (String "{" (name ++ "}" ++ after))
    with (String "{" (name ++ "}") ++ after)
    by (rewrite append_cons, append_assoc; reflexivity).
  rewrite (cut_at_first_free "{" (name ++ "}") before after Hb).
  now rewrite get_substitution_plain.
Qed.

Lemma fold_replace_format value pieces tail : forall done,
  Forall (fun p => brace_free (fst p) /\ plain_value (value (snd p))) pieces ->
  brace_free done ->
  fold_left (fun result context => replace result ("{" ++ context ++ "}") (value context))
            (map snd pieces) (done ++ format_of pieces tail)
  = done ++ rendering value pieces tail.
Proof.
  induction pieces as [|[text name] pieces IH]; intros done Hp Hd; [reflexivity|].
  inversion Hp as [|? ? [Htext [Hdollar Hbrace]] Hrest]; subst.
  simpl in Htext, Hdollar, Hbrace. simpl map. simpl fold_left. simpl format_of.
  rewrite <- append_assoc.
  assert (Hdt : brace_free (done ++ text)).
  { unfold brace_free in *. now rewrite has_char_app, Hd, Htext. }
  rewrite (replace_placeholder (done ++ text) name (value name) _ Hdt Hdollar).
  rewrite <- append_assoc.
  assert (Hdv : brace_free ((done ++ text) ++ value name)).
  { unfold brace_free in *. now rewrite has_char_app, Hdt, Hbrace. }
  rewrite (IH _ Hrest Hdv). simpl rendering. now rewrite !append_assoc.
Qed.

(** X16: for a format made of texts without an opening brace and
    placeholders of the three names, and names that hold neither a dollar
    sign nor an opening brace, [generateTemplateString] returns the format
    with every placeholder replaced, where it stands, by the name it
    stands for. *)
Theorem generateTemplateString_renders
    (itemName albumName artistName : string)
    (pieces : list (string * string)) (tail : string) :
  Forall (fun p => brace_free (fst p) /\ In (snd p) VALID_CONTEXTS) pieces ->
  brace_free tail ->
  plain_value itemName -> plain_value albumName -> plain_value artistName ->
  generateTemplateString itemName albumName artistName (format_of pieces tail)
  = Returned (rendering (contextMap itemName albumName artistName) pieces tail).
Proof.
  intros Hp Ht Hi Ha Hr. unfold generateTemplateString.
  destruct (truthy (format_of pieces tail)) eqn:Etruthy; cbn [negb].
  2:{ destruct pieces as [|[text name] pieces].
      - simpl in *. now destruct tail.
      - exfalso. simpl in Etruthy. destruct text; discriminate. }
  cbv zeta. rewrite !(match_contexts_format pieces tail Hp Ht).
  destruct pieces as [|piece pieces]; [reflexivity|].
  remember (piece :: pieces) as ps eqn:Eps.
  assert (Hvalid : List.filter
                     (fun context => negb (array_includes VALID_CONTEXTS context))
                     (map snd ps) = []).
  { clear Eps Etruthy. induction Hp as [|p l [_ Hname] _ IH]; [reflexivity|].
    simpl. destruct Hname as [<-|[<-|[<-|[]]]]; simpl; exact IH. }
  rewrite Hvalid.
  assert (Hne : map snd ps <> []) by (subst ps; discriminate).
  destruct (map snd ps) as [|n ns] eqn:Ens; [congruence|]. rewrite <- Ens.
  f_equal.
  assert (Hplain : Forall (fun p => brace_free (fst p) /\
                                    plain_value (contextMap itemName albumName artistName
                                                            (snd p))) ps).
  { eapply List.Forall_impl; [|exact Hp]. intros p [Hb Hname]. split; [exact Hb|].
    destruct Hname as [<-|[<-|[<-|[]]]]; assumption. }
  exact (fold_replace_format (contextMap itemName albumName artistName) ps tail
           EmptyString Hplain eq_refl).
Qed.

Lemma generateTemplateString_renders_witness :
  generateTemplateString "Halo" "I Am... Sasha Fierce" "Beyonce"
    (format_of [(EmptyString, "artistName"); ("___", "albumName"); ("___", "itemName")]
               EmptyString)
  = Returned "Beyonce___I Am... Sasha Fierce___Halo".
Proof.
  apply (generateTemplateString_renders "Halo" "I Am... Sasha Fierce" "Beyonce"
           [(EmptyString, "artistName"); ("___", "albumName"); ("___", "itemName")]
           EmptyString).
  - repeat (apply List.Forall_cons; [split; [reflexivity | simpl; tauto]|]).
    apply List.Forall_nil.
  - reflexivity.
  - split; reflexivity.
  - split; reflexivity.
  - split; reflexivity.
Defined.

End TemplateProofs.


Module RunnerTraceProofs.
Import JsString Node Cache CacheProofs Runner RunnerTrace.

Lemma recordings_app t1 t2 : recordings (t1 ++ t2) = recordings t1 ++ recordings t2.
Proof.
  induction t1 as [|e t1 IH]; simpl; [reflexivity|].
  destruct e; simpl; now rewrite IH.
Qed.

Section Run.
Variable itemOutputPath : string -> string -> string -> string.
Variable path_dirname : string -> string.
Variable path_resolve : string -> string.
Variable path_join : string -> string -> string.
Variable cacheFile : string.
Variable downloadLyrics : bool.
Variable f : Faults.
Variable w : World.

Let step := process_item itemOutputPath path_dirname path_resolve path_join cacheFile
                         downloadLyrics f w.
Let steps := process_items itemOutputPath path_dirname path_resolve path_join cacheFile
                           downloadLyrics f w.
Let ok := call_ok itemOutputPath path_resolve downloadLyrics w.

Lemma call_ok_index index item e : ok index item e -> event_index e = index.
Proof. destruct e; simpl; intros H; apply H. Qed.

Lemma outcome_set_cached item : outcome item (set_cached item).
Proof. unfold outcome. simpl. repeat split; auto. Qed.

Lemma outcome_set_failed b item : outcome item (set_failed b item).
Proof. unfold outcome. simpl. repeat split; eauto. Qed.

Lemma outcome_lyrics_failed b text item :
  outcome item (set_failed b (set_lyrics text item)).
Proof. unfold outcome. simpl. repeat split; eauto. Qed.

(** One turn of the loop. *)
Lemma step_calls index item env :
  Forall (ok index item) (snd (fst (step index item env))) /\
  (recordings (snd (fst (step index item env))) = [] ->
   files (fst (fst (step index item env))) = files env) /\
  (forall item', snd (step index item env) = Returned item' -> outcome item item') /\
  (is_returned (snd (step index item env)) = false ->
   is_returned (downloader w index (links_of w index item)
                           (output_of itemOutputPath path_resolve item)) = false).
Proof.
  unfold step, process_item, ok.
  destruct (findId_cases path_join cacheFile f (id item)
              (itemDir itemOutputPath path_dirname item) env)
    as (Hfiles & _ & b & Hb & _).
  destruct (findId path_join cacheFile f (id item)
              (itemDir itemOutputPath path_dirname item) env) as [env1 found].
  simpl in Hfiles, Hb. subst found.
  destruct b.
  { simpl. split; [constructor|]. split; [auto|]. split; [|discriminate].
    intros item' [= <-]. apply outcome_set_cached. }
  unfold mkdirSync.
  destruct (mkdir_fails f (itemDir itemOutputPath path_dirname item)).
  { simpl. split; [constructor|]. split; [auto|]. split; [|discriminate].
    intros item' [= <-]. apply outcome_set_failed. }
  unfold links_of, output_of.
  destruct (truthy (URL item)) eqn:EU.
  - destruct (downloader w index [URL item]
                (path_resolve (fullItemPath itemOutputPath item))) as [[]|e] eqn:ED;
      destruct downloadLyrics eqn:EL; simpl;
      (split; [repeat constructor; unfold links_of, output_of;
               rewrite ?EU, ?ED; auto; discriminate|]);
      (split; [first [discriminate | auto]|]);
      (split; [|first [discriminate | auto]]);
      first [discriminate
            | intros item' [= <-];
              first [apply outcome_set_failed | apply outcome_lyrics_failed]].
  - destruct (getLinks w index item) as [|link ytLinks] eqn:EG.
    + destruct downloadLyrics eqn:EL; simpl;
        (split; [repeat constructor; auto|]);
        (split; [auto|]); (split; [|discriminate]);
        intros item' [= <-];
        first [apply outcome_set_failed | apply outcome_lyrics_failed].
    + destruct (downloader w index (link :: ytLinks)
                  (path_resolve (fullItemPath itemOutputPath item))) as [[]|e] eqn:ED;
        destruct downloadLyrics eqn:EL; simpl;
        (split; [repeat constructor; unfold links_of, output_of;
                 rewrite ?EU, ?EG, ?ED; auto; discriminate|]);
        (split; [first [discriminate | auto]|]);
        (split; [|first [discriminate | auto]]);
        first [discriminate
              | intros item' [= <-];
                first [apply outcome_set_failed | apply outcome_lyrics_failed]].
Qed.


(** The turns of the loop from position [index] on. *)
Lemma steps_calls items : forall index env,
  (forall e, In e (snd (fst (steps index items env))) ->
     exists item, items !! (event_index e - index) = Some item /\
                  index <= event_index e /\ ok (event_index e) item e) /\
  (recordings (snd (fst (steps index items env))) = [] ->
   files (fst (fst (steps index items env))) = files env) /\
  (forall done, snd (steps index items env) = Returned done ->
                Forall2 outcome items done) /\
  ((forall k links out, is_returned (downloader w k links out) = true) ->
   is_returned (snd (steps index items env)) = true).
Proof.
  induction items as [|item rest IH]; intros index env.
  - simpl. split; [intros e []|]. split; [auto|]. split; [|auto].
    intros done [= <-]. constructor.
  - unfold steps. simpl. fold steps. fold step.
    destruct (step_calls index item env) as (Hcalls & Hfiles & Hout & Hthrow).
    destruct (step index item env) as [[env1 t1] r1]. simpl in *.
    assert (Hfirst : forall e, In e t1 ->
              exists it, (item :: rest) !! (event_index e - index) = Some it /\
                         index <= event_index e /\ ok (event_index e) it e).
    { intros e He. rewrite List.Forall_forall in Hcalls. specialize (Hcalls e He).
      pose proof (call_ok_index _ _ _ Hcalls) as Hi. rewrite Hi, Nat.sub_diag.
      exists item. auto. }
    destruct r1 as [item1|e1].
    2:{ simpl. split; [exact Hfirst|]. split; [exact Hfiles|].
        split; [discriminate|]. intros Hall.
        specialize (Hthrow eq_refl). now rewrite Hall in Hthrow. }
    destruct (IH (S index) env1) as (Hcalls' & Hfiles' & Hout' & Hthrow').
    destruct (steps (S index) rest env1) as [[env2 t2] r2]. simpl in *.
    assert (Hall : forall e, In e (t1 ++ t2) ->
              exists it, (item :: rest) !! (event_index e - index) = Some it /\
                         index <= event_index e /\ ok (event_index e) it e).
    { intros e He. apply List.in_app_iff in He. destruct He as [He|He]; [auto|].
      destruct (Hcalls' e He) as (it & Hit & Hle & Hok).
      exists it. split; [|split; [lia | exact Hok]].
      replace (event_index e - index) with (S (event_index e - S index)) by lia.
      exact Hit. }
    assert (Hrec : recordings (t1 ++ t2) = [] -> files env2 = files env).
    { rewrite recordings_app. intros H. apply app_eq_nil in H. destruct H as [H1 H2].
      rewrite (Hfiles' H2). now apply Hfiles. }
    destruct r2 as [done|e2]; simpl.
    + split; [exact Hall|]. split; [exact Hrec|]. split; [|auto].
      intros done' [= <-]. constructor; [now apply Hout | now apply Hout'].
    + split; [exact Hall|]. split; [exact Hrec|]. split; [discriminate|].
      exact Hthrow'.
Qed.

Lemma downloadList_calls_aux songs env :
  Forall (call_allowed itemOutputPath path_resolve downloadLyrics w
                       (fun k => items songs !! k))
         (snd (fst (downloadList itemOutputPath path_dirname path_resolve path_join
                                 cacheFile downloadLyrics f w songs env))) /\
  (recordings (snd (fst (downloadList itemOutputPath path_dirname path_resolve
                                      path_join cacheFile downloadLyrics f w songs env)))
   = [] ->
   files (fst (fst (downloadList itemOutputPath path_dirname path_resolve path_join
                                 cacheFile downloadLyrics f w songs env)))
   = files env).
Proof.
  unfold downloadList. fold steps.
  destruct (steps_calls (items songs) 0 env) as (Hcalls & Hfiles & _).
  destruct (steps 0 (items songs) env) as [[env' t] r]. simpl in *.
  assert (Hc : Forall (call_allowed itemOutputPath path_resolve downloadLyrics w
                         (fun k => items songs !! k)) t).
  { apply List.Forall_forall. intros e He.
    destruct (Hcalls e He) as (item & Hitem & _ & Hok).
    rewrite Nat.sub_0_r in Hitem. exists item. auto. }
  destruct r; simpl; auto.
Qed.

End Run.





End RunnerTraceProofs.


Module LedgerProofs.
Import JsString Node Cache JsStringProofs CacheProofs.

Section Disk.
Variable path_join : string -> string -> string.
Variable path_dirname : string -> string.
Variable cacheFile : string.
Variable f : Faults.

Let cache_of (dir : string) : string := getCacheFile path_join cacheFile dir.
Let write (dir id : string) : M unit := writeId path_join path_dirname cacheFile f dir id.
Let find (id dir : string) : M bool := findId path_join cacheFile f id dir.

Lemma write_keeps dir id env :
  well_kept env ->
  well_kept (fst (write dir id env)) /\
  forall id0 dir0,
    recorded path_join cacheFile id0 dir0 env ->
    recorded path_join cacheFile id0 dir0 (fst (write dir id env)).
Proof.
  intros Hw. unfold write, cache_of in *.
  destruct (writeId_cases path_join path_dirname cacheFile f dir id env)
    as (_ & _ & [E|E]).
  - split.
    + intros path content Hc. rewrite E in Hc. eauto.
    + intros id0 dir0 (content & Hc & Hin). exists content. now rewrite E.
  - split.
    + intros path content Hc. rewrite E in Hc.
      destruct (decide (getCacheFile path_join cacheFile dir = path)) as [<-|Hne].
      * rewrite lookup_insert_eq in Hc. injection Hc as <-.
        apply RunnerProofs.whole_lines_cache_line.
      * rewrite lookup_insert_ne in Hc by exact Hne. eauto.
    + intros id0 dir0 (content & Hc & Hin). unfold recorded. rewrite E.
      destruct (decide (getCacheFile path_join cacheFile dir
                        = getCacheFile path_join cacheFile dir0)) as [Heq|Hne].
      * rewrite Heq, lookup_insert_eq, Hc. simpl.
        eexists. split; [reflexivity|]. apply cached_ids_kept; eauto.
      * rewrite lookup_insert_ne by exact Hne. eauto.
Qed.

(** What [findId] answers depends on the cache file it reads alone. *)
Lemma find_local id dir env1 env2 :
  files env1 !! cache_of dir = files env2 !! cache_of dir ->
  snd (find id dir env1) = snd (find id dir env2).
Proof.
  unfold find, findId, cache_of. intros E.
  set (cf := getCacheFile path_join cacheFile dir) in *.
  destruct (negb (truthy id) || negb (truthy dir)); [reflexivity|].
  unfold try_catch, bind, existsSync, readFileSync, ret, logInfo.
  destruct (files env1 !! cf) as [content|] eqn:E1; symmetry in E;
    destruct (bool_decide (cf ∈ dirs env1));
    destruct (bool_decide (cf ∈ dirs env2));
    destruct (read_fails f cf); simpl;
    repeat (progress (rewrite ?E1, ?E; simpl)); reflexivity.
Qed.

Lemma write_then_find_elsewhere dir dir' id env :
  cache_of dir' = cache_of dir ->
  truthy dir = true -> truthy dir' = true -> plain_id id ->
  well_kept env ->
  mkdir_fails f (path_dirname (cache_of dir)) = false ->
  append_fails f (cache_of dir) = false ->
  read_fails f (cache_of dir) = false ->
  snd (find id dir' (fst (write dir id env))) = Returned true.
Proof.
  unfold write, find, cache_of. intros Hsame Hdir Hdir' Hid Hw Hm Ha Hr.
  destruct (writeId_written path_join path_dirname cacheFile f dir id env
              Hdir (proj1 Hid) Hm Ha) as [Hfiles _].
  destruct (findId_cases path_join cacheFile f id dir'
              (fst (writeId path_join path_dirname cacheFile f dir id env)))
    as (_ & _ & b & Hb & _ & Hfound & _).
  rewrite Hb. f_equal.
  apply Hfound; auto; [apply Hid | now rewrite Hsame |].
  exists (default EmptyString (files env !! getCacheFile path_join cacheFile dir)
          ++ cache_line id)%string.
  split.
  - rewrite Hsame, Hfiles. apply lookup_insert_eq.
  - apply cached_ids_recorded; [|exact Hid].
    destruct (files env !! getCacheFile path_join cacheFile dir) as [content|] eqn:E;
      simpl; [eapply Hw; eauto | now left].
Qed.

Lemma write_then_find_other_file dir dir' id id0 env :
  cache_of dir' <> cache_of dir ->
  snd (find id0 dir' (fst (write dir id env))) = snd (find id0 dir' env).
Proof.
  intros Hne. apply find_local. unfold write, cache_of in *.
  destruct (writeId_cases path_join path_dirname cacheFile f dir id env)
    as (_ & _ & [E|E]); rewrite E; [reflexivity|].
  apply lookup_insert_ne. congruence.
Qed.

End Disk.

(** X19: on a disk whose files are made of whole lines, recording an id
    never makes the cache forget another one: every id a cache file listed
    before [writeId] is listed after it, for every directory, whatever the
    system refuses; and the files are again made of whole lines. *)
Theorem writeId_keeps_recorded
    (path_join : string -> string -> string) (path_dirname : string -> string)
    (cacheFile : string) (f : Faults) (dir id : string) (env : Env) :
  well_kept env ->
  well_kept (fst (writeId path_join path_dirname cacheFile f dir id env)) /\
  forall id0 dir0,
    recorded path_join cacheFile id0 dir0 env ->
    recorded path_join cacheFile id0 dir0
             (fst (writeId path_join path_dirname cacheFile f dir id env)).
Proof. apply write_keeps. Qed.

Lemma writeId_keeps_recorded_witness :
  well_kept (fst (writeId join_slash dirname_slash ".spdlcache" no_faults
                          "downloads" "abc" empty_env)).
Proof.
  apply (writeId_keeps_recorded join_slash dirname_slash ".spdlcache" no_faults
           "downloads" "abc" empty_env).
  intros path content H. simpl in H. rewrite lookup_empty in H. discriminate.
Defined.

(** A cache file whose last line has no line feed: recording [def] glues
    its line to the line of [abc], and [abc] is no longer found. *)
Example writeId_after_unterminated_line :
  let env := mkEnv {[ "downloads/.spdlcache" := "spotify abc" ]} ∅ [] in
  snd (findId join_slash ".spdlcache" no_faults "abc" "downloads" env) = Returned true /\
  snd (findId join_slash ".spdlcache" no_faults "abc" "downloads"
         (fst (writeId join_slash dirname_slash ".spdlcache" no_faults
                       "downloads" "def" env)))
  = Returned false.
Proof. split; vm_compute; reflexivity. Qed.

(** X20: two directories that have the same cache file share what is
    recorded: an id recorded for one is found for the other; this is so for
    all directories when the cache file of the command line does not start
    with a dot.  Two directories with different cache files do not:
    recording for one changes no answer for the other. *)
Theorem writeId_shared_cache
    (path_join : string -> string -> string) (path_dirname : string -> string)
    (cacheFile : string) (f : Faults) (dir dir' id : string) (env : Env) :
  (startsWith cacheFile "." = false ->
   getCacheFile path_join cacheFile dir' = getCacheFile path_join cacheFile dir) /\
  (getCacheFile path_join cacheFile dir' = getCacheFile path_join cacheFile dir ->
   truthy dir = true -> truthy dir' = true -> plain_id id -> well_kept env ->
   mkdir_fails f (path_dirname (getCacheFile path_join cacheFile dir)) = false ->
   append_fails f (getCacheFile path_join cacheFile dir) = false ->
   read_fails f (getCacheFile path_join cacheFile dir) = false ->
   snd (findId path_join cacheFile f id dir'
          (fst (writeId path_join path_dirname cacheFile f dir id env)))
   = Returned true) /\
  (getCacheFile path_join cacheFile dir' <> getCacheFile path_join cacheFile dir ->
   forall id0,
     snd (findId path_join cacheFile f id0 dir'
            (fst (writeId path_join path_dirname cacheFile f dir id env)))
     = snd (findId path_join cacheFile f id0 dir' env)).
Proof.
  split; [|split].
  - unfold getCacheFile. now intros ->.
  - apply write_then_find_elsewhere.
  - intros Hne id0. now apply write_then_find_other_file.
Qed.

Lemma writeId_shared_cache_witness :
  snd (findId join_slash "/home/me/cache.txt" no_faults "abc" "music/Muse"
         (fst (writeId join_slash dirname_slash "/home/me/cache.txt" no_faults
                       "music/Beyonce" "abc" empty_env)))
  = Returned true.
Proof.
  apply (proj1 (proj2 (writeId_shared_cache join_slash dirname_slash
                         "/home/me/cache.txt" no_faults "music/Beyonce" "music/Muse"
                         "abc" empty_env))); try reflexivity.
  - repeat split; reflexivity.
  - intros path content H. simpl in H. rewrite lookup_empty in H. discriminate.
Defined.

End LedgerProofs.


Module GateProofs.
Import SpotifyApi SpotifyApiProofs.

Section Gate.
Context {A : Type}.
Variable TIMEOUT_RETRY : N.
Variable w : World A.

Let pause := (TIMEOUT_RETRY * 1000)%N.

Lemma attempts_bounded remaining : forall tries lastError,
  tries + remaining = S maxRetries ->
  length (calls (fst (attempts TIMEOUT_RETRY w remaining tries lastError))) <= remaining /\
  length (waits (fst (attempts TIMEOUT_RETRY w remaining tries lastError)))
  <= remaining - 1 /\
  Forall (fun ms => ms = pause)
         (waits (fst (attempts TIMEOUT_RETRY w remaining tries lastError))).
Proof.
  induction remaining as [|r IH]; intros tries lastError Hsum; simpl.
  - repeat split; auto.
  - destruct (verifyCredentials w tries); [|simpl; repeat split; auto; lia].
    destruct (apiCall w tries) as [v|error]; [simpl; repeat split; auto; lia|].
    destruct (IH (S tries) (Some error)) as (C & W & P); [lia|].
    destruct (attempts TIMEOUT_RETRY w r (S tries) (Some error)) as [t res].
    simpl in *.
    destruct (Nat.ltb_spec tries maxRetries) as [Hlt|Hge]; simpl.
    + split; [lia|]. split; [lia|]. constructor; [reflexivity | exact P].
    + assert (r = 0) by lia. subst r. split; [lia|]. split; [simpl in W; lia | exact P].
Qed.

Lemma attempts_credentials k e remaining : forall tries lastError,
  tries <= k -> k < tries + remaining -> k <= maxRetries ->
  (forall j, tries <= j < k ->
     is_returned (verifyCredentials w j) = true /\ call_fails w j) ->
  verifyCredentials w k = Threw e ->
  snd (attempts TIMEOUT_RETRY w remaining tries lastError) = Threw e /\
  calls (fst (attempts TIMEOUT_RETRY w remaining tries lastError))
  = seq tries (k - tries) /\
  waits (fst (attempts TIMEOUT_RETRY w remaining tries lastError))
  = repeat pause (k - tries).
Proof.
  induction remaining as [|r IH]; intros tries lastError Hle Hlt Hmax Hbefore Hk;
    [lia|]. simpl.
  destruct (Nat.eq_dec tries k) as [->|Hne].
  - rewrite Hk. simpl. rewrite Nat.sub_diag. auto.
  - destruct (Hbefore tries) as [Hv Hf]; [lia|]. unfold call_fails in Hf.
    destruct (verifyCredentials w tries); [|discriminate].
    destruct (apiCall w tries) as [|error]; [discriminate|].
    destruct (IH (S tries) (Some error)) as (R & C & W); auto; try lia.
    { intros j Hj. apply Hbefore. lia. }
    destruct (attempts TIMEOUT_RETRY w r (S tries) (Some error)) as [t res].
    assert (Hltb : Nat.ltb tries maxRetries = true) by (apply Nat.ltb_lt; lia).
    rewrite Hltb. simpl in *. split; [exact R|]. rewrite C, W.
    replace (k - tries) with (S (k - S tries)) by lia. simpl. auto.
Qed.

End Gate.

(** X21: whatever the credential checks and the wrapped call do,
    [callSpotifyApi] makes at most 5 calls and at most 4 waits, each of
    [TIMEOUT_RETRY * 1000] ms.  A credential check that throws is not
    retried: when the attempts before attempt [k] passed their check and
    failed their call, and the check of attempt [k] throws, the call
    throws that very error after [k - 1] calls and [k - 1] waits. *)
Theorem callSpotifyApi_bounded {A} (TIMEOUT_RETRY : N) (w : World A) :
  length (calls (fst (callSpotifyApi TIMEOUT_RETRY w))) <= 5 /\
  length (waits (fst (callSpotifyApi TIMEOUT_RETRY w))) <= 4 /\
  Forall (fun ms => ms = (TIMEOUT_RETRY * 1000)%N)
         (waits (fst (callSpotifyApi TIMEOUT_RETRY w))) /\
  (forall k e,
      1 <= k <= 5 ->
      (forall j, 1 <= j < k ->
         is_returned (verifyCredentials w j) = true /\ call_fails w j) ->
      verifyCredentials w k = Threw e ->
      snd (callSpotifyApi TIMEOUT_RETRY w) = Threw e /\
      calls (fst (callSpotifyApi TIMEOUT_RETRY w)) = seq 1 (k - 1) /\
      waits (fst (callSpotifyApi TIMEOUT_RETRY w))
      = repeat (TIMEOUT_RETRY * 1000)%N (k - 1)).
Proof.
  unfold callSpotifyApi.
  destruct (attempts_bounded TIMEOUT_RETRY w maxRetries 1 None eq_refl) as (C & W & P).
  split; [exact C|]. split; [exact W|]. split; [exact P|].
  intros k e Hk Hbefore Hthrow.
  apply (attempts_credentials TIMEOUT_RETRY w k e maxRetries 1 None);
    auto; unfold maxRetries; lia.
Qed.

Lemma callSpotifyApi_bounded_witness :
  snd (callSpotifyApi 30
         {| verifyCredentials n :=
              if Nat.ltb n 3 then Returned tt else Threw (mkError "invalid_grant");
            apiCall n := @Threw string (mkError "429 Too Many Requests") |})
  = Threw (mkError "invalid_grant").
Proof.
  apply (proj2 (proj2 (proj2 (callSpotifyApi_bounded 30
           {| verifyCredentials n :=
                if Nat.ltb n 3 then Returned tt else Threw (mkError "invalid_grant");
              apiCall n := @Threw string (mkError "429 Too Many Requests") |})))
           3 (mkError "invalid_grant")).
  - lia.
  - intros j Hj. assert (j = 1 \/ j = 2) as [-> | ->] by lia; split; reflexivity.
  - reflexivity.
Defined.

End GateProofs.


Module GetLinkBoundsProofs.
Import JsString JsStringProofs FormatGenerators GetLink.

Lemma searches_app t1 t2 : searches (t1 ++ t2) = searches t1 + searches t2.
Proof.
  induction t1 as [|e t1 IH]; simpl; [reflexivity|].
  destruct e; simpl; now rewrite IH.
Qed.

Section Constants.
Variable SONG_TYPES : list string.
Variable MAX_MINUTES : Z.
Variable compareTwoStrings : string -> string -> Q.
Variable w : World.

(** What every answer of [findLinks] satisfies. *)
Let tidy (links : list string) : Prop :=
  length links <= 10 /\
  Forall (fun link => startsWith link "https://youtube.com" = true) links.

Lemma tidy_nil : tidy [].
Proof. split; [simpl; lia | constructor]. Qed.

Lemma video_link_prefix video :
  startsWith (video_link video) "https://youtube.com" = true.
Proof.
  unfold video_link.
  destruct (startsWith (url video) "https://youtube.com") eqn:E; [exact E|].
  apply startsWith_app.
Qed.

Lemma findLinks_tidy n searchTerms type exclusionFilters :
  exists t links,
    findLinks SONG_TYPES MAX_MINUTES w n searchTerms type exclusionFilters
    = (t, Returned links) /\
    tidy links /\ searches t <= 1 /\ (truthy searchTerms = false -> t = []).
Proof.
  unfold findLinks. destruct (truthy searchTerms); simpl.
  - destruct (search w n searchTerms) as [[videos|]|e];
      do 2 eexists; (split; [reflexivity|]);
      (split; [|split; [simpl; lia | discriminate]]); try apply tidy_nil.
    split.
    + rewrite length_map. apply firstn_le_length.
    + apply List.Forall_forall. intros link Hin. apply in_map_iff in Hin.
      destruct Hin as (video & <- & _). apply video_link_prefix.
  - do 2 eexists. split; [reflexivity|]. split; [apply tidy_nil|]. auto.
Qed.

Lemma find_at_tidy tier n searchTerms type exclusionFilters :
  exists t links,
    find_at SONG_TYPES MAX_MINUTES w tier n searchTerms type exclusionFilters
    = (t, Returned links) /\
    tidy links /\ searches t <= 1.
Proof.
  unfold find_at.
  destruct (findLinks_tidy n searchTerms type exclusionFilters)
    as (t & links & -> & Ht & Hs & _).
  do 2 eexists. split; [reflexivity|]. split; [exact Ht|].
  rewrite searches_app. simpl. lia.
Qed.

Lemma custom_tier_tidy itemName albumName artistName searchFormat type exclusionFilters :
  exists t links,
    custom_tier SONG_TYPES MAX_MINUTES w itemName albumName artistName searchFormat
                type exclusionFilters = (t, links) /\
    tidy links /\ searches t <= 1.
Proof.
  unfold custom_tier.
  destruct (generateTemplateString itemName albumName artistName searchFormat)
    as [terms|e].
  - destruct (find_at_tidy CustomFormat 0 terms type exclusionFilters)
      as (t & links & -> & Ht & Hs).
    eauto.
  - do 2 eexists. split; [reflexivity|]. split; [apply tidy_nil | simpl; lia].
Qed.

Lemma getLinks_tidy itemName albumName artistName extraSearch searchFormat type
      exclusionFilters :
  exists t links,
    getLinks SONG_TYPES MAX_MINUTES compareTwoStrings w itemName albumName artistName
             extraSearch searchFormat type exclusionFilters = (t, Returned links) /\
    tidy links /\ searches t <= 3 /\ (truthy itemName = false -> t = []).
Proof.
  unfold getLinks. destruct (truthy itemName); simpl negb; cbv iota.
  2:{ do 2 eexists. split; [reflexivity|]. split; [apply tidy_nil|]. auto. }
  assert (H1 : exists t1 links1,
             (if truthy searchFormat
              then custom_tier SONG_TYPES MAX_MINUTES w itemName albumName artistName
                               searchFormat type exclusionFilters
              else ([], [])) = (t1, links1) /\ tidy links1 /\ searches t1 <= 1).
  { destruct (truthy searchFormat); [apply custom_tier_tidy|].
    do 2 eexists. split; [reflexivity|]. split; [apply tidy_nil | simpl; lia]. }
  destruct H1 as (t1 & links1 & -> & Ht1 & Hs1).
  destruct (Nat.ltb 0 (length links1)).
  { do 2 eexists. split; [reflexivity|]. split; [exact Ht1|]. split; [lia | discriminate]. }
  match goal with
  | |- context [if ?c then find_at _ _ _ AlbumPrefixed ?n ?terms _ _ else _] =>
      assert (H2 : exists t2 links2,
                 (if c then find_at SONG_TYPES MAX_MINUTES w AlbumPrefixed n terms
                                    type exclusionFilters
                  else ([], Returned links1)) = (t2, Returned links2) /\
                 tidy links2 /\ searches t2 <= 1)
  end.
  { destruct (_ && _); [apply find_at_tidy|].
    do 2 eexists. split; [reflexivity|]. split; [exact Ht1 | simpl; lia]. }
  destruct H2 as (t2 & links2 & -> & Ht2 & Hs2).
  destruct (Nat.eqb (length links2) 0 && truthy artistName).
  - match goal with
    | |- context [find_at _ _ _ ArtistPrefixed ?n ?terms _ _] =>
        destruct (find_at_tidy ArtistPrefixed n terms type exclusionFilters)
          as (t3 & links3 & -> & Ht3 & Hs3)
    end.
    do 2 eexists. split; [reflexivity|]. split; [exact Ht3|].
    split; [rewrite !searches_app; lia | discriminate].
  - do 2 eexists. split; [reflexivity|]. split; [exact Ht2|].
    split; [rewrite searches_app; lia | discriminate].
Qed.

End Constants.

(** X22: [getLinks] never throws; it returns at most 10 links, each of
    which starts with [https://youtube.com]; it asks the search provider
    at most three times, and not at all for an item without a name. *)
Theorem getLinks_bounded (SONG_TYPES : list string) (MAX_MINUTES : Z)
    (compareTwoStrings : string -> string -> Q) (w : World)
    (itemName albumName artistName extraSearch searchFormat type : string)
    (exclusionFilters : list string) :
  exists t links,
    getLinks SONG_TYPES MAX_MINUTES compareTwoStrings w itemName albumName artistName
             extraSearch searchFormat type exclusionFilters = (t, Returned links) /\
    length links <= 10 /\
    Forall (fun link => startsWith link "https://youtube.com" = true) links /\
    searches t <= 3 /\
    (truthy itemName = false -> t = []).
Proof.
  destruct (getLinks_tidy SONG_TYPES MAX_MINUTES compareTwoStrings w itemName albumName
              artistName extraSearch searchFormat type exclusionFilters)
    as (t & links & H & [Hlen Hprefix] & Hs & Hnone).
  exists t, links. auto.
Qed.

End GetLinkBoundsProofs.


Module OutputPathProofs.
Import JsString JsStringProofs Filters FiltersProofs FormatGenerators OutputPath.

Lemma split_from_chars sep c s : forall skip,
  has_char c s = false ->
  Forall (fun piece => has_char c piece = false) (split_from sep skip s).
Proof.
  induction s as [|d s IH]; intros skip Hfree; simpl.
  - repeat constructor.
  - simpl in Hfree. apply orb_false_iff in Hfree. destruct Hfree as [Hd Hs].
    destruct skip as [|skip]; [|now apply IH].
    match goal with |- context [if ?b then _ else _] => destruct b end.
    + constructor; [reflexivity | now apply IH].
    + specialize (IH 0 Hs).
      destruct (split_from sep 0 s) as [|piece pieces].
      * repeat constructor. simpl. now rewrite Hd.
      * inversion IH as [|? ? Hp Hps]; subst.
        constructor; [simpl; now rewrite Hd, Hp | exact Hps].
Qed.

Lemma split_from_nonempty sep s : forall skip, split_from sep skip s <> [].
Proof.
  induction s as [|d s IH]; intros skip; simpl; [discriminate|].
  destruct skip as [|skip]; [|apply IH].
  match goal with |- context [if ?b then _ else _] => destruct b end;
    [discriminate|].
  destruct (split_from sep 0 s); discriminate.
Qed.

Lemma cleanOutputPath_clean s : clean_segment (cleanOutputPath s).
Proof.
  intros c Hc. rewrite cleanOutputPath_remove_all, remove_all_has_char, Hc.
  apply andb_false_r.
Qed.

(** X23: when the output format renders, every segment [itemOutputPath]
    hands to [path.join] after the output directory is free of the
    reserved characters, so of the slash, the backslash and the dot,
    whatever the names of the item, the album and the artist are; there
    is at least one segment; with [outputOnly] the one segment is the
    cleaned item name, which is the cleaned underscore for an item
    without a name.  The path is not computed only when the format does
    not render. *)
Theorem pathSegments_clean (outputOnly : bool) (outputFormat : string)
    (itemName albumName artistName : string) :
  match pathSegments outputOnly outputFormat itemName albumName artistName with
  | Returned segments =>
      segments <> [] /\ Forall clean_segment segments /\
      (outputOnly = true ->
       segments = [cleanOutputPath (if truthy itemName then itemName else "_")])
  | Threw e =>
      generateTemplateString
        (cleanOutputPath (if truthy itemName then itemName else "_"))
        albumName artistName outputFormat = Threw e
  end.
Proof.
  unfold pathSegments.
  destruct (generateTemplateString _ albumName artistName outputFormat)
    as [generated|e]; [|reflexivity].
  destruct outputOnly.
  - split; [discriminate|]. split; [|reflexivity].
    repeat constructor. apply cleanOutputPath_clean.
  - split; [apply split_from_nonempty|]. split; [|discriminate].
    apply List.Forall_forall. intros segment Hin c Hc.
    pose proof (split_from_chars "___" c (cleanOutputPath generated) 0
                  (cleanOutputPath_clean generated c Hc)) as H.
    rewrite List.Forall_forall in H. now apply H.
Qed.

Example pathSegments_sample :
  pathSegments false "{artistName}___{albumName}___{itemName}"
               "Who Made Who?" "../../etc" "AC/DC"
  = Returned ["ACDC"; "etc"; "Who Made Who"].
Proof. reflexivity. Qed.

(** The dollar patterns of [String.prototype.replace] reach the path: the
    album name is not cleaned before it is put in the format. *)
Example pathSegments_dollar_album :
  pathSegments false "{albumName}___{itemName}" "Halo" "$&" "Beyonce"
  = Returned ["albumName"; "Halo"].
Proof. reflexivity. Qed.

End OutputPathProofs.


Module SessionProofs.
Import JsString Node Runner RunnerTrace RunnerTraceProofs Session.

Section Types.
Variables SONG PLAYLIST ALBUM ARTIST EPISODE SHOW : string.
Variables SAVED_SHOWS SAVED_ALBUMS SAVED_PLAYLISTS SAVED_TRACKS YOUTUBE : string.
Variable itemOutputPath : string -> string -> string -> string.
Variable path_dirname : string -> string.
Variable path_resolve : string -> string.
Variable path_join : string -> string -> string.
Variable cacheFile : string.
Variable downloadLyrics : bool.
Variable downloadReport : bool.
Variable f : Faults.
Variable c : Catalog.
Variable worlds : nat -> nat -> World.

Let process :=
  processInput SONG PLAYLIST ALBUM ARTIST EPISODE SHOW SAVED_SHOWS SAVED_ALBUMS
               SAVED_PLAYLISTS SAVED_TRACKS YOUTUBE c.
Let lists_from :=
  download_lists itemOutputPath path_dirname path_resolve path_join cacheFile
                 downloadLyrics downloadReport f worlds.
Let one :=
  run_input SONG PLAYLIST ALBUM ARTIST EPISODE SHOW SAVED_SHOWS SAVED_ALBUMS
            SAVED_PLAYLISTS SAVED_TRACKS YOUTUBE itemOutputPath path_dirname
            path_resolve path_join cacheFile downloadLyrics downloadReport f c worlds.





(** The input of a YouTube link. *)
Lemma processInput_youtube i input :
  youtube_only SONG PLAYLIST ALBUM ARTIST EPISODE SHOW SAVED_SHOWS SAVED_ALBUMS
               SAVED_PLAYLISTS SAVED_TRACKS YOUTUBE (type input) ->
  process i input
  = ([], Returned [mkList "YouTube Download" (type input)
                          [mkItem (url input) (url input) "YouTube Download"
                                  ["YouTube"] (url input) None None None]]).
Proof.
  intros [Hy Hothers]. unfold process, processInput.
  repeat match goal with
         | H : Forall _ (_ :: _) |- _ =>
             let Hh := fresh "Hh" in
             let Ht := fresh "Ht" in
             apply List.Forall_cons_iff in H; destruct H as [Hh Ht]; rewrite Hh
         end.
  rewrite <- Hy at 1. now rewrite String.eqb_refl.
Qed.

Lemma tagged_In i k t e :
  In e (tagged i k t) -> exists e', e = (i, k, e') /\ In e' t.
Proof.
  unfold tagged. intros H. apply in_map_iff in H.
  destruct H as (e' & <- & Hin). eauto.
Qed.

Lemma run_input_youtube i input env :
  youtube_only SONG PLAYLIST ALBUM ARTIST EPISODE SHOW SAVED_SHOWS SAVED_ALBUMS
               SAVED_PLAYLISTS SAVED_TRACKS YOUTUBE (type input) ->
  truthy (url input) = true ->
  forall e, In e (snd (fst (one i input env))) ->
    exists e', e = (i, 0, e') /\ event_index e' = 0 /\
      match e' with
      | EvResolve _ => False
      | EvAcquire _ ytLinks _ => ytLinks = [url input]
      | _ => True
      end.
Proof.
  intros Hy Hurl e He. unfold one, run_input in He. fold process in He.
  rewrite (processInput_youtube i input Hy) in He.
  fold lists_from in He. unfold lists_from in He. simpl in He.
  match type of He with
  | context [downloadList ?a ?b ?c0 ?d ?e0 ?g ?h ?w ?songs ?env0] =>
      pose proof (proj1 (downloadList_calls_aux a b c0 d e0 g h w songs env0)) as Hcalls;
      destruct (downloadList a b c0 d e0 g h w songs env0) as [[env1 t] r]
  end.
  simpl in Hcalls.
  assert (Ht : In e (tagged i 0 t)).
  { destruct r; simpl in He; [rewrite app_nil_r in He|]; exact He. }
  apply tagged_In in Ht. destruct Ht as (e' & -> & Hin).
  exists e'. split; [reflexivity|].
  rewrite List.Forall_forall in Hcalls.
  destruct (Hcalls e' Hin) as (item & Hitem & Hok).
  destruct (event_index e') as [|n] eqn:En; [|destruct n; discriminate].
  injection Hitem as <-. split; [reflexivity|].
  destruct e'; simpl in *; auto.
  - destruct Hok as [_ Hok]. congruence.
  - destruct Hok as (_ & -> & _). unfold links_of. simpl. now rewrite Hurl.
Qed.

End Types.




Example sample_run_report :
  snd (sample_run sample_inputs empty_env)
  = Some [mkEntry "YouTube Download" "youtube" 1 1 []]
  /\ logged (fst (fst (sample_run sample_inputs empty_env)))
     = ["Failed to process song: offline"].
Proof. split; vm_compute; reflexivity. Qed.

(** X25: for an input of the YouTube type with a URL, [processInput] asks
    the catalog nothing and returns one list of one item whose id, name
    and link are the URL; the run then never consults the search for it,
    and every download it makes is given the URL as its one candidate. *)
Theorem run_input_direct_link
    (SONG PLAYLIST ALBUM ARTIST EPISODE SHOW : string)
    (SAVED_SHOWS SAVED_ALBUMS SAVED_PLAYLISTS SAVED_TRACKS YOUTUBE : string)
    (itemOutputPath : string -> string -> string -> string)
    (path_dirname path_resolve : string -> string)
    (path_join : string -> string -> string) (cacheFile : string)
    (downloadLyrics downloadReport : bool) (f : Faults) (c : Catalog)
    (worlds : nat -> nat -> World) (i : nat) (input : Input) (env : Env) :
  youtube_only SONG PLAYLIST ALBUM ARTIST EPISODE SHOW SAVED_SHOWS SAVED_ALBUMS
               SAVED_PLAYLISTS SAVED_TRACKS YOUTUBE (type input) ->
  truthy (url input) = true ->
  processInput SONG PLAYLIST ALBUM ARTIST EPISODE SHOW SAVED_SHOWS SAVED_ALBUMS
               SAVED_PLAYLISTS SAVED_TRACKS YOUTUBE c i input
  = ([], Returned [mkList "YouTube Download" (type input)
                          [mkItem (url input) (url input) "YouTube Download"
                                  ["YouTube"] (url input) None None None]]) /\
  forall e,
    In e (snd (fst (run_input SONG PLAYLIST ALBUM ARTIST EPISODE SHOW SAVED_SHOWS
                              SAVED_ALBUMS SAVED_PLAYLISTS SAVED_TRACKS YOUTUBE
                              itemOutputPath path_dirname path_resolve path_join
                              cacheFile downloadLyrics downloadReport f c worlds
                              i input env))) ->
    exists e', e = (i, 0, e') /\ event_index e' = 0 /\
      match e' with
      | EvResolve _ => False
      | EvAcquire _ ytLinks _ => ytLinks = [url input]
      | _ => True
      end.
Proof.
  intros Hy Hurl. split.
  - now apply processInput_youtube.
  - now apply run_input_youtube.
Qed.

Lemma run_input_direct_link_witness :
  processInput "song" "playlist" "album" "artist" "episode" "show" "savedShows"
               "savedAlbums" "savedPlaylists" "savedTracks" "youtube" offline 1
               (mkInput "youtube" "https://www.youtube.com/watch?v=abc")
  = ([], Returned [mkList "YouTube Download" "youtube"
                          [mkItem "https://www.youtube.com/watch?v=abc"
                                  "https://www.youtube.com/watch?v=abc"
                                  "YouTube Download" ["YouTube"]
                                  "https://www.youtube.com/watch?v=abc"
                                  None None None]]).
Proof.
  apply (run_input_direct_link "song" "playlist" "album" "artist" "episode" "show"
           "savedShows" "savedAlbums" "savedPlaylists" "savedTracks" "youtube"
           sample_path Cache.dirname_slash (fun p => p) Cache.join_slash
           ".spdlcache" false true no_faults offline (fun _ _ => eager_world) 1
           (mkInput "youtube" "https://www.youtube.com/watch?v=abc") empty_env).
  - split; [reflexivity|]. repeat constructor.
  - reflexivity.
Defined.
End SessionProofs.


Module CoverProofs.
Import JsString JsStringProofs Metadata.
Local Open Scope string_scope.

Lemma length_app s t : String.length (s ++ t) = String.length s + String.length t.
Proof.
  induction s as [|c s IH]; [reflexivity|].
  rewrite append_cons. simpl. now rewrite IH.
Qed.

Lemma substring_stem stem rest :
  String.substring 0 (String.length stem) (stem ++ rest) = stem.
Proof.
  induction stem as [|c stem IH].
  - simpl. now destruct (EmptyString ++ rest).
  - rewrite append_cons. simpl. now rewrite IH.
Qed.

Lemma coverFileName_stem stem ext :
  String.length ext = 3 -> coverFileName (stem ++ ext) = stem ++ "jpg".
Proof.
  intros Hext. unfold coverFileName. rewrite length_app, Hext.
  replace (Nat.leb 3 (String.length stem + 3)) with true
    by (symmetry; apply Nat.leb_le; lia).
  replace (String.length stem + 3 - 3) with (String.length stem) by lia.
  now rewrite substring_stem.
Qed.

(** X26: for an output path that ends in three characters, the cover
    file is the path with these three characters replaced by [jpg]; the
    cover file, which is the one file [mergeMetadata] deletes, is the
    output file itself exactly when the output path ends in [jpg]. *)
Theorem coverFileName_other_file (output : string) :
  (forall stem ext,
      output = stem ++ ext -> String.length ext = 3 ->
      coverFileName output = stem ++ "jpg") /\
  (coverFileName output = output <-> exists stem, output = stem ++ "jpg").
Proof.
  split.
  - intros stem ext -> Hext. now apply coverFileName_stem.
  - split.
    + intros H. unfold coverFileName in H. eexists. symmetry. exact H.
    + intros (stem & ->). now apply coverFileName_stem.
Qed.

Example coverFileName_samples :
  coverFileName "music/Muse/Knights.mp3" = "music/Muse/Knights.jpg" /\
  coverFileName "music/Muse/Knights.flac" = "music/Muse/Knights.fjpg".
Proof. split; reflexivity. Qed.

End CoverProofs.


Module CookiesProofs.
Import JsString JsStringProofs Node Cookies.
Local Open Scope string_scope.

(** *** The split on blanks *)

Lemma blank_is_space c : is_blank c = true -> is_space c = true.
Proof.
  unfold is_blank. intros H. apply orb_true_iff in H.
  destruct H as [H|H]; apply Ascii.eqb_eq in H; subst c; reflexivity.
Qed.

Lemma solid_cons c s : solid (String c s) -> is_space c = false /\ solid s.
Proof.
  intros H. split.
  - destruct (is_space c) eqn:E; [|reflexivity].
    specialize (H c E). simpl in H. now rewrite Ascii.eqb_refl in H.
  - intros d Hd. specialize (H d Hd). simpl in H.
    now apply orb_false_iff in H.
Qed.

Lemma solid_not_blank c s : solid (String c s) -> is_blank c = false.
Proof.
  intros H. destruct (is_blank c) eqn:E; [|reflexivity].
  apply blank_is_space in E. apply solid_cons in H. destruct H as [H _]. congruence.
Qed.

Lemma split_blanks_solid x : forall in_run, solid x -> split_blanks in_run x = [x].
Proof.
  induction x as [|c x IH]; intros in_run Hx; [reflexivity|].
  simpl. rewrite (solid_not_blank c x Hx).
  apply solid_cons in Hx. destruct Hx as [_ Hx]. now rewrite (IH false Hx).
Qed.

Lemma split_blanks_field x rest :
  solid x ->
  split_blanks false (x ++ String TAB rest) = x :: split_blanks true rest.
Proof.
  induction x as [|c x IH]; intros Hx; [reflexivity|].
  rewrite append_cons. simpl. rewrite (solid_not_blank c x Hx).
  apply solid_cons in Hx. destruct Hx as [_ Hx]. now rewrite (IH Hx).
Qed.

Lemma split_blanks_start c s :
  is_blank c = false -> split_blanks true (String c s) = split_blanks false (String c s).
Proof. intros H. simpl. now rewrite H. Qed.

Lemma join_cons sep x y l : join sep (x :: y :: l) = x ++ sep ++ join sep (y :: l).
Proof. reflexivity. Qed.

Lemma split_blanks_join fields :
  fields <> [] -> Forall (fun x => truthy x = true /\ solid x) fields ->
  split_blanks false (join tab fields) = fields.
Proof.
  intros Hne H. induction H as [|x l [Hx Hs] Hl IH]; [congruence|].
  destruct l as [|y l].
  - simpl. now apply split_blanks_solid.
  - rewrite join_cons. change (tab ++ join tab (y :: l)) with (String TAB (join tab (y :: l))).
    rewrite (split_blanks_field x _ Hs). f_equal.
    specialize (IH ltac:(discriminate)). rewrite <- IH at 2.
    inversion Hl as [|? ? [Hy Hys] _]; subst.
    destruct y as [|c y]; [discriminate|].
    assert (E : exists s, join tab (String c y :: l) = String c s).
    { destruct l; [now exists y|]. rewrite join_cons. now eexists. }
    destruct E as (s & ->). apply split_blanks_start. now apply solid_not_blank in Hys.
Qed.

Lemma split_blanks_fields fields :
  fields_ok fields -> split_blanks false (join tab fields) = fields.
Proof.
  intros [->|[Hne H]]; [reflexivity | now apply split_blanks_join].
Qed.

(** *** The lines *)

Lemma join_free c sep l :
  has_char c sep = false -> Forall (fun x => has_char c x = false) l ->
  has_char c (join sep l) = false.
Proof.
  intros Hsep H. induction H as [|x l Hx Hl IH]; [reflexivity|].
  destruct l as [|y l]; [exact Hx|].
  now rewrite join_cons, !has_char_app, Hx, Hsep, IH.
Qed.

Lemma fields_line fields : fields_ok fields -> has_char LF (join tab fields) = false.
Proof.
  intros [->|[_ H]]; [reflexivity|].
  apply join_free; [reflexivity|].
  eapply List.Forall_impl; [|exact H]. intros x [_ Hs]. now apply Hs.
Qed.

Lemma add_cookie_line cookie fields :
  fields_ok fields ->
  add_cookie cookie (join tab fields)
  = if has_seven fields then cookie ++ cookie_pair fields ++ " " else cookie.
Proof.
  intros H. unfold add_cookie, has_seven, cookie_pair.
  rewrite (split_blanks_fields fields H).
  destruct (Nat.eqb (length fields) 7); [|reflexivity].
  now rewrite !append_assoc.
Qed.

Lemma fold_add_cookie records : forall cookie,
  Forall fields_ok records ->
  fold_left add_cookie (map (join tab) records) cookie
  = cookie ++ spaced (map cookie_pair (List.filter has_seven records)).
Proof.
  induction records as [|fields records IH]; intros cookie H.
  - simpl. now rewrite append_nil_r.
  - inversion H as [|? ? Hf Hr]; subst. simpl.
    rewrite (add_cookie_line cookie fields Hf), (IH _ Hr).
    destruct (has_seven fields); [|reflexivity].
    simpl. now rewrite !append_assoc.
Qed.

(** *** The trim *)

Lemma trimEnd_solid p rest :
  truthy p = true -> solid p -> trimEnd (p ++ rest) = p ++ trimEnd rest.
Proof.
  induction p as [|c p IH]; intros Ht Hp; [discriminate|].
  apply solid_cons in Hp. destruct Hp as [Hc Hp].
  rewrite !append_cons. simpl.
  destruct p as [|d p].
  - change (EmptyString ++ rest) with rest.
    change (EmptyString ++ trimEnd rest) with (trimEnd rest).
    destruct (trimEnd rest); [now rewrite Hc | reflexivity].
  - rewrite (IH eq_refl Hp). rewrite append_cons. reflexivity.
Qed.

Lemma trimEnd_spaced pairs :
  Forall (fun p => truthy p = true /\ solid p) pairs ->
  trimEnd (spaced pairs) = join " " pairs.
Proof.
  induction 1 as [|p ps [Ht Hs] Hps IH]; [reflexivity|].
  simpl spaced. rewrite (trimEnd_solid p _ Ht Hs).
  change (" " ++ spaced ps) with (String " " (spaced ps)).
  simpl trimEnd. rewrite IH.
  destruct ps as [|q ps].
  - simpl. now rewrite append_nil_r.
  - inversion Hps as [|? ? [Hq _] _]; subst.
    rewrite join_cons.
    destruct (join " " (q :: ps)) eqn:E; [|reflexivity].
    exfalso. destruct q; [discriminate|]. destruct ps; discriminate.
Qed.

Lemma trim_spaced pairs :
  Forall (fun p => truthy p = true /\ solid p) pairs ->
  trim (spaced pairs) = join " " pairs.
Proof.
  intros H. unfold trim.
  assert (E : trimStart (spaced pairs) = spaced pairs).
  { destruct H as [|p ps [Ht Hs] _]; [reflexivity|].
    destruct p as [|c p]; [discriminate|].
    apply solid_cons in Hs. destruct Hs as [Hc _].
    simpl spaced. rewrite append_cons. simpl. now rewrite Hc. }
  rewrite E. now apply trimEnd_spaced.
Qed.

Lemma solid_app a b : solid a -> solid b -> solid (a ++ b).
Proof.
  intros Ha Hb c Hc. now rewrite has_char_app, (Ha c Hc), (Hb c Hc).
Qed.

Lemma solid_nth fields k :
  Forall (fun x => truthy x = true /\ solid x) fields ->
  solid (nth k fields EmptyString).
Proof.
  intros H. revert k. induction H as [|x l [_ Hx] _ IH]; intros [|k]; simpl; auto;
    intros c _; reflexivity.
Qed.

Lemma solid_char d : is_space d = false -> solid (String d EmptyString).
Proof.
  intros Hd c Hc. cbn [has_char]. rewrite orb_false_r.
  apply Ascii.eqb_neq. intros ->. congruence.
Qed.

Lemma cookie_pair_solid fields :
  fields_ok fields -> has_seven fields = true ->
  truthy (cookie_pair fields) = true /\ solid (cookie_pair fields).
Proof.
  intros [->|[_ H]] Hseven; [discriminate|]. unfold cookie_pair. split.
  - destruct (nth 5 fields EmptyString); reflexivity.
  - repeat apply solid_app; try (now apply solid_nth); now apply solid_char.
Qed.

(** X27: for a cookie file whose lines are fields separated by tabs,
    the fields holding no white space, the [Cookie] header is made of
    [name=value;] for every line of exactly seven fields, the name being
    the sixth field and the value the seventh, in the order of the lines
    and separated by one space; the other lines are ignored.  Without
    the file, and when the file cannot be read, the configuration is left
    as it is and nothing is thrown. *)
Theorem getYoutubeDLConfig_cookies (f : Faults) (cookieFile : string) (env : Env) :
  (forall records,
      Forall fields_ok records ->
      files env !! cookieFile = Some (file_of records) ->
      read_fails f cookieFile = false ->
      snd (getYoutubeDLConfig f cookieFile env)
      = Returned (Some (join " " (map cookie_pair (List.filter has_seven records))))) /\
  (files env !! cookieFile = None \/ read_fails f cookieFile = true ->
   snd (getYoutubeDLConfig f cookieFile env) = Returned None).
Proof.
  split.
  - intros records Hok Hfile Hread.
    unfold getYoutubeDLConfig, bind, try_catch, existsSync, readFileSync, ret.
    rewrite Hfile. simpl. rewrite Hread, Hfile. simpl. do 2 f_equal.
    unfold cookieFileContents, file_of.
    assert (Hlines : fold_left add_cookie (split LF (join nl (map (join tab) records)))
                               EmptyString
                     = spaced (map cookie_pair (List.filter has_seven records))).
    { destruct records as [|r records]; [reflexivity|].
      unfold nl. rewrite FiltersProofs.split_join.
      - now rewrite fold_add_cookie.
      - apply List.Forall_forall. intros line Hin. apply in_map_iff in Hin.
        destruct Hin as (fields & <- & Hin).
        rewrite List.Forall_forall in Hok. now apply fields_line, Hok.
      - discriminate. }
    rewrite Hlines. apply trim_spaced.
    apply List.Forall_forall. intros p Hin. apply in_map_iff in Hin.
    destruct Hin as (fields & <- & Hin). apply List.filter_In in Hin.
    destruct Hin as [Hin Hseven]. rewrite List.Forall_forall in Hok.
    now apply cookie_pair_solid; [apply Hok|].
  - intros H.
    unfold getYoutubeDLConfig, bind, try_catch, existsSync, readFileSync, ret, logInfo.
    destruct (files env !! cookieFile) as [text|] eqn:E;
      destruct (bool_decide (cookieFile ∈ dirs env));
      destruct (read_fails f cookieFile) eqn:Er; simpl;
      rewrite ?Er, ?E; simpl; try reflexivity;
      destruct H; discriminate.
Qed.

Lemma getYoutubeDLConfig_cookies_witness :
  snd (getYoutubeDLConfig no_faults "cookies.txt"
         (mkEnv {[ "cookies.txt" :=
                    file_of [["#"; "Netscape"; "HTTP"; "Cookie"; "File"];
                             [".youtube.com"; "TRUE"; "/"; "TRUE"; "1735689600";
                              "SID"; "abc"];
                             [".youtube.com"; "TRUE"; "/"; "FALSE"; "0"; "PREF";
                              "hl=en"];
                             [EmptyString]] ]} ∅ []))
  = Returned (Some "SID=abc; PREF=hl=en;").
Proof.
  apply (proj1 (getYoutubeDLConfig_cookies no_faults "cookies.txt"
                  (mkEnv {[ "cookies.txt" :=
                    file_of [["#"; "Netscape"; "HTTP"; "Cookie"; "File"];
                             [".youtube.com"; "TRUE"; "/"; "TRUE"; "1735689600";
                              "SID"; "abc"];
                             [".youtube.com"; "TRUE"; "/"; "FALSE"; "0"; "PREF";
                              "hl=en"];
                             [EmptyString]] ]} ∅ []))
           [["#"; "Netscape"; "HTTP"; "Cookie"; "File"];
            [".youtube.com"; "TRUE"; "/"; "TRUE"; "1735689600"; "SID"; "abc"];
            [".youtube.com"; "TRUE"; "/"; "FALSE"; "0"; "PREF"; "hl=en"];
            [EmptyString]]).
  - repeat (apply List.Forall_cons;
            [first [left; reflexivity
                   | right; split; [discriminate|];
                     repeat (apply List.Forall_cons;
                             [split; [reflexivity|];
                              intros c Hc; vm_compute;
                              destruct c as [[] [] [] [] [] [] [] []];
                              try reflexivity; discriminate|]);
                     apply List.Forall_nil]|]).
    apply List.Forall_nil.
  - apply lookup_singleton_eq.
  - reflexivity.
Defined.

End CookiesProofs.


Module DuplicatesProofs.
Import JsString Node Cache CacheProofs Runner RunnerProofs RunnerTrace.

Section Run.
Variable itemOutputPath : string -> string -> string -> string.
Variable path_dirname : string -> string.
Variable path_resolve : string -> string.
Variable path_join : string -> string -> string.
Variable cacheFile : string.
Variable downloadLyrics : bool.
Variable f : Faults.
Variable w : World.

Let steps := process_items itemOutputPath path_dirname path_resolve path_join cacheFile
                           downloadLyrics f w.

(** The loop over a list in two parts. *)
Lemma steps_app l1 l2 : forall index env,
  steps index (l1 ++ l2) env
  = match steps index l1 env with
    | (env1, t1, Threw e) => (env1, t1, Threw e)
    | (env1, t1, Returned done1) =>
        match steps (index + length l1) l2 env1 with
        | (env2, t2, Threw e) => (env2, t1 ++ t2, Threw e)
        | (env2, t2, Returned done2) => (env2, t1 ++ t2, Returned (done1 ++ done2))
        end
    end.
Proof.
  induction l1 as [|item l1 IH]; intros index env.
  - simpl. rewrite Nat.add_0_r.
    destruct (steps index l2 env) as [[env2 t2] [done2|e]]; reflexivity.
  - unfold steps. simpl. fold steps.
    destruct (process_item _ _ _ _ _ _ _ _ index item env) as [[env1 t1] [item1|e]];
      [|reflexivity].
    rewrite IH.
    replace (index + S (length l1)) with (S index + length l1) by lia.
    destruct (steps (S index) l1 env1) as [[env2 t2] [done1|e]]; [|reflexivity].
    destruct (steps (S index + length l1) l2 env2) as [[env3 t3] [done2|e]];
      now rewrite !app_assoc.
Qed.

Lemma steps_duplicate items env env' t done i j a b a' :
  steps 0 items env = (env', t, Returned done) ->
  well_kept env -> Forall fresh items ->
  i < j -> items !! i = Some a -> items !! j = Some b ->
  id b = id a ->
  itemDir itemOutputPath path_dirname b = itemDir itemOutputPath path_dirname a ->
  done !! i = Some a' -> kept a' ->
  plain itemOutputPath path_dirname a ->
  writable itemOutputPath path_dirname path_join cacheFile f a ->
  readable itemOutputPath path_dirname path_join cacheFile f b ->
  done !! j = Some (set_cached b) /\ ~ In j (acquired t).
Proof.
  intros Hsteps Hwell Hfresh Hij Ha Hb Hid Hdir Ha' Hkept Hplain Hwrite Hread.
  assert (Hi : i < length items) by (apply lookup_lt_Some in Ha; exact Ha).
  rewrite <- (take_drop (S i) items) in Hsteps. rewrite steps_app in Hsteps.
  assert (Hlen1 : length (take (S i) items) = S i) by (rewrite length_take; lia).
  rewrite Hlen1 in Hsteps. simpl plus in Hsteps.
  destruct (steps 0 (take (S i) items) env) as [[env1 t1] [done1|e]] eqn:E1;
    [|discriminate].
  destruct (steps (S i) (list.drop (S i) items) env1) as [[env2 t2] [done2|e]] eqn:E2;
    [|discriminate].
  injection Hsteps as <- <- <-.
  destruct (steps_first itemOutputPath path_dirname path_resolve path_join cacheFile
              downloadLyrics f w _ _ _ _ _ _ E1 Hwell (Forall_take _ _ _ Hfresh))
    as (Hwell1 & _ & Hlen & Hlisted).
  rewrite Hlen1 in Hlen.
  assert (Hla : listed itemOutputPath path_dirname path_join cacheFile a env1).
  { apply (Hlisted i a a'); auto.
    - rewrite lookup_take_lt by lia. exact Ha.
    - rewrite lookup_app_l in Ha' by lia. exact Ha'. }
  assert (Hlb : listed itemOutputPath path_dirname path_join cacheFile b env1).
  { unfold listed in *. now rewrite Hid, Hdir. }
  assert (Hpb : plain itemOutputPath path_dirname b).
  { unfold plain in *. now rewrite Hid, Hdir. }
  destruct (steps_again itemOutputPath path_dirname path_resolve path_join cacheFile
              downloadLyrics f w _ _ _ _ _ _ E2 Hwell1 (j - S i) b) as [Hdone Hnot]; auto.
  { rewrite lookup_drop. replace (S i + (j - S i)) with j by lia. exact Hb. }
  replace (S i + (j - S i)) with j in Hnot by lia.
  split.
  - rewrite lookup_app_r by lia. now rewrite Hlen.
  - rewrite acquired_app. intros Hin. apply List.in_app_iff in Hin.
    destruct Hin as [Hin|Hin]; [|now apply Hnot].
    pose proof (steps_acquired_below itemOutputPath path_dirname path_resolve path_join
                  cacheFile downloadLyrics f w _ _ _ _ _ _ E1 j Hin) as Hlt.
    rewrite Hlen1 in Hlt. lia.
Qed.

End Run.

(** X28: a list that names an item twice downloads it once.  On a disk
    whose files are made of whole lines, when an item of the list was
    acquired by the run or found acquired, the cache can record it (its
    id is plain, its directory has a name, the system refuses neither the
    directory nor the append) and can be read, every later item of the
    list with the same id and the same directory is marked [cached] and
    is not handed to the downloader. *)
Theorem downloadList_duplicate
    (itemOutputPath : string -> string -> string -> string)
    (path_dirname path_resolve : string -> string)
    (path_join : string -> string -> string) (cacheFile : string)
    (downloadLyrics : bool) (f : Faults) (w : World) (songs : SongList)
    (env env' : Env) (t : list Event) (done : SongList)
    (i j : nat) (a b a' : Item) :
  downloadList itemOutputPath path_dirname path_resolve path_join cacheFile
               downloadLyrics f w songs env = (env', t, Returned done) ->
  well_kept env -> Forall fresh (items songs) ->
  i < j -> items songs !! i = Some a -> items songs !! j = Some b ->
  id b = id a ->
  itemDir itemOutputPath path_dirname b = itemDir itemOutputPath path_dirname a ->
  items done !! i = Some a' -> kept a' ->
  plain itemOutputPath path_dirname a ->
  writable itemOutputPath path_dirname path_join cacheFile f a ->
  readable itemOutputPath path_dirname path_join cacheFile f b ->
  items done !! j = Some (set_cached b) /\ ~ In j (acquired t).
Proof.
  unfold downloadList. intros Hrun.
  destruct (process_items itemOutputPath path_dirname path_resolve path_join cacheFile
              downloadLyrics f w 0 (items songs) env) as [[env1 t1] [done1|e]] eqn:E;
    [|discriminate].
  injection Hrun as <- <- <-. simpl.
  now apply (steps_duplicate itemOutputPath path_dirname path_resolve path_join
               cacheFile downloadLyrics f w (items songs) env env1 t1 done1).
Qed.

Lemma downloadList_duplicate_witness :
  exists done,
    snd (run_sample same_song_twice empty_env) = Returned done /\
    items done !! 1 = Some (set_cached halo).
Proof.
  exists (mkList "Mix" "playlist" [set_failed false halo; set_cached halo]).
  split; [vm_compute; reflexivity|].
  apply (downloadList_duplicate sample_path Cache.dirname_slash (fun p => p)
           Cache.join_slash ".spdlcache" false no_faults eager_world same_song_twice
           empty_env (fst (fst (run_sample same_song_twice empty_env)))
           (snd (fst (run_sample same_song_twice empty_env)))
           (mkList "Mix" "playlist" [set_failed false halo; set_cached halo])
           0 1 halo halo (set_failed false halo)).
  - vm_compute. reflexivity.
  - intros path content H. simpl in H. rewrite lookup_empty in H. discriminate.
  - repeat constructor.
  - lia.
  - reflexivity.
  - reflexivity.
  - reflexivity.
  - reflexivity.
  - reflexivity.
  - left. reflexivity.
  - repeat split; reflexivity.
  - split; reflexivity.
  - reflexivity.
Defined.

End DuplicatesProofs.
